(** * TubeHoarder: the acquisition pipeline of [main.py], embedded in Rocq

    The development follows the Python source function by function.

    - A Python [str] is held as the bytes of its UTF-8 encoding ([string]),
      which is also what reaches a file opened with [encoding="utf-8"];
      [os.path] is the POSIX flavour ([posixpath]).
    - Code that talks to the outside world (the yt-dlp engine, the file
      system, the network, the clock) is written in a small free monad
      [prog]: a [Call] asks a collaborator and continues with its answer, a
      [Do] performs an action on the state the threads share (the event
      queue [UIQueue], the lock [logLock], the text files written byte by
      byte).  [Raise] is a Python exception, [catch] is
      [try/except Exception].  Every step that Python lets fail can fail:
      opening a file, writing to it and closing it, reading, moving,
      making a directory.
    - A worker pool runs the jobs' programs under an arbitrary schedule.
    - The legacy script (version 1.2.1, shipped next to [main.py]) is
      embedded in [Module Legacy] where it differs. *)

From stdpp Require Import base strings list gmap pretty.
From Stdlib Require Import ZArith QArith Lia.
From Stdlib Require Import Ascii.

Close Scope Q_scope.
Open Scope nat_scope.

Set Implicit Arguments.
Unset Strict Implicit.

(* ===================================================================== *)
(** * Python strings *)
(* ===================================================================== *)

Module Py.

(** The double quote and the line feed, which the string literals of this
    file do not contain. *)
Definition dq : string := String (ascii_of_nat 34) EmptyString.
Definition nl : string := String (ascii_of_nat 10) EmptyString.
Definition backslash : string := String (ascii_of_nat 92) EmptyString.

Fixpoint chars (s : string) : list ascii :=
  match s with
  | EmptyString => []
  | String c r => c :: chars r
  end.

Fixpoint of_chars (l : list ascii) : string :=
  match l with
  | [] => EmptyString
  | c :: r => String c (of_chars r)
  end.

(** Truthiness of a string: [if s:] is [s != ""]. *)
Definition truthy (s : string) : bool :=
  match s with EmptyString => false | _ => true end.

(** The white space of [str.strip] and [str.isspace]: U+0009 to U+000D,
    U+001C to U+0020, U+0085, U+00A0, U+1680, U+2000 to U+200A, U+2028,
    U+2029, U+202F, U+205F and U+3000.  In UTF-8 the first ten are one
    byte; U+0085 and U+00A0 are C2 85 and C2 A0; U+1680 is E1 9A 80;
    U+2000 to U+200A, U+2028, U+2029 and U+202F are E2 80 followed by 80
    to 8A, A8, A9 and AF; U+205F is E2 81 9F; U+3000 is E3 80 80. *)
Definition is_space1 (a : ascii) : bool :=
  let x := nat_of_ascii a in
  ((9 <=? x) && (x <=? 13)) || ((28 <=? x) && (x <=? 32)).

Definition is_space2 (a b : ascii) : bool :=
  let x := nat_of_ascii a in
  let y := nat_of_ascii b in
  (x =? 194) && ((y =? 133) || (y =? 160)).

Definition is_space3 (a b c : ascii) : bool :=
  let x := nat_of_ascii a in
  let y := nat_of_ascii b in
  let z := nat_of_ascii c in
  ((x =? 225) && (y =? 154) && (z =? 128))
  || ((x =? 226) && (y =? 128)
      && (((128 <=? z) && (z <=? 138)) || (z =? 168) || (z =? 169) || (z =? 175)))
  || ((x =? 226) && (y =? 129) && (z =? 159))
  || ((x =? 227) && (y =? 128) && (z =? 128)).

(** [s] starts with a white space character. *)
Definition head_space (s : string) : bool :=
  match s with
  | String a (String b (String c _)) =>
      is_space1 a || is_space2 a b || is_space3 a b c
  | String a (String b EmptyString) => is_space1 a || is_space2 a b
  | String a EmptyString => is_space1 a
  | EmptyString => false
  end.

(** [s.lstrip()]: the white space characters at the start are dropped,
    one character (of one, two or three bytes) at a time. *)
Fixpoint lstrip (s : string) : string :=
  match s with
  | EmptyString => EmptyString
  | String a r =>
      if is_space1 a then lstrip r
      else
        match r with
        | EmptyString => s
        | String b r2 =>
            if is_space2 a b then lstrip r2
            else
              match r2 with
              | EmptyString => s
              | String c r3 => if is_space3 a b c then lstrip r3 else s
              end
        end
  end.

(** [s] consists of white space only. *)
Definition all_space (s : string) : bool := negb (truthy (lstrip s)).

(** [s.rstrip()]: the text is kept up to the point from which only white
    space follows. *)
Fixpoint rstrip (s : string) : string :=
  match s with
  | EmptyString => EmptyString
  | String c r => if all_space s then EmptyString else String c (rstrip r)
  end.

(** [s.strip()] *)
Definition strip (s : string) : string := rstrip (lstrip s).

Fixpoint starts_with (p s : string) : bool :=
  match p, s with
  | EmptyString, _ => true
  | String a p', String b s' => if Ascii.eqb a b then starts_with p' s' else false
  | String _ _, EmptyString => false
  end.

(** [s.replace(old, new)] for a non-empty [old]: the occurrences are found
    left to right and do not overlap.  [skip] counts the characters of an
    occurrence that are still to be dropped. *)
Fixpoint replace_from (skip : nat) (old new s : string) : string :=
  match s with
  | EmptyString => EmptyString
  | String c r =>
      match skip with
      | S n => replace_from n old new r
      | O =>
          if starts_with old s
          then new +:+ replace_from (String.length old - 1) old new r
          else String c (replace_from 0 old new r)
      end
  end.

Definition replace (old new s : string) : string :=
  match old with
  | EmptyString => s
  | _ => replace_from 0 old new s
  end.

(** [s.split(sep)] for a one-character separator. *)
Fixpoint split_on (sep : ascii) (s : string) : list string :=
  match s with
  | EmptyString => [EmptyString]
  | String c r =>
      if Ascii.eqb c sep then EmptyString :: split_on sep r
      else match split_on sep r with
           | [] => [String c EmptyString]
           | w :: ws => String c w :: ws
           end
  end.

Definition slash : ascii := ascii_of_nat 47.

Fixpoint ends_with_slash (s : string) : bool :=
  match s with
  | EmptyString => false
  | String c EmptyString => Ascii.eqb c slash
  | String _ r => ends_with_slash r
  end.

(** [posixpath.join(a, b)] *)
Definition path_join (a b : string) : string :=
  if starts_with "/" b then b
  else if negb (truthy a) || ends_with_slash a then a +:+ b
  else a +:+ "/" +:+ b.

(** [posixpath.basename(p)]: what follows the last slash. *)
Fixpoint basename (p : string) : string :=
  match p with
  | EmptyString => EmptyString
  | String c r =>
      if existsb (Ascii.eqb slash) (chars r) then basename r
      else if Ascii.eqb c slash then r
      else p
  end.

(** The part of [p] up to and including its last slash. *)
Fixpoint head_with_slash (p : string) : string :=
  match p with
  | EmptyString => EmptyString
  | String c r =>
      if existsb (Ascii.eqb slash) (chars r) then String c (head_with_slash r)
      else if Ascii.eqb c slash then String c EmptyString
      else EmptyString
  end.

Fixpoint all_slashes (s : string) : bool :=
  match s with
  | EmptyString => true
  | String c r => Ascii.eqb c slash && all_slashes r
  end.

(** Drop the slashes at the end of [s]. *)
Fixpoint rstrip_slash (s : string) : string :=
  match s with
  | EmptyString => EmptyString
  | String c r =>
      match rstrip_slash r with
      | EmptyString => if Ascii.eqb c slash then EmptyString else String c EmptyString
      | r' => String c r'
      end
  end.

(** [posixpath.dirname(p)]: the head up to the last slash, without its
    trailing slashes unless it consists of slashes only. *)
Definition dirname (p : string) : string :=
  let head := head_with_slash p in
  if truthy head && negb (all_slashes head) then rstrip_slash head else head.

Definition has_slash (s : string) : bool := existsb (Ascii.eqb slash) (chars s).

End Py.

(* ===================================================================== *)
(** * The effect monad *)
(* ===================================================================== *)

(** An exception is represented by its message, [str(e)]. *)
Definition exn : Type := string.

(** The third component of a tuple on [UIQueue], with its tag. *)
Inductive payload : Type :=
| PROGRESS (percent : Q)
| MERGING (percent : Q)
| DONE (sha : string)
| FAILED (err : string)
| FINISHED (report_path : string).

(** [(url, tag, value)] *)
Definition event : Type := string * payload.

(** The keyword arguments of [YoutubeDL]. *)
Record ydl_opts : Type := YdlOpts {
  outtmpl : string;
  quiet : bool;
  no_warnings : bool;
  format : option string;
  merge_output_format : option string;
  ffmpeg_location : option string
}.

(** The arguments of one [executor.submit(processVideo, ...)]. *)
Record job_args : Type := JobArgs {
  j_url : string;
  j_videoDir : string;
  j_thumbDir : string;
  j_logFile : string;
  j_case : string
}.

Inductive file_mode : Type := ModeW | ModeA.

(** What a thread does to the state the threads share.  A text file is
    written one byte at a time, the finest grain at which two writers
    could interleave. *)
Inductive action : Type :=
| QueuePut (ev : event)                      (* UIQueue.put(ev) *)
| LockAcquire                                (* logLock.__enter__ *)
| LockRelease                                (* logLock.__exit__ *)
| FileTruncate (path : string)               (* the effect of open(path, "w") *)
| FileWrite (path : string) (c : ascii)      (* one byte reaches the file *)
| ShowError (title msg : string)             (* messagebox.showerror *)
| ExecutorNew (max_workers : Z)              (* ThreadPoolExecutor(max_workers=...) *)
| ExecutorSubmit (j : job_args)              (* executor.submit(processVideo, ...) *)
| ThreadStart (log_file : string).           (* Thread(target=finalize).start() *)

(** A question to a collaborator, indexed by the type of its answer.  An
    answer [inl e] is the exception the collaborator raises. *)
Inductive call : Type -> Type :=
| SysMeipass : call (option string)                 (* sys._MEIPASS, if set *)
| Abspath (p : string) : call string                (* os.path.abspath *)
| PathExists (p : string) : call bool               (* os.path.exists *)
| Which (name : string) : call (option string)      (* shutil.which *)
| YdlExtractInfo (opts : ydl_opts) (url : string)
    : call (list (gmap string string) * (exn + gmap string string))
    (* the dictionaries handed to the progress hook, in order, then the
       result of extract_info(url, download=True) *)
| YdlPrepareFilename (opts : ydl_opts) (info : gmap string string)
    : call (exn + string)
| UrlopenRead (url : string) (timeout : nat) : call (exn + list Byte.byte)
    (* with urlopen(url, timeout=timeout) as r: r.read(), nothing in between *)
| Urlopen (url : string) (timeout : nat) : call (exn + unit)
    (* urllib.request.urlopen(url, timeout=timeout): the response is open *)
| ResponseRead (url : string) : call (exn + list Byte.byte)
    (* response.read() *)
| OpenBinary (path : string) : call (exn + unit)
    (* open(path, "wb"): the file is created, or emptied if it was there *)
| WriteBytes (path : string) (data : list Byte.byte) : call (exn + unit)
    (* f.write(data) and the close of the file *)
| ReadBytes (path : string) : call (exn + list Byte.byte)
| ShutilMove (src dst : string) : call (exn + unit)
| Relpath (target start : string) : call (exn + string)
| UtcNow : call string                               (* utcStamp() *)
| OpenText (path : string) (mode : file_mode) : call (exn + unit)
| WriteText (path : string) (s : string) : call (option (nat * exn))
    (* how log.write(s) and the close of the file at the end of the [with]
       block go: [None] when all of [s] reaches the file, [Some (n, e)]
       when its first [n] bytes do (all of it, if it has no more) and [e]
       is raised, by [write] or by the close *)
| Makedirs (path : string) : call (exn + unit).

Inductive prog (A : Type) : Type :=
| Ret (a : A)
| Raise (e : exn)
| Do (a : action) (k : prog A)
| Call (X : Type) (c : call X) (k : X -> prog A).

Arguments Ret {A} a.
Arguments Raise {A} e.
Arguments Do {A} a k.
Arguments Call {A X} c k.

Fixpoint bind {A B} (p : prog A) (f : A -> prog B) : prog B :=
  match p with
  | Ret a => f a
  | Raise e => Raise e
  | Do a k => Do a (bind k f)
  | Call c k => Call c (fun x => bind (k x) f)
  end.

Notation "x <- p ;; q" := (bind p (fun x => q))
  (at level 100, p at next level, right associativity).

(** [try: p  except Exception as e: h e] *)
Fixpoint catch {A} (p : prog A) (h : exn -> prog A) : prog A :=
  match p with
  | Ret a => Ret a
  | Raise e => h e
  | Do a k => Do a (catch k h)
  | Call c k => Call c (fun x => catch (k x) h)
  end.

(** [try: p  finally: q], the exit of a [with] block. *)
Definition finally {A} (p : prog A) (q : prog unit) : prog A :=
  bind (catch (bind p (fun a => Ret (inr a))) (fun e => Ret (inl e)))
       (fun r => bind q (fun _ => match r with
                                  | inl e => Raise e
                                  | inr a => Ret a
                                  end)).

Definition act (a : action) : prog unit := Do a (Ret tt).
Definition ask {X} (c : call X) : prog X := Call c Ret.

(** A call whose answer may be an exception. *)
Definition io {X} (c : call (exn + X)) : prog X :=
  Call c (fun r => match r with inl e => Raise e | inr x => Ret x end).

(** [with logLock: body] *)
Definition with_lock {A} (body : prog A) : prog A :=
  Do LockAcquire (finally body (act LockRelease)).

(** [for x in l: f x] *)
Fixpoint for_each {X} (l : list X) (f : X -> prog unit) : prog unit :=
  match l with
  | [] => Ret tt
  | x :: r => bind (f x) (fun _ => for_each r f)
  end.

(** [log.write(s)], up to the close of the file: all of [s] reaches the
    file, or a beginning of it does and an exception is raised (the disk
    is full, say). *)
Definition write_text (path s : string) : prog unit :=
  fate <- ask (WriteText path s);;
  match fate with
  | None => for_each (Py.chars s) (fun c => act (FileWrite path c))
  | Some (n, e) =>
      _ <- for_each (take n (Py.chars s)) (fun c => act (FileWrite path c));;
      Raise e
  end.

(** [with open(path, mode, encoding="utf-8") as log: log.write(text)],
    where [text] is made once the file is open; mode ["w"] empties the
    file. *)
Definition open_and_write (path : string) (mode : file_mode) (text : prog string)
  : prog unit :=
  _ <- io (OpenText path mode);;
  _ <- match mode with ModeW => act (FileTruncate path) | ModeA => Ret tt end;;
  s <- text;;
  write_text path s.

(** ** Runs *)

(** What an observer sees of one step: an action, or a call with its
    answer. *)
Inductive obs : Type :=
| ODo (a : action)
| OCall (X : Type) (c : call X) (x : X).

Arguments OCall {X} c x.

(** [runs p tr r]: the program [p] can run to its end, seeing [tr], and
    return [inr a] or raise [inl e]. *)
Inductive runs {A} : prog A -> list obs -> exn + A -> Prop :=
| runs_ret a : runs (Ret a) [] (inr a)
| runs_raise e : runs (Raise e) [] (inl e)
| runs_do a k tr r : runs k tr r -> runs (Do a k) (ODo a :: tr) r
| runs_call X (c : call X) x k tr r :
    runs (k x) tr r -> runs (Call c k) (OCall c x :: tr) r.

(** All runs of [p] end in [Q]. *)
Fixpoint wp {A} (p : prog A) (Q : list obs -> exn + A -> Prop) : Prop :=
  match p with
  | Ret a => Q [] (inr a)
  | Raise e => Q [] (inl e)
  | Do a k => wp k (fun tr r => Q (ODo a :: tr) r)
  | Call c k => forall x, wp (k x) (fun tr r => Q (OCall c x :: tr) r)
  end.

(** The collaborators' answers, by the time of the question. *)
Definition oracle : Type := nat -> forall X, call X -> X.

(** Run [p] alone, from time [t]. *)
Fixpoint exec {A} (o : oracle) (t : nat) (p : prog A) : list obs * (exn + A) :=
  match p with
  | Ret a => ([], inr a)
  | Raise e => ([], inl e)
  | Do a k => let '(tr, r) := exec o (S t) k in (ODo a :: tr, r)
  | Call c k =>
      let x := o t _ c in
      let '(tr, r) := exec o (S t) (k x) in (OCall c x :: tr, r)
  end.

(* ===================================================================== *)
(** * The functions of [main.py] *)
(* ===================================================================== *)

(** The pure built-ins the code relies on.  [py_float] and [py_int] are
    [float(s)] and [int(s)], [None] where Python raises [ValueError];
    [sha256_hex data] is [hashlib.sha256(data).hexdigest()]; [decode] is
    [bytes.decode()]; [json_dumps case threads destination] is the text
    that [json.dump] writes, with [indent=4], for the dictionary of the
    three settings. *)
Class Builtins : Type := {
  py_float : string -> option Q;
  py_int : string -> option Z;
  sha256_hex : list Byte.byte -> string;
  decode : list Byte.byte -> option string;
  json_dumps : string -> Z -> string -> string
}.

(** Each line followed by a line feed. *)
Fixpoint unlines (l : list string) : string :=
  match l with
  | [] => EmptyString
  | s :: r => s +:+ Py.nl +:+ unlines r
  end.

Definition settingFile : string := "settings.json".

Section Source.
Context {B : Builtins}.

Definition utcStamp : prog string := ask UtcNow.

Definition getBasePath : prog string :=
  m <- ask SysMeipass;;
  match m with
  | Some p => Ret p
  | None => ask (Abspath ".")
  end.

(** Python's three results: the bundled directory, [None], [False]. *)
Inductive ffmpeg_status : Type :=
| FfBundled (dir : string)
| FfNone
| FfFalse.

Definition ffmpegPath : prog ffmpeg_status :=
  base <- getBasePath;;
  let bundled := Py.path_join base "ffmpeg" in
  found <- ask (PathExists (Py.path_join bundled "ffmpeg.exe"));;
  if (found : bool) then Ret (FfBundled bundled)
  else
    w <- ask (Which "ffmpeg");;
    match w with
    | Some p => if Py.truthy p then Ret FfNone else Ret FfFalse
    | None => Ret FfFalse
    end.

Definition saveSetting (case : string) (threads : Z) (destination : string)
  : prog unit :=
  open_and_write settingFile ModeW (Ret (json_dumps case threads destination)).

(** [f.read(chunk)] until the block is empty.  [fuel] bounds the number of
    blocks; [S (length data)] is always enough. *)
Fixpoint read_blocks (fuel chunk : nat) (data : list Byte.byte)
  : list (list Byte.byte) :=
  match fuel with
  | O => []
  | S f =>
      match take chunk data with
      | [] => []
      | block => block :: read_blocks f chunk (drop chunk data)
      end
  end.

(** [sha.update(block)] for each block: the hash object accumulates what
    it is fed, [hexdigest] hashes the accumulated bytes. *)
Definition sha256Hash_chunk (path : string) (chunk : nat) : prog string :=
  data <- io (ReadBytes path);;
  let sha := fold_left (fun fed block => fed ++ block)
                       (read_blocks (S (length data)) chunk data) [] in
  Ret (sha256_hex sha).

Definition sha256Hash (path : string) : prog string :=
  sha256Hash_chunk path (N.to_nat 8192).

(** The file is opened, and so created or emptied, before the response
    is read. *)
Definition downloadThumbnail (thumbnailUrl savePath : string) : prog bool :=
  catch
    (_ <- io (Urlopen thumbnailUrl 15);;
     _ <- io (OpenBinary savePath);;
     data <- io (ResponseRead thumbnailUrl);;
     _ <- io (WriteBytes savePath data);;
     Ret true)
    (fun _ => Ret false).

Definition ip_sources : list string :=
  ["https://api.ipify.org"; "https://checkip.amazonaws.com"].

Fixpoint checkIPaddress_loop (sources : list string) (ips : list string)
  : prog (list string) :=
  match sources with
  | [] => Ret ips
  | url :: rest =>
      ip <- catch
             (data <- io (UrlopenRead url 5);;
              match decode data with
              | Some s => Ret (Py.strip s)
              | None => Raise "UnicodeDecodeError"
              end)
             (fun _ => Ret "ERROR");;
      checkIPaddress_loop rest (ips ++ [ip])
  end.

Definition checkIPaddress : prog (list string) :=
  checkIPaddress_loop ip_sources [].

Definition html_header (case stamp ip1 ip2 ipStatus : string) : string :=
  unlines [
    "<!DOCTYPE html>";
    "<html>";
    "<head>";
    "<meta charset=" +:+ Py.dq +:+ "UTF-8" +:+ Py.dq +:+ ">";
    "<title>Case Report - " +:+ case +:+ "</title>";
    "<style>";
    "body { font-family: Arial; background:#111; color:#eee; padding:20px; }";
    "table { width:100%; border-collapse:collapse; background:#1b1b1b; }";
    "th, td { border:1px solid #333; padding:8px; vertical-align:top; }";
    "th { background:#e53935; color:white; }";
    "a { color:#ffd166; }";
    ".verified { color:#66ff99; font-weight:bold; }";
    ".failed { color:#ff5c5c; font-weight:bold; }";
    ".hash { font-family:monospace; font-size:12px; word-break:break-all; }";
    ".meta { margin-bottom:20px; padding:12px; background:#1b1b1b; border:1px solid #333; border-radius:8px; }";
    ".small { color:#bdbdbd; font-size:12px; }";
    "</style>";
    "</head>";
    "<body>";
    "<h1>Bulk YouTube Acquisition Report</h1>";
    "";
    "<div class=" +:+ Py.dq +:+ "meta" +:+ Py.dq +:+ ">";
    "<strong>Case:</strong> " +:+ case +:+ "<br>";
    "<strong>Start (UTC):</strong> " +:+ stamp +:+ "<br>";
    "<strong>Public IP by https://api.ipify.org:</strong> " +:+ ip1 +:+ "<br>";
    "<strong>Public IP by https://checkip.amazonaws.com:</strong> " +:+ ip2 +:+ "<br>";
    "<strong>IP Verification:</strong> " +:+ ipStatus;
    "</div>";
    "";
    "<table>";
    "<tr>";
    "<th>Timestamp (UTC)</th>";
    "<th>Thumbnail</th>";
    "<th>Video Title</th>";
    "<th>Source URL</th>";
    "<th>Status</th>";
    "<th>Video SHA256</th>";
    "</tr>"
  ].

Definition createHTMLlog (logPath case ip1 ip2 ipStatus : string) : prog unit :=
  open_and_write logPath ModeW
    (stamp <- utcStamp;; Ret (html_header case stamp ip1 ip2 ipStatus)).

Definition html_footer (stamp : string) : string :=
  Py.nl +:+ unlines [
    "</table>";
    "<br><br>";
    "<strong>End (UTC):</strong> " +:+ stamp;
    "</body>";
    "</html>"
  ].

Definition closeHTMLlog (logPath : string) : prog unit :=
  open_and_write logPath ModeA (stamp <- utcStamp;; Ret (html_footer stamp)).

Definition toRelHref (targetPath base_dir : string) : prog string :=
  rel <- io (Relpath targetPath base_dir);;
  Ret (Py.replace Py.backslash "/" rel).

(** The row of a fetched video. *)
Definition video_row (stamp thumbFilename video_href videoTitle finalName url
                        css_class status hash2 : string) : string :=
  let q := Py.dq in
  Py.nl +:+ unlines [
    "<tr>";
    "<td>" +:+ stamp +:+ "</td>";
    "<td><img src=" +:+ q +:+ "Thumbnails/" +:+ thumbFilename +:+ q +:+
      " width=" +:+ q +:+ "160" +:+ q +:+ "></td>";
    "<td><a href=" +:+ q +:+ video_href +:+ q +:+ " target=" +:+ q +:+ "_blank"
      +:+ q +:+ ">" +:+ videoTitle +:+ "</a><div class=" +:+ q +:+ "small" +:+ q
      +:+ ">(" +:+ finalName +:+ ")</div></td>";
    "<td><a href=" +:+ q +:+ url +:+ q +:+ " target=" +:+ q +:+ "_blank" +:+ q
      +:+ ">" +:+ url +:+ "</a></td>";
    "<td class=" +:+ q +:+ css_class +:+ q +:+ ">" +:+ status +:+ "</td>";
    "<td class=" +:+ q +:+ "hash" +:+ q +:+ ">" +:+ hash2 +:+ "</td>";
    "</tr>"
  ].

(** The row of a failed job. *)
Definition failed_row (stamp url err : string) : string :=
  let q := Py.dq in
  Py.nl +:+ unlines [
    "<tr>";
    "<td>" +:+ stamp +:+ "</td>";
    "<td>N/A</td>";
    "<td>UNKNOWN_TITLE</td>";
    "<td>" +:+ url +:+ "</td>";
    "<td class=" +:+ q +:+ "failed" +:+ q +:+ ">FAILED</td>";
    "<td>" +:+ err +:+ "</td>";
    "</tr>"
  ].

(** The progress hook of [processVideo], closed over [url]. *)
Definition hook (url : string) (d : gmap string string) : prog unit :=
  if decide (d !! "status" = Some "downloading") then
    let percent := Py.strip (Py.replace "%" "" (default "0%" (d !! "_percent_str"))) in
    let percent := match py_float percent with
                   | Some x => x
                   | None => 0%Q
                   end in
    act (QueuePut (url, PROGRESS percent))
  else if decide (d !! "status" = Some "finished") then
    act (QueuePut (url, MERGING 99%Q))
  else Ret tt.

Definition build_ydlOpts (videoDir case : string) (ffmpegStatus : ffmpeg_status)
  : ydl_opts :=
  let tmpl := Py.path_join videoDir (case +:+ "_%(title)s.%(ext)s") in
  match ffmpegStatus with
  | FfFalse =>
      {| outtmpl := tmpl; quiet := true; no_warnings := true;
         format := Some "best"; merge_output_format := None;
         ffmpeg_location := None |}
  | _ =>
      {| outtmpl := tmpl; quiet := true; no_warnings := true;
         format := Some "bestvideo+bestaudio/best";
         merge_output_format := Some "mp4";
         ffmpeg_location :=
           match ffmpegStatus with
           | FfBundled dir => if Py.truthy dir then Some dir else None
           | _ => None
           end |}
  end.

(** The body of the [try] of [processVideo]. *)
Definition processVideo_try (url videoDir thumbDir logFile case : string)
  : prog unit :=
  ffmpegStatus <- ffmpegPath;;
  let ydlOpts := build_ydlOpts videoDir case ffmpegStatus in
  answer <- ask (YdlExtractInfo ydlOpts url);;
  let '(callbacks, result) := answer in
  _ <- for_each callbacks (hook url);;
  info <- match result with inl e => Raise e | inr i => Ret i end;;
  temp_path <- io (YdlPrepareFilename ydlOpts info);;
  let videoTitle := default "UNKNOWN_TITLE" (info !! "title") in
  let videoID := default "unknownid" (info !! "id") in
  let thumbnailURL := info !! "thumbnail" in
  let thumbFilename := videoID +:+ "_thumbnail.jpg" in
  let thumbPath := Py.path_join thumbDir thumbFilename in
  _ <- match thumbnailURL with
      | Some u => if Py.truthy u
                  then _ <- downloadThumbnail u thumbPath;; Ret tt
                  else Ret tt
      | None => Ret tt
      end;;
  hash1 <- sha256Hash temp_path;;
  let finalPath := Py.path_join videoDir (Py.basename temp_path) in
  _ <- io (ShutilMove temp_path finalPath);;
  hash2 <- sha256Hash finalPath;;
  let status := if String.eqb hash1 hash2 then "VERIFIED" else "HASH_MISMATCH" in
  let css_class := if String.eqb status "VERIFIED" then "verified" else "failed" in
  let report_dir := Py.dirname logFile in
  video_href <- toRelHref finalPath report_dir;;
  _ <- with_lock
        (open_and_write logFile ModeA
           (stamp <- utcStamp;;
            Ret (video_row stamp thumbFilename video_href videoTitle
                           (Py.basename finalPath) url css_class status hash2)));;
  act (QueuePut (url, DONE hash2)).

(** The [except Exception as e] of [processVideo]. *)
Definition processVideo_except (url logFile : string) (e : exn) : prog unit :=
  _ <- with_lock
        (open_and_write logFile ModeA
           (stamp <- utcStamp;; Ret (failed_row stamp url e)));;
  act (QueuePut (url, FAILED e)).

Definition processVideo (url videoDir thumbDir logFile case : string)
  : prog unit :=
  catch (processVideo_try url videoDir thumbDir logFile case)
        (processVideo_except url logFile).

Definition run_job (j : job_args) : prog unit :=
  processVideo (j_url j) (j_videoDir j) (j_thumbDir j) (j_logFile j) (j_case j).

End Source.

(* ===================================================================== *)
(** * Concrete built-ins and collaborators, to run the code *)
(* ===================================================================== *)

Module Sample.

Definition digit_of (c : ascii) : option Z :=
  let n := nat_of_ascii c in
  if (48 <=? n) && (n <=? 57) then Some (Z.of_nat (n - 48)) else None.

(** The value of a non-empty string of decimal digits. *)
Fixpoint digits_from (acc : Z) (s : string) : option Z :=
  match s with
  | EmptyString => Some acc
  | String c r =>
      match digit_of c with
      | Some d => digits_from (10 * acc + d)%Z r
      | None => None
      end
  end.

Definition digits (s : string) : option Z :=
  match s with
  | EmptyString => None
  | _ => digits_from 0 s
  end.

(** [int(s)] on an optional sign and decimal digits, with white space
    around. *)
Definition int_of_string (s : string) : option Z :=
  match Py.strip s with
  | String "-" r => Z.opp <$> digits r
  | String "+" r => digits r
  | r => digits r
  end.

(** [float(s)] on [digits] or [digits.digits], with white space around. *)
Definition float_of_string (s : string) : option Q :=
  match Py.split_on "." (Py.strip s) with
  | [i] => (fun n => inject_Z n) <$> digits i
  | [i; f] =>
      match digits i, digits f with
      | Some n, Some m =>
          Some (inject_Z n + Qmake m (Pos.of_nat (10 ^ String.length f)))%Q
      | _, _ => None
      end
  | _ => None
  end.

Definition string_of_bytes (l : list Byte.byte) : string :=
  Py.of_chars (map ascii_of_byte l).

Definition bytes_of_string (s : string) : list Byte.byte :=
  map byte_of_ascii (Py.chars s).

(** A stand-in for SHA-256 that tells apart the contents used below: the
    content itself, tagged. *)
Definition toy_digest (data : list Byte.byte) : string :=
  "sha:" +:+ string_of_bytes data.

(** The settings as [json.dump] lays them out with [indent=4]; the values
    used below need no escaping. *)
Definition settings_text (case : string) (threads : Z) (destination : string)
  : string :=
  "{" +:+ Py.nl +:+
  "    " +:+ Py.dq +:+ "case" +:+ Py.dq +:+ ": " +:+ Py.dq +:+ case +:+ Py.dq
    +:+ "," +:+ Py.nl +:+
  "    " +:+ Py.dq +:+ "threads" +:+ Py.dq +:+ ": " +:+ pretty threads
    +:+ "," +:+ Py.nl +:+
  "    " +:+ Py.dq +:+ "destination" +:+ Py.dq +:+ ": " +:+ Py.dq
    +:+ destination +:+ Py.dq +:+ Py.nl +:+
  "}".

#[export] Instance builtins : Builtins := {|
  py_float := float_of_string;
  py_int := int_of_string;
  sha256_hex := toy_digest;
  decode := fun l => Some (string_of_bytes l);
  json_dumps := settings_text
|}.

End Sample.

(* ===================================================================== *)
(** * Traces: the main line of a job, and what a trace shows *)
(* ===================================================================== *)

(** A default answer to every question: every program has a run. *)
Definition silent : oracle := fun _ X c =>
  match c in call X return X with
  | SysMeipass => None
  | Abspath p => p
  | PathExists _ => false
  | Which _ => None
  | YdlExtractInfo _ _ => ([], inl "DownloadError")
  | YdlPrepareFilename _ _ => inl "error"
  | UrlopenRead _ _ => inl "URLError"
  | Urlopen _ _ => inl "URLError"
  | ResponseRead _ => inl "URLError"
  | OpenBinary _ => inl "OSError"
  | WriteBytes _ _ => inl "OSError"
  | ReadBytes _ => inl "OSError"
  | ShutilMove _ _ => inl "OSError"
  | Relpath _ _ => inl "ValueError"
  | UtcNow => EmptyString
  | OpenText _ _ => inl "OSError"
  | WriteText _ _ => None
  | Makedirs _ => inl "OSError"
  end.

(** Some observations never decide how a job ends: the probes of
    [ffmpegPath], the thumbnail download, the progress events.  What
    remains of a trace without them is its main line. *)
Definition is_side (o : obs) : bool :=
  match o with
  | ODo (QueuePut (_, PROGRESS _)) => true
  | ODo (QueuePut (_, MERGING _)) => true
  | ODo _ => false
  | OCall c _ =>
      match c with
      | SysMeipass | Abspath _ | PathExists _ | Which _
      | UrlopenRead _ _ | Urlopen _ _ | ResponseRead _ | OpenBinary _
      | WriteBytes _ _ => true
      | _ => false
      end
  end.

Definition main_line (tr : list obs) : list obs :=
  List.filter (fun o => negb (is_side o)) tr.

Definition wpm {A} (p : prog A) (Q : list obs -> exn + A -> Prop) : Prop :=
  wp p (fun tr r => Q (main_line tr) r).

(** A program is on the side when its runs leave nothing on the main line
    and never raise. *)
Definition side_prog {A} (p : prog A) : Prop :=
  wpm p (fun l r => l = [] /\ exists a, r = inr a).

Definition failed_open (lf : string) (e : exn) : list obs :=
  [ODo LockAcquire; OCall (OpenText lf ModeA) (inl e); ODo LockRelease].

Definition row_writes (lf row : string) : list obs :=
  map (fun c => ODo (FileWrite lf c)) (Py.chars row).

(** The first [n] bytes of [s]. *)
Definition cut (n : nat) (s : string) : string :=
  Py.of_chars (take n (Py.chars s)).

(** A row appended under the lock. *)
Definition locked_append (lf stamp row : string) : list obs :=
  [ODo LockAcquire; OCall (OpenText lf ModeA) (inr tt); OCall UtcNow stamp;
   OCall (WriteText lf row) None]
  ++ row_writes lf row ++ [ODo LockRelease].

(** A row whose write fails with [e] after [n] bytes. *)
Definition cut_append (lf stamp row : string) (n : nat) (e : exn) : list obs :=
  [ODo LockAcquire; OCall (OpenText lf ModeA) (inr tt); OCall UtcNow stamp;
   OCall (WriteText lf row) (Some (n, e))]
  ++ row_writes lf (cut n row) ++ [ODo LockRelease].

(** A straight run of actions, then [k]. *)
Definition dos {A} (l : list action) (k : prog A) : prog A := fold_right Do k l.

(** The grammar of the main line. *)
Definition stage {X} (c : call (exn + X))
    (next : X -> list obs -> exn + unit -> Prop)
    (l : list obs) (r : exn + unit) : Prop :=
  (exists e, l = [OCall c (inl e)] /\ r = inl e)
  \/ (exists x l', l = OCall c (inr x) :: l' /\ next x l' r).

Definition append_line (lf : string) (row : string -> string) (ev : event)
    (l : list obs) (r : exn + unit) : Prop :=
  (exists e, l = failed_open lf e /\ r = inl e)
  \/ (exists stamp n e, l = cut_append lf stamp (row stamp) n e /\ r = inl e)
  \/ (exists stamp,
        l = locked_append lf stamp (row stamp) ++ [ODo (QueuePut ev)]
        /\ r = inr tt).

Definition verified_status (hash1 hash2 : string) : string :=
  if String.eqb hash1 hash2 then "VERIFIED" else "HASH_MISMATCH".

Definition css_of (status : string) : string :=
  if String.eqb status "VERIFIED" then "verified" else "failed".

Section Grammar.
Context {B : Builtins}.


Definition try_line (url videoDir thumbDir logFile case : string)
    (l : list obs) (r : exn + unit) : Prop :=
  exists st callbacks result l',
    let opts := build_ydlOpts videoDir case st in
    l = OCall (YdlExtractInfo opts url) (callbacks, result) :: l' /\
    match result with
    | inl e => l' = [] /\ r = inl e
    | inr info =>
        stage (YdlPrepareFilename opts info) (fun temp_path =>
        stage (ReadBytes temp_path) (fun data1 =>
        let finalPath := Py.path_join videoDir (Py.basename temp_path) in
        stage (ShutilMove temp_path finalPath) (fun _ =>
        stage (ReadBytes finalPath) (fun data2 =>
        stage (Relpath finalPath (Py.dirname logFile)) (fun rel =>
        let hash1 := sha256_hex data1 in
        let hash2 := sha256_hex data2 in
        let status := verified_status hash1 hash2 in
        append_line logFile
          (fun stamp =>
             video_row stamp
               (default "unknownid" (info !! "id") +:+ "_thumbnail.jpg")
               (Py.replace Py.backslash "/" rel)
               (default "UNKNOWN_TITLE" (info !! "title"))
               (Py.basename finalPath) url (css_of status) status hash2)
          (url, DONE hash2)))))) l' r
    end.

Definition job_line (url videoDir thumbDir logFile case : string)
    (l : list obs) (r : exn + unit) : Prop :=
  exists l1 r1,
    try_line url videoDir thumbDir logFile case l1 r1 /\
    match r1 with
    | inr _ => l = l1 /\ r = inr tt
    | inl e =>
        exists l2,
          append_line logFile (fun stamp => failed_row stamp url e)
                      (url, FAILED e) l2 r
          /\ l = l1 ++ l2
    end.

End Grammar.

(** The terminal events put on the queue. *)
Definition terminal_of (o : obs) : list event :=
  match o with
  | ODo (QueuePut (u, DONE h)) => [(u, DONE h)]
  | ODo (QueuePut (u, FAILED e)) => [(u, FAILED e)]
  | _ => []
  end.

Definition terminals (tr : list obs) : list event := flat_map terminal_of tr.

(** The characters written to [path]. *)
Definition written_of (path : string) (o : obs) : list ascii :=
  match o with
  | ODo (FileWrite p c) => if String.eqb p path then [c] else []
  | _ => []
  end.

Definition report_text (path : string) (tr : list obs) : string :=
  Py.of_chars (flat_map (written_of path) tr).

(** The files opened for hashing, with what was read. *)
Definition read_of (o : obs) : list (string * (exn + list Byte.byte)) :=
  match o with
  | OCall c x =>
      match c in call X return X -> list (string * (exn + list Byte.byte)) with
      | ReadBytes p => fun ans => [(p, ans)]
      | _ => fun _ => []
      end x
  | _ => []
  end.

Definition reads (tr : list obs) := flat_map read_of tr.

Section Digests.
Context {B : Builtins}.

(** The digests computed, in order. *)
Definition digests (tr : list obs) : list string :=
  flat_map (fun pa => match pa.2 with
                      | inr data => [sha256_hex data]
                      | inl _ => []
                      end) (reads tr).

End Digests.

(** The [shutil.move] calls: source and destination. *)
Definition move_of (o : obs) : list (string * string) :=
  match o with
  | OCall c x =>
      match c with
      | ShutilMove src dst => [(src, dst)]
      | _ => []
      end
  | _ => []
  end.

Definition moves (tr : list obs) := flat_map move_of tr.

(** The answers of [prepare_filename]. *)
Definition prepared_of (o : obs) : list (exn + string) :=
  match o with
  | OCall c x =>
      match c in call X return X -> list (exn + string) with
      | YdlPrepareFilename _ _ => fun ans => [ans]
      | _ => fun _ => []
      end x
  | _ => []
  end.

Definition prepared (tr : list obs) := flat_map prepared_of tr.

(** What [extract_info] returned. *)
Definition extracted_of (o : obs) : list (exn + gmap string string) :=
  match o with
  | OCall c x =>
      match c in call X return X -> list (exn + gmap string string) with
      | YdlExtractInfo _ _ => fun ans => [ans.2]
      | _ => fun _ => []
      end x
  | _ => []
  end.

Definition extracted (tr : list obs) := flat_map extracted_of tr.

(** The answers of [os.path.relpath]. *)
Definition relpath_of (o : obs) : list (exn + string) :=
  match o with
  | OCall c x =>
      match c in call X return X -> list (exn + string) with
      | Relpath _ _ => fun ans => [ans]
      | _ => fun _ => []
      end x
  | _ => []
  end.

Definition relpaths (tr : list obs) := flat_map relpath_of tr.

(** The times read by [utcStamp]. *)
Definition stamp_of (o : obs) : list string :=
  match o with
  | OCall c x =>
      match c in call X return X -> list string with
      | UtcNow => fun ans => [ans]
      | _ => fun _ => []
      end x
  | _ => []
  end.

Definition stamps (tr : list obs) := flat_map stamp_of tr.

(** The text files opened, with the answer. *)
Definition open_of (o : obs) : list (string * file_mode * (exn + unit)) :=
  match o with
  | OCall c x =>
      match c in call X return X -> list (string * file_mode * (exn + unit)) with
      | OpenText p m => fun ans => [(p, m, ans)]
      | _ => fun _ => []
      end x
  | _ => []
  end.

Definition opens (tr : list obs) := flat_map open_of tr.

(** The exceptions raised by the steps of the primary artifact and of the
    report: the engine, the two hashing reads, the move, [relpath], the
    opening of the report and the writing of the row.  The thumbnail's
    calls are not among them. *)
Definition primary_failure_of (o : obs) : list exn :=
  match o with
  | OCall c x =>
      match c in call X return X -> list exn with
      | YdlExtractInfo _ _ => fun ans => match ans.2 with inl e => [e] | _ => [] end
      | YdlPrepareFilename _ _ => fun ans => match ans with inl e => [e] | _ => [] end
      | ReadBytes _ => fun ans => match ans with inl e => [e] | _ => [] end
      | ShutilMove _ _ => fun ans => match ans with inl e => [e] | _ => [] end
      | Relpath _ _ => fun ans => match ans with inl e => [e] | _ => [] end
      | OpenText _ _ => fun ans => match ans with inl e => [e] | _ => [] end
      | WriteText _ _ => fun ans => match ans with Some (_, e) => [e] | None => [] end
      | _ => fun _ => []
      end x
  | _ => []
  end.

Definition primary_failures (tr : list obs) := flat_map primary_failure_of tr.

(** The writes of text that failed, with the number of bytes that reached
    the file. *)
Definition write_failure_of (o : obs) : list (string * nat * exn) :=
  match o with
  | OCall c x =>
      match c in call X return X -> list (string * nat * exn) with
      | WriteText p _ => fun ans => match ans with
                                    | Some (n, e) => [(p, n, e)]
                                    | None => []
                                    end
      | _ => fun _ => []
      end x
  | _ => []
  end.

Definition write_failures (tr : list obs) := flat_map write_failure_of tr.

Definition reflects_mismatch (ev : event) : Prop :=
  match ev.2 with
  | DONE _ => False
  | _ => True
  end.

(* ===================================================================== *)
(** * The application: [App.startCase], [finalize], [App.updatingUI] *)
(* ===================================================================== *)

(** The second column of a row of the tree: a text, or a percentage shown
    with one decimal. *)
Inductive tree_info : Type :=
| InfoText (s : string)
| InfoPercent (pct : Q).

(** The fields of [App] that the pipeline reads and writes.  The four
    entries hold what the operator typed; [tree] maps an item id to its
    two columns, in display order; [futures] are the jobs submitted. *)
Record App : Type := MkApp {
  caseEntry : string;
  threadPicker : string;
  urlText : string;
  destinationEntry : string;
  tree : list (string * (string * tree_info));
  statusBadge : string;
  countLabel : string;
  globalProgress : Q;
  total_items : nat;
  done_items : nat;
  failed_items : nat;
  futures : list job_args;
  dialogs : list (string * string)
}.

Definition set_tree (t : list (string * (string * tree_info))) (a : App) : App :=
  MkApp (caseEntry a) (threadPicker a) (urlText a) (destinationEntry a) t
        (statusBadge a) (countLabel a) (globalProgress a) (total_items a)
        (done_items a) (failed_items a) (futures a) (dialogs a).

Definition set_statusBadge (s : string) (a : App) : App :=
  MkApp (caseEntry a) (threadPicker a) (urlText a) (destinationEntry a) (tree a)
        s (countLabel a) (globalProgress a) (total_items a)
        (done_items a) (failed_items a) (futures a) (dialogs a).

Definition set_countLabel (s : string) (a : App) : App :=
  MkApp (caseEntry a) (threadPicker a) (urlText a) (destinationEntry a) (tree a)
        (statusBadge a) s (globalProgress a) (total_items a)
        (done_items a) (failed_items a) (futures a) (dialogs a).

Definition set_globalProgress (v : Q) (a : App) : App :=
  MkApp (caseEntry a) (threadPicker a) (urlText a) (destinationEntry a) (tree a)
        (statusBadge a) (countLabel a) v (total_items a)
        (done_items a) (failed_items a) (futures a) (dialogs a).

Definition set_counters (total done failed : nat) (a : App) : App :=
  MkApp (caseEntry a) (threadPicker a) (urlText a) (destinationEntry a) (tree a)
        (statusBadge a) (countLabel a) (globalProgress a) total done failed
        (futures a) (dialogs a).

Definition set_futures (f : list job_args) (a : App) : App :=
  MkApp (caseEntry a) (threadPicker a) (urlText a) (destinationEntry a) (tree a)
        (statusBadge a) (countLabel a) (globalProgress a) (total_items a)
        (done_items a) (failed_items a) f (dialogs a).

Definition add_dialog (title msg : string) (a : App) : App :=
  MkApp (caseEntry a) (threadPicker a) (urlText a) (destinationEntry a) (tree a)
        (statusBadge a) (countLabel a) (globalProgress a) (total_items a)
        (done_items a) (failed_items a) (futures a) (dialogs a ++ [(title, msg)]).

(** [tree.insert("", "end", iid=iid, values=values)]: Tk refuses an item
    id that is already in the tree. *)
Definition tree_insert (iid : string) (values : string * tree_info)
    (t : list (string * (string * tree_info)))
  : exn + list (string * (string * tree_info)) :=
  if existsb (String.eqb iid) (map fst t)
  then inl ("Item " +:+ iid +:+ " already exists")
  else inr (t ++ [(iid, values)]).

(** [tree.item(iid, values=values)]: Tk refuses an item id that is not in
    the tree. *)
Definition tree_item (iid : string) (values : string * tree_info)
    (t : list (string * (string * tree_info)))
  : exn + list (string * (string * tree_info)) :=
  if existsb (String.eqb iid) (map fst t)
  then inr (map (fun row => if String.eqb (fst row) iid then (iid, values) else row) t)
  else inl ("Item " +:+ iid +:+ " not found").

Definition updateCounts (self : App) : App :=
  let queued := total_items self - (done_items self + failed_items self) in
  let self := set_countLabel
                ("Queued: " +:+ pretty queued +:+ "   Done: " +:+
                 pretty (done_items self) +:+ "   Failed: " +:+
                 pretty (failed_items self)) self in
  if 0 <? total_items self
  then set_globalProgress
         ((inject_Z (Z.of_nat (done_items self + failed_items self))
           / inject_Z (Z.of_nat (total_items self))) * 100)%Q self
  else self.

Section Application.
Context {B : Builtins}.

(** [for url in urls:] insert the row, submit the job, keep the future.
    The result carries the state of [self] also when Tk raises. *)
Fixpoint submit_all (self : App) (video_dir thumb_dir log_file case : string)
    (urls : list string) : prog (App * option exn) :=
  match urls with
  | [] => Ret (self, None)
  | url :: rest =>
      match tree_insert url ("Queued", InfoText "0%") (tree self) with
      | inl e => Ret (self, Some e)
      | inr t =>
          let self := set_tree t self in
          let j := JobArgs url video_dir thumb_dir log_file case in
          _ <- act (ExecutorSubmit j);;
          let self := set_futures (futures self ++ [j]) self in
          submit_all self video_dir thumb_dir log_file case rest
      end
  end.

(** [[u.strip() for u in urlText.split("\n") if u.strip()]] *)
Definition entered_urls (self : App) : list string :=
  List.filter Py.truthy
    (map Py.strip (Py.split_on (ascii_of_nat 10) (urlText self))).

(** [try: threads = max(1, min(32, int(...)))  except Exception: threads = 4] *)
Definition entered_threads (self : App) : Z :=
  match py_int (threadPicker self) with
  | Some n => Z.max 1 (Z.min 32 n)
  | None => 4%Z
  end.

(** What [startCase] does once the three entries have passed its checks. *)
Definition startCase_accepted (self : App) (case : string) (threads : Z)
    (urls : list string) (destination_root : string)
  : prog (App * option exn) :=
  _ <- saveSetting case threads destination_root;;
  let base := Py.path_join destination_root case in
  let video_dir := Py.path_join base "Videos" in
  let thumb_dir := Py.path_join base "Thumbnails" in
  _ <- io (Makedirs video_dir);;
  _ <- io (Makedirs thumb_dir);;
  let log_file := Py.path_join base (case +:+ "_report.html") in
  ips <- checkIPaddress;;
  match ips with
  | [ip1; ip2] =>
    let ip_status := if String.eqb ip1 ip2 && negb (String.eqb ip1 "ERROR")
                     then "VERIFIED" else "MISMATCH" in
    _ <- createHTMLlog log_file case ip1 ip2 ip_status;;
    let self := set_counters (length urls) 0 0 self in
    let self := updateCounts self in
    let self := set_globalProgress 0 self in
    let self := set_statusBadge "RUNNING" self in
    let self := set_tree [] self in
    let self := set_futures [] self in
    _ <- (if (threads <=? 0)%Z
          then Raise "max_workers must be greater than 0"
          else act (ExecutorNew threads));;
    result <- submit_all self video_dir thumb_dir log_file case urls;;
    match result with
    | (self, Some e) => Ret (self, Some e)
    | (self, None) =>
        _ <- act (ThreadStart log_file);;
        Ret (self, None)
    end
  | _ => Raise "ValueError: not enough values to unpack"
  end.

(** [App.startCase].  It returns the state of [self] and, when Tk raised
    while the rows were inserted, the exception; an exception raised
    earlier, before [self] is touched, is a [Raise]. *)
Definition startCase (self : App) : prog (App * option exn) :=
  let case := Py.strip (caseEntry self) in
  if negb (Py.truthy case) then
    _ <- act (ShowError "Error" "Case Number is required.");;
    Ret (self, None)
  else
  let threads := entered_threads self in
  let urls := entered_urls self in
  if negb (match urls with [] => false | _ => true end) then
    _ <- act (ShowError "Error" "No URLs entered.");;
    Ret (self, None)
  else
  let destination_root := Py.strip (destinationEntry self) in
  if negb (Py.truthy destination_root) then
    _ <- act (ShowError "Error" "Destination folder is required.");;
    Ret (self, None)
  else startCase_accepted self case threads urls destination_root.

(** The body of the thread that [startCase] starts, once every future of
    [self.futures] is done. *)
Definition finalize (log_file : string) : prog unit :=
  _ <- closeHTMLlog log_file;;
  act (QueuePut ("__SYSTEM__", FINISHED log_file)).

(** One turn of the loop of [updatingUI], on the tuple taken from the
    queue.  The state is returned also when Tk raises. *)
Definition handle_event (self : App) (data : event) : App * option exn :=
  let '(url, value) := data in
  let update (self : App) (values : string * tree_info) (counts : bool) :=
    match tree_item url values (tree self) with
    | inl e => (self, Some e)
    | inr t =>
        let self := set_tree t self in
        (if counts then updateCounts self else self, None)
    end in
  match value with
  | FINISHED report_path =>
      if String.eqb url "__SYSTEM__" then
        let self := set_statusBadge "DONE" self in
        let self := updateCounts self in
        (add_dialog "Case Complete"
           ("Finished! Report saved:" +:+ Py.nl +:+ report_path) self, None)
      else (self, None)
  | PROGRESS pct => update self ("DOWNLOADING", InfoPercent pct) false
  | MERGING pct => update self ("MERGING", InfoPercent pct) false
  | DONE sha =>
      let self := set_counters (total_items self) (done_items self + 1)
                               (failed_items self) self in
      update self ("VERIFIED", InfoText sha) true
  | FAILED err =>
      let self := set_counters (total_items self) (done_items self)
                               (failed_items self + 1) self in
      update self ("FAILED", InfoText err) true
  end.

(** [App.updatingUI]: take tuples from the queue until it is empty.  The
    result is the state, what is left on the queue, and the exception that
    ended the loop, if one did. *)
Fixpoint updatingUI (self : App) (queue : list event)
  : App * list event * option exn :=
  match queue with
  | [] => (self, [], None)
  | data :: rest =>
      match handle_event self data with
      | (self, Some e) => (self, rest, Some e)
      | (self, None) => updatingUI self rest
      end
  end.

End Application.

(* ===================================================================== *)
(** * The worker pool *)
(* ===================================================================== *)

(** The state the threads share: the event queue, the holder of [logLock],
    the text files. *)
Record world : Type := World {
  w_queue : list event;
  w_lock : option nat;
  w_files : gmap string string
}.

Definition file_text (path : string) (w : world) : string :=
  default EmptyString (w_files w !! path).

(** The effect of an action of thread [tid], or [None] when the thread
    cannot take it now: [acquire] blocks while the lock is held, and
    [release] of a free lock is refused. *)
Definition apply_action (tid : nat) (a : action) (w : world) : option world :=
  match a with
  | QueuePut ev => Some (World (w_queue w ++ [ev]) (w_lock w) (w_files w))
  | LockAcquire =>
      match w_lock w with
      | None => Some (World (w_queue w) (Some tid) (w_files w))
      | Some _ => None
      end
  | LockRelease =>
      match w_lock w with
      | None => None
      | Some _ => Some (World (w_queue w) None (w_files w))
      end
  | FileTruncate path =>
      Some (World (w_queue w) (w_lock w) (<[path := EmptyString]> (w_files w)))
  | FileWrite path c =>
      Some (World (w_queue w) (w_lock w)
                  (<[path := file_text path w +:+ String c EmptyString]> (w_files w)))
  | ShowError _ _ | ExecutorNew _ | ExecutorSubmit _ | ThreadStart _ => Some w
  end.

(** The effect of a whole trace of one thread that nothing interleaves
    with; an action that cannot be taken is skipped. *)
Fixpoint apply_trace (tid : nat) (tr : list obs) (w : world) : world :=
  match tr with
  | [] => w
  | ODo a :: rest =>
      apply_trace tid rest (default w (apply_action tid a w))
  | OCall _ _ :: rest => apply_trace tid rest w
  end.

(** A job in the pool: what is left of its program, and what it has done. *)
Record thread : Type := Thread {
  th_prog : prog unit;
  th_trace : list obs
}.

Definition finished (th : thread) : bool :=
  match th_prog th with
  | Ret _ | Raise _ => true
  | _ => false
  end.

Definition started (th : thread) : bool :=
  match th_trace th with
  | [] => false
  | _ => true
  end.

Definition running (th : thread) : bool := started th && negb (finished th).

Record pool : Type := Pool {
  threads : list thread;
  shared : world;
  clock : nat;
  max_workers : Z
}.

(** A worker takes the next job of the queue only when fewer than
    [max_workers] jobs are running and every job submitted earlier has been
    taken. *)
Definition may_start (i : nat) (p : pool) : bool :=
  (Z.of_nat (length (List.filter running (threads p))) <? max_workers p)%Z
  && forallb started (take i (threads p)).

Definition set_thread (i : nat) (th : thread) (w : world) (p : pool) : pool :=
  Pool (<[i := th]> (threads p)) w (S (clock p)) (max_workers p).

(** One step of job [i], if it can take one. *)
Definition step (o : oracle) (i : nat) (p : pool) : option pool :=
  match threads p !! i with
  | None => None
  | Some th =>
      if started th || may_start i p then
        match th_prog th with
        | Ret _ | Raise _ => None
        | Do a k =>
            match apply_action i a (shared p) with
            | None => None
            | Some w => Some (set_thread i (Thread k (th_trace th ++ [ODo a])) w p)
            end
        | Call c k =>
            let x := o (clock p) _ c in
            Some (set_thread i (Thread (k x) (th_trace th ++ [OCall c x]))
                             (shared p) p)
        end
      else None
  end.

(** The pool under a schedule: at each turn the named job steps if it
    can, and nothing happens otherwise. *)
Fixpoint run_pool (o : oracle) (sched : list nat) (p : pool) : pool :=
  match sched with
  | [] => p
  | i :: rest => run_pool o rest (default p (step o i p))
  end.

Definition all_finished (p : pool) : bool := forallb finished (threads p).

(** ** A whole run *)

(** What [startCase] asked of the executor. *)
Definition submitted_of (o : obs) : list job_args :=
  match o with
  | ODo (ExecutorSubmit j) => [j]
  | _ => []
  end.

Definition submitted (tr : list obs) : list job_args := flat_map submitted_of tr.

Definition executor_of (o : obs) : list Z :=
  match o with
  | ODo (ExecutorNew n) => [n]
  | _ => []
  end.

Definition executors (tr : list obs) : list Z := flat_map executor_of tr.

Definition thread_start_of (o : obs) : list string :=
  match o with
  | ODo (ThreadStart log_file) => [log_file]
  | _ => []
  end.

Definition thread_starts (tr : list obs) : list string :=
  flat_map thread_start_of tr.

Definition empty_world : world := World [] None ∅.

(** The main thread never touches the lock; its thread id is never
    looked at. *)
Definition main_tid : nat := 0.

Section Run.
Context {B : Builtins}.

Definition new_pool (jobs : list job_args) (w : world) (t : nat) (workers : Z)
  : pool :=
  Pool (map (fun j => Thread (run_job j) []) jobs) w t workers.

(** The state of a run: [startCase] from an empty world, the pool under
    the schedule, then [finalize] if its thread was started and every job
    is done. *)
Record run_state : Type := RunState {
  rs_start : list obs * (exn + (App * option exn));
  rs_pool : pool;
  rs_finalize : option (list obs * (exn + unit));
  rs_world : world
}.

Definition run_case (o : oracle) (sched : list nat) (self : App) : run_state :=
  let start := exec o 0 (startCase self) in
  let w0 := apply_trace main_tid start.1 empty_world in
  let workers := match executors start.1 with
                 | n :: _ => n
                 | [] => 0%Z
                 end in
  let p := run_pool o sched
             (new_pool (submitted start.1) w0 (length start.1) workers) in
  match thread_starts start.1 with
  | log_file :: _ =>
      if all_finished p then
        let fin := exec o (clock p) (finalize log_file) in
        RunState start p (Some fin) (apply_trace main_tid fin.1 (shared p))
      else RunState start p None (shared p)
  | [] => RunState start p None (shared p)
  end.

(** The application after the run, once the interface has drained the
    queue. *)
Definition drained (self : App) (rs : run_state) : App * list event * option exn :=
  match rs_start rs with
  | (_, inr (self', _)) => updatingUI self' (w_queue (rs_world rs))
  | (_, inl _) => updatingUI self (w_queue (rs_world rs))
  end.

End Run.

(* ===================================================================== *)
(** * The legacy script (version 1.2.1) *)
(* ===================================================================== *)

(** [processVideo] of the legacy script, where it differs from [main.py]:
    the hook reads [d["status"]] and knows no "finished"; no format
    options are passed to the engine; the thumbnail is hashed when its
    download succeeded; the rows have a seventh cell with that hash;
    [downloadThumbnail] reads the response before it opens the file.
    [sha256Hash] and [checkIPaddress] are the same in both scripts. *)
Module Legacy.
Section Source.
Context {B : Builtins}.

Definition downloadThumbnail (thumbnail_url save_path : string) : prog bool :=
  catch
    (_ <- io (Urlopen thumbnail_url 15);;
     data <- io (ResponseRead thumbnail_url);;
     _ <- io (OpenBinary save_path);;
     _ <- io (WriteBytes save_path data);;
     Ret true)
    (fun _ => Ret false).

Definition hook (url : string) (d : gmap string string) : prog unit :=
  match d !! "status" with
  | None => Raise "'status'"
  | Some status =>
      if String.eqb status "downloading" then
        let percent :=
          Py.strip (Py.replace "%" "" (default "0%" (d !! "_percent_str"))) in
        let percent := match py_float percent with
                       | Some x => x
                       | None => 0%Q
                       end in
        act (QueuePut (url, PROGRESS percent))
      else Ret tt
  end.

Definition video_row (stamp thumbFilename videoTitle url css_class status hash2
                        thumbnailHash : string) : string :=
  let q := Py.dq in
  Py.nl +:+ unlines [
    "<tr>";
    "<td>" +:+ stamp +:+ "</td>";
    "<td><img src=" +:+ q +:+ "Thumbnails/" +:+ thumbFilename +:+ q +:+
      " width=" +:+ q +:+ "160" +:+ q +:+ "></td>";
    "<td>" +:+ videoTitle +:+ "</td>";
    "<td><a href=" +:+ q +:+ url +:+ q +:+ " target=" +:+ q +:+ "_blank" +:+ q
      +:+ ">" +:+ url +:+ "</a></td>";
    "<td class=" +:+ q +:+ css_class +:+ q +:+ ">" +:+ status +:+ "</td>";
    "<td class=" +:+ q +:+ "hash" +:+ q +:+ ">" +:+ hash2 +:+ "</td>";
    "<td class=" +:+ q +:+ "hash" +:+ q +:+ ">" +:+ thumbnailHash +:+ "</td>";
    "</tr>"
  ].

Definition failed_row (stamp url err : string) : string :=
  let q := Py.dq in
  Py.nl +:+ unlines [
    "<tr>";
    "<td>" +:+ stamp +:+ "</td>";
    "<td>N/A</td>";
    "<td>UNKNOWN_TITLE</td>";
    "<td>" +:+ url +:+ "</td>";
    "<td class=" +:+ q +:+ "failed" +:+ q +:+ ">FAILED</td>";
    "<td>" +:+ err +:+ "</td>";
    "<td>N/A</td>";
    "</tr>"
  ].

Definition processVideo_try (url videoDir thumbDir logFile case : string)
  : prog unit :=
  let ydl_opts :=
    {| outtmpl := Py.path_join videoDir (case +:+ "_%(title)s.%(ext)s");
       quiet := true; no_warnings := true;
       format := None; merge_output_format := None; ffmpeg_location := None |} in
  answer <- ask (YdlExtractInfo ydl_opts url);;
  let '(callbacks, result) := answer in
  _ <- for_each callbacks (hook url);;
  info <- match result with inl e => Raise e | inr i => Ret i end;;
  temp_path <- io (YdlPrepareFilename ydl_opts info);;
  let videoTitle := default "UNKNOWN_TITLE" (info !! "title") in
  let videoID := default "unknownid" (info !! "id") in
  let thumbnailURL := info !! "thumbnail" in
  let thumbFilename := videoID +:+ "_thumbnail.jpg" in
  let thumbPath := Py.path_join thumbDir thumbFilename in
  thumbnailHash <-
    match thumbnailURL with
    | Some u =>
        if Py.truthy u then
          ok <- downloadThumbnail u thumbPath;;
          if (ok : bool) then sha256Hash thumbPath else Ret "N/A"
        else Ret "N/A"
    | None => Ret "N/A"
    end;;
  hash1 <- sha256Hash temp_path;;
  let finalPath := Py.path_join videoDir (Py.basename temp_path) in
  _ <- io (ShutilMove temp_path finalPath);;
  hash2 <- sha256Hash finalPath;;
  let status := if String.eqb hash1 hash2 then "VERIFIED" else "HASH_MISMATCH" in
  let css_class := if String.eqb status "VERIFIED" then "verified" else "failed" in
  _ <- with_lock
        (open_and_write logFile ModeA
           (stamp <- ask UtcNow;;
            Ret (video_row stamp thumbFilename videoTitle url css_class status
                           hash2 thumbnailHash)));;
  act (QueuePut (url, DONE hash2)).

Definition processVideo_except (url logFile : string) (e : exn) : prog unit :=
  _ <- with_lock
        (open_and_write logFile ModeA
           (stamp <- ask UtcNow;; Ret (failed_row stamp url e)));;
  act (QueuePut (url, FAILED e)).

Definition processVideo (url videoDir thumbDir logFile case : string)
  : prog unit :=
  catch (processVideo_try url videoDir thumbDir logFile case)
        (processVideo_except url logFile).

(** The header and the footer of the legacy report; the time is
    [datetime.datetime.utcnow().isoformat()]. *)
Definition html_header (case stamp ip1 ip2 ip_status : string) : string :=
  unlines [
    "<!DOCTYPE html>";
    "<html>";
    "<head>";
    "<meta charset=" +:+ Py.dq +:+ "UTF-8" +:+ Py.dq +:+ ">";
    "<title>Case Report - " +:+ case +:+ "</title>";
    "<style>";
    "body { font-family: Arial; background:#f4f4f4; padding:20px; }";
    "h1 { color:#333; }";
    "table { width:100%; border-collapse:collapse; background:white; }";
    "th, td { border:1px solid #ccc; padding:8px; text-align:left; }";
    "th { background:#222; color:white; }";
    ".verified { color:green; font-weight:bold; }";
    ".failed { color:red; font-weight:bold; }";
    ".hash { font-family:monospace; font-size:12px; }";
    ".meta { margin-bottom:20px; padding:10px; background:white; border:1px solid #ccc; }";
    "</style>";
    "</head>";
    "<body>";
    "<h1>Bulk YouTube Acquisition Report</h1>";
    "";
    "<div class=" +:+ Py.dq +:+ "meta" +:+ Py.dq +:+ ">";
    "<strong>Case:</strong> " +:+ case +:+ "<br>";
    "<strong>Start UTC:</strong> " +:+ stamp +:+ "<br>";
    "<strong>Public IP 1 by https://api.ipify.org:</strong> " +:+ ip1 +:+ "<br>";
    "<strong>Public IP 2 by https://checkip.amazonaws.com:</strong> " +:+ ip2 +:+ "<br>";
    "<strong>IP Verification:</strong> " +:+ ip_status;
    "</div>";
    "";
    "<table>";
    "<tr>";
    "<th>Timestamp (UTC)</th>";
    "<th>Thumbnail</th>";
    "<th>Video Title</th>";
    "<th>Source URL</th>";
    "<th>Status</th>";
    "<th>Video SHA256</th>";
    "</tr>"
  ].

Definition createHTMLlog (log_path case ip1 ip2 ip_status : string) : prog unit :=
  open_and_write log_path ModeW
    (stamp <- ask UtcNow;; Ret (html_header case stamp ip1 ip2 ip_status)).

Definition html_footer (stamp : string) : string :=
  Py.nl +:+ unlines [
    "</table>";
    "<br><br>";
    "<strong>End UTC:</strong> " +:+ stamp;
    "</body>";
    "</html>"
  ].

Definition closeHTMLlog (log_path : string) : prog unit :=
  open_and_write log_path ModeA (stamp <- ask UtcNow;; Ret (html_footer stamp)).

(** [App.startCase] of the legacy script: [int(...)] is not guarded and
    its result is not clamped, only the list of URLs is checked, and the
    tree and [self.futures] are not reset.  As in [main.py], the result
    carries the exception of Tk when a row could not be inserted. *)
Definition startCase (self : App) : prog (App * option exn) :=
  let case := Py.strip (caseEntry self) in
  match py_int (threadPicker self) with
  | None =>
      Raise ("invalid literal for int() with base 10: '"
             +:+ threadPicker self +:+ "'")
  | Some threads =>
      let urls := entered_urls self in
      if negb (match urls with [] => false | _ => true end) then
        _ <- act (ShowError "Error" "No URLs entered.");;
        Ret (self, None)
      else
      let destination_root := Py.strip (destinationEntry self) in
      _ <- saveSetting case threads destination_root;;
      let base := Py.path_join destination_root case in
      let video_dir := Py.path_join base "Videos" in
      let thumb_dir := Py.path_join base "Thumbnails" in
      _ <- io (Makedirs video_dir);;
      _ <- io (Makedirs thumb_dir);;
      let log_file := Py.path_join base (case +:+ "_report.html") in
      ips <- checkIPaddress;;
      match ips with
      | [ip1; ip2] =>
          let ip_status := if String.eqb ip1 ip2 && negb (String.eqb ip1 "ERROR")
                           then "VERIFIED" else "MISMATCH" in
          _ <- createHTMLlog log_file case ip1 ip2 ip_status;;
          _ <- (if (threads <=? 0)%Z
                then Raise "max_workers must be greater than 0"
                else act (ExecutorNew threads));;
          result <- submit_all self video_dir thumb_dir log_file case urls;;
          match result with
          | (self, Some e) => Ret (self, Some e)
          | (self, None) =>
              _ <- act (ThreadStart log_file);;
              Ret (self, None)
          end
      | _ => Raise "ValueError: not enough values to unpack"
      end
  end.

(** The [finalize] thread of the legacy script, once the futures are
    done: the footer, and no event. *)
Definition finalize (log_file : string) : prog unit := closeHTMLlog log_file.

End Source.
End Legacy.

(* ===================================================================== *)
(** * Predicates on programs and traces used by the statements *)
(* ===================================================================== *)

(** Every observation a program can make satisfies [P]. *)
Fixpoint all_obs {A} (P : obs -> Prop) (p : prog A) : Prop :=
  match p with
  | Ret _ | Raise _ => True
  | Do a k => P (ODo a) /\ all_obs P k
  | Call c k => forall x, P (OCall c x) /\ all_obs P (k x)
  end.

(** What the set-up of a case may do: ask its collaborators, write text
    files, save the settings. *)
Definition setup_obs (o : obs) : Prop :=
  match o with
  | OCall _ _ => True
  | ODo (FileTruncate _) | ODo (FileWrite _ _) => True
  | ODo _ => False
  end.

(** The directories made. *)
Definition made_dir_of (o : obs) : list string :=
  match o with
  | OCall c x =>
      match c with
      | Makedirs p => [p]
      | _ => []
      end
  | _ => []
  end.

Definition made_dirs (tr : list obs) : list string := flat_map made_dir_of tr.

(** The events put on the queue. *)
Definition put_of (o : obs) : list event :=
  match o with
  | ODo (QueuePut ev) => [ev]
  | _ => []
  end.

Definition puts (tr : list obs) : list event := flat_map put_of tr.

Section ConfigChecks.
Context {B : Builtins}.

(** The configurations [startCase] rejects: no case number, no URL, or no
    destination folder, once white space is stripped. *)
Definition config_invalid (self : App) : Prop :=
  Py.strip (caseEntry self) = EmptyString
  \/ entered_urls self = []
  \/ Py.strip (destinationEntry self) = EmptyString.

(** The jobs of a case. *)
Definition case_jobs (self : App) (urls : list string) : list job_args :=
  let case := Py.strip (caseEntry self) in
  let base := Py.path_join (Py.strip (destinationEntry self)) case in
  map (fun url =>
         JobArgs url (Py.path_join base "Videos") (Py.path_join base "Thumbnails")
                 (Py.path_join base (case +:+ "_report.html")) case)
      urls.

Definition case_report (self : App) : string :=
  let case := Py.strip (caseEntry self) in
  Py.path_join (Py.path_join (Py.strip (destinationEntry self)) case)
               (case +:+ "_report.html").

Definition submit_obs (vd td lf case : string) (url : string) : obs :=
  ODo (ExecutorSubmit (JobArgs url vd td lf case)).

Definition queued_row (url : string) : string * (string * tree_info) :=
  (url, ("Queued", InfoText "0%")).

(** The trace of a case whose entries passed the checks: the set-up, then
    the pool, then one submission per URL, then the [finalize] thread;
    the loop stops at the first URL that was sent before. *)
Definition dispatch_shape (self : App) (urls : list string)
    (tr : list obs) (r : exn + (App * option exn)) : Prop :=
  (exists e, r = inl e /\ Forall setup_obs tr)
  \/ (exists setup self' err sent,
        Forall setup_obs setup
        /\ tr = setup
                ++ ODo (ExecutorNew (entered_threads self))
                   :: map (fun j => ODo (ExecutorSubmit j)) (case_jobs self sent)
                ++ match err with
                   | None => [ODo (ThreadStart (case_report self))]
                   | Some _ => []
                   end
        /\ r = inr (self', err)
        /\ futures self' = case_jobs self sent
        /\ tree self' = map queued_row sent
        /\ total_items self' = length urls
        /\ done_items self' = 0
        /\ failed_items self' = 0
        /\ NoDup sent
        /\ match err with
           | None => sent = urls
           | Some e =>
               exists u rest,
                 urls = sent ++ u :: rest /\ In u sent
                 /\ e = "Item " +:+ u +:+ " already exists"
           end).

End ConfigChecks.

(* ===================================================================== *)
(** * Scenarios: concrete collaborators *)
(* ===================================================================== *)

Module Scenario.
Import Sample.

(** What the engine resolves a URL to: the title and the id are the last
    component of the URL. *)
Definition info_of (url : string) : gmap string string :=
  {[ "title" := Py.basename url;
     "id" := Py.basename url;
     "ext" := "mp4";
     "thumbnail" := "https://img.example/" +:+ Py.basename url +:+ ".jpg" ]}.

(** [prepare_filename]: the output template with its two fields filled. *)
Definition fill_template (tmpl : string) (info : gmap string string) : string :=
  Py.replace "%(ext)s" (default "NA" (info !! "ext"))
    (Py.replace "%(title)s" (default "NA" (info !! "title")) tmpl).

Definition callbacks : list (gmap string string) :=
  [ {[ "status" := "downloading"; "_percent_str" := " 42.5%" ]};
    {[ "status" := "downloading"; "_percent_str" := "N/A" ]};
    {[ "status" := "finished" ]} ].

Definition stamp : string := "2026-02-14 12:00:00Z".

(** A world in which everything works. *)
Definition healthy : oracle := fun _ X c =>
  match c in call X return X with
  | SysMeipass => None
  | Abspath p => "/opt/tubehoarder"
  | PathExists _ => false
  | Which _ => Some "/usr/bin/ffmpeg"
  | YdlExtractInfo _ url => (callbacks, inr (info_of url))
  | YdlPrepareFilename opts info => inr (fill_template (outtmpl opts) info)
  | UrlopenRead _ _ => inr (bytes_of_string "192.0.2.7")
  | Urlopen _ _ => inr tt
  | ResponseRead _ => inr (bytes_of_string "jpeg-bytes")
  | OpenBinary _ => inr tt
  | WriteBytes _ _ => inr tt
  | ReadBytes _ => inr (bytes_of_string "video-bytes")
  | ShutilMove _ _ => inr tt
  | Relpath target _ => inr ("Videos/" +:+ Py.basename target)
  | UtcNow => stamp
  | OpenText _ _ => inr tt
  | WriteText _ _ => None
  | Makedirs _ => inr tt
  end.

(** The same world, except that from time [t0] on a file reads one byte
    short. *)
Definition corrupting (t0 : nat) : oracle := fun t X c =>
  match c in call X return X with
  | ReadBytes _ =>
      inr (bytes_of_string (if t0 <=? t then "video-byte" else "video-bytes"))
  | c' => healthy t c'
  end.


(** A world in which the thumbnail is saved but cannot be read back. *)
Definition thumb_unreadable : oracle := fun t X c =>
  match c in call X return X with
  | ReadBytes p =>
      if Py.starts_with "/cases/CASE007/Thumbnails/" p
      then inl "PermissionError: [Errno 13] Permission denied"
      else inr (bytes_of_string "video-bytes")
  | c' => healthy t c'
  end.

(** A world in which the thumbnail cannot be fetched. *)
Definition thumb_unreachable : oracle := fun t X c =>
  match c in call X return X with
  | Urlopen _ _ => inl "URLError: timed out"
  | c' => healthy t c'
  end.

(** A world in which the body of the thumbnail cannot be read to its
    end. *)
Definition thumb_cut_short : oracle := fun t X c =>
  match c in call X return X with
  | ResponseRead _ => inl "IncompleteRead(512 bytes read)"
  | c' => healthy t c'
  end.

(** A world in which, from time [t0] on, the disk is full: a write of
    text stops after [n] bytes. *)
Definition disk_full (t0 n : nat) : oracle := fun t X c =>
  match c in call X return X with
  | WriteText _ _ =>
      if t0 <=? t
      then Some (n, "OSError: [Errno 28] No space left on device")
      else None
  | c' => healthy t c'
  end.

(** A world in which the engine finds no stream and the disk is full. *)
Definition failing_disk_full (n : nat) : oracle := fun t X c =>
  match c in call X return X with
  | YdlExtractInfo _ _ => ([], inl "DownloadError: no video formats found")
  | c' => disk_full 0 n t c'
  end.


(** A world in which the engine finds no stream and, until time [t1], the
    report cannot be opened for appending. *)
Definition outage (t1 : nat) : oracle := fun t X c =>
  match c in call X return X with
  | YdlExtractInfo _ _ => ([], inl "DownloadError: no video formats found")
  | OpenText p ModeA =>
      if t <? t1 then inl "PermissionError: [Errno 13] Permission denied"
      else inr tt
  | c' => healthy t c'
  end.

Definition url_A : string := "https://example/videoA".
Definition url_B : string := "https://example/videoB".
Definition videos : string := "/cases/CASE007/Videos".
Definition thumbs : string := "/cases/CASE007/Thumbnails".
Definition report : string := "/cases/CASE007/CASE007_report.html".

Definition job_A : prog unit := processVideo url_A videos thumbs report "CASE007".

Definition legacy_job_A : prog unit :=
  Legacy.processVideo url_A videos thumbs report "CASE007".

(** What the operator typed: two URLs, 64 workers. *)
Definition app_two : App :=
  MkApp "CASE007" "64" (url_A +:+ Py.nl +:+ url_B +:+ Py.nl) "/cases"
        [] "IDLE" "Queued: 0   Done: 0   Failed: 0" 0%Q 0 0 0 [] [].

(** One URL. *)
Definition app_one : App :=
  MkApp "CASE007" "4" (url_A +:+ Py.nl) "/cases"
        [] "IDLE" "Queued: 0   Done: 0   Failed: 0" 0%Q 0 0 0 [] [].

(** One URL, no worker. *)
Definition app_zero : App :=
  MkApp "CASE007" "0" (url_A +:+ Py.nl) "/cases"
        [] "IDLE" "Queued: 0   Done: 0   Failed: 0" 0%Q 0 0 0 [] [].

(** Three URLs, the third the same as the first. *)
Definition app_repeat : App :=
  MkApp "CASE007" "4" (url_A +:+ Py.nl +:+ url_B +:+ Py.nl +:+ url_A +:+ Py.nl)
        "/cases"
        [] "IDLE" "Queued: 0   Done: 0   Failed: 0" 0%Q 0 0 0 [] [].

(** No URL. *)
Definition app_no_url : App :=
  MkApp "CASE007" "4" ("  " +:+ Py.nl) "/cases"
        [] "IDLE" "Queued: 0   Done: 0   Failed: 0" 0%Q 0 0 0 [] [].

(** The same URL twice. *)
Definition app_twice : App :=
  MkApp "CASE007" "4" (url_A +:+ Py.nl +:+ url_A +:+ Py.nl) "/cases"
        [] "IDLE" "Queued: 0   Done: 0   Failed: 0" 0%Q 0 0 0 [] [].

(** Job 0 to its end, then job 1, and so on: [n] turns each. *)
Definition one_by_one (jobs n : nat) : list nat :=
  flat_map (fun i => replicate n i) (seq 0 jobs).

(** The jobs in turn, one step each, [n] rounds. *)
Definition round_robin (jobs n : nat) : list nat :=
  List.concat (replicate n (seq 0 jobs)).


(** The two jobs of the case. *)
Definition jobs_AB : list job_args :=
  [ JobArgs url_A videos thumbs report "CASE007";
    JobArgs url_B videos thumbs report "CASE007" ].

(** A world in which the report already holds some text. *)
Definition world_with_report : world :=
  World [] None {[ report := "<!-- old -->" ]}.

(** A tree with the rows of the two URLs, and a queue for it. *)
Definition app_running : App :=
  MkApp "CASE007" "4" (url_A +:+ Py.nl +:+ url_B +:+ Py.nl) "/cases"
        [(url_A, ("Queued", InfoText "0%")); (url_B, ("Queued", InfoText "0%"))]
        "RUNNING" "Queued: 2   Done: 0   Failed: 0" 0%Q 2 0 0 [] [].

Definition queue_AB : list event :=
  [ (url_A, PROGRESS 42%Q); (url_B, FAILED "DownloadError");
    (url_A, DONE "sha:video-bytes"); ("__SYSTEM__", FINISHED report) ].


(** A world in which the report lies on another drive than the videos:
    [relpath] raises. *)
Definition relpath_fails : oracle := fun t X c =>
  match c in call X return X with
  | Relpath _ _ => inl "ValueError: path is on mount 'D:', start on mount 'C:'"
  | c' => healthy t c'
  end.


(** No case number and no destination folder. *)
Definition app_blank : App :=
  MkApp "  " "4" (url_A +:+ Py.nl) EmptyString
        [] "IDLE" "Queued: 0   Done: 0   Failed: 0" 0%Q 0 0 0 [] [].

End Scenario.

(* ===================================================================== *)
(** * The lock discipline of a job *)
(* ===================================================================== *)

(** What a watcher of one job keeps: whether the job holds the lock, what
    it has written to the report since it took the lock, the texts of its
    finished lock sections, and the terminal events it has put. *)
Record mon : Type := Mon {
  m_hold : bool;
  m_pending : list ascii;
  m_sections : list string;
  m_terms : list event
}.

Definition mon0 : mon := Mon false [] [] [].

(** The watcher refuses what breaks the discipline: taking the lock twice,
    releasing or writing without it, writing to another file, and the
    actions that only the main thread takes. *)
Definition mon_step (lf : string) (m : mon) (o : obs) : option mon :=
  match o with
  | OCall _ _ => Some m
  | ODo LockAcquire =>
      if m_hold m then None
      else Some (Mon true [] (m_sections m) (m_terms m))
  | ODo LockRelease =>
      if m_hold m
      then Some (Mon false [] (m_sections m ++ [Py.of_chars (m_pending m)])
                     (m_terms m))
      else None
  | ODo (FileWrite path c) =>
      if m_hold m && String.eqb path lf
      then Some (Mon true (m_pending m ++ [c]) (m_sections m) (m_terms m))
      else None
  | ODo (QueuePut ev) =>
      Some (Mon (m_hold m) (m_pending m) (m_sections m)
                (m_terms m ++ terminal_of (ODo (QueuePut ev))))
  | ODo _ => None
  end.

Fixpoint mon_run (lf : string) (m : mon) (tr : list obs) : option mon :=
  match tr with
  | [] => Some m
  | o :: rest =>
      match mon_step lf m o with
      | Some m' => mon_run lf m' rest
      | None => None
      end
  end.

Definition watch (lf : string) (th : thread) : option mon :=
  mon_run lf mon0 (th_trace th).

(** The lock sections a job has finished, and what it has written in the
    one it is in. *)
Definition sections_of (lf : string) (th : thread) : list string :=
  match watch lf th with
  | Some m => m_sections m
  | None => []
  end.

Definition pending_of (lf : string) (th : thread) : list ascii :=
  match watch lf th with
  | Some m => m_pending m
  | None => []
  end.

Definition holds (lf : string) (th : thread) : bool :=
  match watch lf th with
  | Some m => m_hold m
  | None => false
  end.

(** Whether a job holds [logLock] after [tr]: the last thing it did to
    the lock was to take it. *)
Fixpoint lock_held_from (held : bool) (tr : list obs) : bool :=
  match tr with
  | [] => held
  | ODo LockAcquire :: rest => lock_held_from true rest
  | ODo LockRelease :: rest => lock_held_from false rest
  | _ :: rest => lock_held_from held rest
  end.

Definition lock_held (tr : list obs) : bool := lock_held_from false tr.

(** The texts, end to end. *)
Fixpoint concat_text (l : list string) : string :=
  match l with
  | [] => EmptyString
  | s :: r => s +:+ concat_text r
  end.

Definition nonempty (s : string) : bool := Py.truthy s.

(** The rows among the sections: a section is empty when the report could
    not be opened. *)
Definition rows_of (secs : list string) : list string := List.filter nonempty secs.

(** [p] is what is left of [p0] after [tr]. *)
Definition residual {A} (p0 : prog A) (tr : list obs) (p : prog A) : Prop :=
  forall tr' r, runs p tr' r -> runs p0 (tr ++ tr') r.

(** A job puts events under its own URL only, and never the FINISHED
    event. *)
Definition own_obs (url : string) (o : obs) : Prop :=
  match o with
  | ODo (QueuePut ev) =>
      ev.1 = url /\ match ev.2 with FINISHED _ => False | _ => True end
  | _ => True
  end.

(** The exceptions raised when a text file was opened. *)
Definition open_failure_of (o : obs) : list exn :=
  match o with
  | OCall c x =>
      match c in call X return X -> list exn with
      | OpenText _ _ => fun ans => match ans with inl e => [e] | inr _ => [] end
      | _ => fun _ => []
      end x
  | _ => []
  end.

Definition open_failures (tr : list obs) : list exn := flat_map open_failure_of tr.

(** How a finished job ended. *)
Definition ended (th : thread) : option (exn + unit) :=
  match th_prog th with
  | Ret _ => Some (inr tt)
  | Raise e => Some (inl e)
  | _ => None
  end.

Definition is_terminal (ev : event) : bool :=
  match ev.2 with
  | DONE _ | FAILED _ => true
  | _ => false
  end.

Definition is_finished (ev : event) : bool :=
  match ev.2 with
  | FINISHED _ => true
  | _ => false
  end.

(** The terminal events of [url] among [q]. *)
Definition terminal_events (url : string) (q : list event) : list event :=
  List.filter (fun ev => is_terminal ev && String.eqb ev.1 url) q.

(** The step of a thread, as its watcher and the world see it. *)
Definition world_step (i : nat) (o : obs) (w w' : world) : Prop :=
  match o with
  | ODo a => apply_action i a w = Some w'
  | OCall _ _ => w' = w
  end.

Section RowShapes.
Context {B : Builtins}.

(** A row of the report for [url]: the row of a fetched video, whose
    status and class follow from its two digests, or the row of a
    failure. *)
Definition is_row (url : string) (s : string) : Prop :=
  (exists stamp thumb href title name hash1 hash2,
     s = video_row stamp thumb href title name url
           (css_of (verified_status hash1 hash2))
           (verified_status hash1 hash2) hash2)
  \/ (exists stamp e, s = failed_row stamp url e).

(** The row that goes with a terminal event of [url]: for DONE the video
    row with the digest of the event as its second digest and the verdict
    of the comparison, for FAILED the failed row with the text of the
    event. *)
Definition row_for (url : string) (ev : event) (row : string) : Prop :=
  ev.1 = url
  /\ match ev.2 with
     | DONE h =>
         exists stamp thumb href title name hash1,
           row = video_row stamp thumb href title name url
                   (css_of (verified_status hash1 h))
                   (verified_status hash1 h) h
     | FAILED e => exists stamp, row = failed_row stamp url e
     | _ => False
     end.

(** The beginning of a row of [url]: what a write leaves in the report,
    the whole row or, when it fails, its first bytes. *)
Definition row_start (url : string) (s : string) : Prop :=
  exists row rest, is_row url row /\ row = s +:+ rest.

(** How a job may end, seen by its watcher.  It does not hold the lock;
    each of its lock sections left the beginning of a row of its URL in
    the report; when it returned the last section is a whole row, it has
    put one terminal event, under its URL, and the row is the row of
    that event; when it raised it has put none. *)
Definition job_end (url : string) (m : mon) (r : exn + unit) : Prop :=
  m_hold m = false
  /\ m_pending m = []
  /\ Forall (row_start url) (m_sections m)
  /\ match r with
     | inr _ =>
         exists row ev,
           last (m_sections m) = Some row
           /\ row_for url ev row
           /\ m_terms m = [ev]
     | inl _ => m_terms m = []
     end.

(** How a job none of whose writes failed may end: every section is
    empty (the report could not be opened) or a whole row; there is one
    row when it returned and none when it raised. *)
Definition whole_end (url : string) (m : mon) (r : exn + unit) : Prop :=
  Forall (fun s => s = EmptyString \/ is_row url s) (m_sections m)
  /\ match r with
     | inr _ => length (rows_of (m_sections m)) = 1
     | inl _ => rows_of (m_sections m) = []
     end.

(** The state of the pool agrees with what the watchers of its jobs have
    seen. *)
Record pool_inv (lf : string) (jobs : list job_args) (w0 : world) (p : pool)
  : Prop := PoolInv {
  inv_length : length (threads p) = length jobs;
  inv_jobs :
    forall i th j, threads p !! i = Some th -> jobs !! i = Some j ->
      residual (run_job j) (th_trace th) (th_prog th)
      /\ all_obs (own_obs (j_url j)) (th_prog th);
  inv_lock :
    forall i th, threads p !! i = Some th ->
      exists m, watch lf th = Some m
                /\ (m_hold m = true <-> w_lock (shared p) = Some i);
  inv_holder :
    forall i, w_lock (shared p) = Some i -> i < length (threads p);
  inv_file :
    exists secs pend,
      file_text lf (shared p)
      = file_text lf w0 +:+ concat_text secs +:+ Py.of_chars pend
      /\ secs ≡ₚ concat (map (sections_of lf) (threads p))
      /\ match w_lock (shared p) with
         | None => pend = []
         | Some h => exists th, threads p !! h = Some th /\ pend = pending_of lf th
         end;
  inv_queue :
    w_queue (shared p)
    ≡ₚ w_queue w0 ++ concat (map (fun th => puts (th_trace th)) (threads p))
}.

End RowShapes.

(* ===================================================================== *)
(** * Statements about the helper functions *)
(* ===================================================================== *)

Section Helpers.
Context {B : Builtins}.

(** What [checkIPaddress] appends for one source, given what [urlopen]
    answered: the decoded, stripped body, or ["ERROR"]. *)
Definition ip_entry (ans : exn + list Byte.byte) : string :=
  match ans with
  | inl _ => "ERROR"
  | inr data =>
      match decode data with
      | Some s => Py.strip s
      | None => "ERROR"
      end
  end.

End Helpers.

Definition backslash_char : ascii := ascii_of_nat 92.

(** What reaches the file of a text [s] whose write goes as [fate]
    says. *)
Definition reached (fate : option (nat * exn)) (s : string) : string :=
  match fate with
  | None => s
  | Some (n, _) => cut n s
  end.

(** The observations of a text file opened and written: the opening, the
    truncation when the mode is ["w"], the clock read by the f-string, how
    the write goes, the bytes. *)
Definition text_trace (path : string) (mode : file_mode) (stamp s : string)
    (fate : option (nat * exn)) : list obs :=
  OCall (OpenText path mode) (inr tt)
  :: match mode with ModeW => [ODo (FileTruncate path)] | ModeA => [] end
  ++ OCall UtcNow stamp :: OCall (WriteText path s) fate
  :: row_writes path (reached fate s).

(** The text was written whole. *)
Definition text_written (path : string) (mode : file_mode) (stamp s : string)
  : list obs := text_trace path mode stamp s None.

(** The write failed with [e] after [n] bytes. *)
Definition text_cut (path : string) (mode : file_mode) (stamp s : string)
    (n : nat) (e : exn) : list obs := text_trace path mode stamp s (Some (n, e)).

(** ** The queue, as [updatingUI] reads it *)

Definition is_done (ev : event) : bool :=
  match ev.2 with DONE _ => true | _ => false end.

Definition is_failed (ev : event) : bool :=
  match ev.2 with FAILED _ => true | _ => false end.

Definition count_done (q : list event) : nat := length (List.filter is_done q).

Definition count_failed (q : list event) : nat :=
  length (List.filter is_failed q).

(** The events that make [updatingUI] touch a row of the tree: all but
    FINISHED. *)
Definition touches_row (ev : event) : bool :=
  match ev.2 with FINISHED _ => false | _ => true end.

(** The row that the event touches, if it touches one, is in the tree. *)
Definition row_known (t : list (string * (string * tree_info))) (ev : event)
  : Prop :=
  touches_row ev = true -> In ev.1 (map fst t).

Definition system_finished (ev : event) : bool :=
  String.eqb ev.1 "__SYSTEM__" && is_finished ev.

Definition newline_char : ascii := ascii_of_nat 10.

(** What the pool knows of the events of one job: they are its own, at
    most one is terminal, and how the job ended tells whether one is. *)
Definition job_events (j : job_args) (th : thread) : Prop :=
  Forall (own_obs (j_url j)) (th_trace th)
  /\ length (terminals (th_trace th)) <= 1
  /\ match ended th with
     | Some (inr _) => length (terminals (th_trace th)) = 1
     | Some (inl _) => terminals (th_trace th) = []
     | None => True
     end.

(** ** A whole case *)

(** A job that has returned (rather than ended with an exception). *)
Definition returned (th : thread) : bool :=
  match th_prog th with
  | Ret _ => true
  | _ => false
  end.

(** The observations that leave the queue and the lock alone. *)
Definition leaves_queue_and_lock (o : obs) : Prop :=
  match o with
  | ODo (QueuePut _) | ODo LockAcquire | ODo LockRelease => False
  | _ => True
  end.

Section CaseParts.
Context {B : Builtins}.

(** The parts of [run_case]: the run of [startCase], the world it
    leaves, the pool under the schedule. *)
Definition case_start (o : oracle) (self : App)
  : list obs * (exn + (App * option exn)) :=
  exec o 0 (startCase self).

Definition case_world (o : oracle) (self : App) : world :=
  apply_trace main_tid (case_start o self).1 empty_world.

Definition case_pool (o : oracle) (sched : list nat) (self : App) : pool :=
  run_pool o sched
    (new_pool (submitted (case_start o self).1) (case_world o self)
              (length (case_start o self).1)
              match executors (case_start o self).1 with
              | n :: _ => n
              | [] => 0%Z
              end).

End CaseParts.

(** The answers of [urlopen], in order. *)
Definition urlopen_answer_of (o : obs) : list (exn + list Byte.byte) :=
  match o with
  | OCall c x =>
      match c in call X return X -> list (exn + list Byte.byte) with
      | UrlopenRead _ _ => fun ans => [ans]
      | _ => fun _ => []
      end x
  | _ => []
  end.

Definition urlopen_answers (tr : list obs) : list (exn + list Byte.byte) :=
  flat_map urlopen_answer_of tr.

(** What [startCase] does after the report is created: the pool, the
    submissions, the [finalize] thread. *)
Definition dispatch_only (o : obs) : Prop :=
  match o with
  | ODo (ExecutorNew _) | ODo (ExecutorSubmit _) | ODo (ThreadStart _) => True
  | _ => False
  end.

Section HeaderShape.
Context {B : Builtins}.

(** The trace of a case that got past the creation of its report: what
    came before (the two addresses were asked last), the header written
    to the report, the dispatch. *)
Definition header_shape (self : App) (tr : list obs)
    (r : exn + (App * option exn)) : Prop :=
  forall self' err, r = inr (self', err) ->
    exists pre a1 a2 stamp post,
      let ip1 := ip_entry a1 in
      let ip2 := ip_entry a2 in
      tr = pre
           ++ text_written (case_report self) ModeW stamp
                (html_header (Py.strip (caseEntry self)) stamp ip1 ip2
                   (if String.eqb ip1 ip2 && negb (String.eqb ip1 "ERROR")
                    then "VERIFIED" else "MISMATCH"))
           ++ post
      /\ urlopen_answers pre = [a1; a2]
      /\ Forall dispatch_only post.

End HeaderShape.

Section JobRows.
Context {B : Builtins}.

(** What the pool knows of the rows of one job none of whose writes has
    failed, once it has ended: when it returned, one row, which is the
    row of its terminal event; when it ended with an exception, none. *)
Definition job_rows (lf : string) (j : job_args) (th : thread) : Prop :=
  write_failures (th_trace th) = [] ->
  match ended th with
  | Some (inr _) =>
      exists row ev,
        rows_of (sections_of lf th) = [row]
        /\ row_for (j_url j) ev row
        /\ terminals (th_trace th) = [ev]
  | Some (inl _) => rows_of (sections_of lf th) = []
  | None => True
  end.

End JobRows.

(** ** The probes of [ffmpegPath] *)

(** The answers of [os.path.exists]. *)
Definition exists_answer_of (o : obs) : list bool :=
  match o with
  | OCall c x =>
      match c in call X return X -> list bool with
      | PathExists _ => fun ans => [ans]
      | _ => fun _ => []
      end x
  | _ => []
  end.

Definition exists_answers (tr : list obs) : list bool :=
  flat_map exists_answer_of tr.

(** The answers of [shutil.which]. *)
Definition which_answer_of (o : obs) : list (option string) :=
  match o with
  | OCall c x =>
      match c in call X return X -> list (option string) with
      | Which _ => fun ans => [ans]
      | _ => fun _ => []
      end x
  | _ => []
  end.

Definition which_answers (tr : list obs) : list (option string) :=
  flat_map which_answer_of tr.

(** [if shutil.which("ffmpeg"):] *)
Definition on_path (w : option string) : bool :=
  match w with
  | Some p => Py.truthy p
  | None => false
  end.

(** ** The legacy [startCase] *)

(** The error boxes shown. *)
Definition error_shown_of (o : obs) : list (string * string) :=
  match o with
  | ODo (ShowError title msg) => [(title, msg)]
  | _ => []
  end.

Definition errors_shown (tr : list obs) : list (string * string) :=
  flat_map error_shown_of tr.

(** ** The set-up of a case *)

(** The exceptions raised by the steps of the set-up that are not
    caught: the opening and the writing of a text file, [os.makedirs]. *)
Definition setup_failure_of (o : obs) : list exn :=
  match o with
  | OCall c x =>
      match c in call X return X -> list exn with
      | OpenText _ _ => fun ans => match ans with inl e => [e] | _ => [] end
      | WriteText _ _ => fun ans => match ans with Some (_, e) => [e] | None => [] end
      | Makedirs _ => fun ans => match ans with inl e => [e] | _ => [] end
      | _ => fun _ => []
      end x
  | _ => []
  end.

Definition setup_failures (tr : list obs) : list exn := flat_map setup_failure_of tr.

(** The directories that [os.makedirs] made, or found. *)
Definition dir_made_of (o : obs) : list string :=
  match o with
  | OCall c x =>
      match c in call X return X -> list string with
      | Makedirs p => fun ans => match ans with inr _ => [p] | inl _ => [] end
      | _ => fun _ => []
      end x
  | _ => []
  end.

Definition dirs_made (tr : list obs) : list string := flat_map dir_made_of tr.

(** [settings.json] opened with ["w"] and written; [fate] says how the
    write went. *)
Definition settings_saved (s : string) (fate : option (nat * exn)) : list obs :=
  OCall (OpenText settingFile ModeW) (inr tt)
  :: ODo (FileTruncate settingFile)
  :: OCall (WriteText settingFile s) fate
  :: row_writes settingFile (reached fate s).

Section CaseSetup.
Context {B : Builtins}.

Definition case_base (self : App) : string :=
  Py.path_join (Py.strip (destinationEntry self)) (Py.strip (caseEntry self)).

Definition case_videos (self : App) : string :=
  Py.path_join (case_base self) "Videos".

Definition case_thumbs (self : App) : string :=
  Py.path_join (case_base self) "Thumbnails".

(** What [json.dump] writes for a case with [n] workers. *)
Definition case_settings (self : App) (n : Z) : string :=
  json_dumps (Py.strip (caseEntry self)) n (Py.strip (destinationEntry self)).

(** The verdict on the two address entries. *)
Definition case_verdict (a1 a2 : exn + list Byte.byte) : string :=
  if String.eqb (ip_entry a1) (ip_entry a2)
     && negb (String.eqb (ip_entry a1) "ERROR")
  then "VERIFIED" else "MISMATCH".

(** The set-up of a case up to the creation of its report: the settings
    saved, the two directories made, the two address services asked. *)
Definition case_setup (self : App) (n : Z) (a1 a2 : exn + list Byte.byte)
  : list obs :=
  settings_saved (case_settings self n) None
  ++ [OCall (Makedirs (case_videos self)) (inr tt);
      OCall (Makedirs (case_thumbs self)) (inr tt);
      OCall (UrlopenRead "https://api.ipify.org" 5) a1;
      OCall (UrlopenRead "https://checkip.amazonaws.com" 5) a2].

(** The set-up to its end: the report created with its header, which
    [header] makes from the case, the time, the two entries and the
    verdict. *)
Definition case_ready (header : string -> string -> string -> string -> string -> string)
    (self : App) (n : Z) (a1 a2 : exn + list Byte.byte) (stamp : string)
  : list obs :=
  case_setup self n a1 a2
  ++ text_written (case_report self) ModeW stamp
       (header (Py.strip (caseEntry self)) stamp (ip_entry a1) (ip_entry a2)
          (case_verdict a1 a2)).

(** The ways in which the set-up of a case raises [e]: [settings.json]
    cannot be opened, or not written to its end; the videos directory, or
    the thumbnails directory after it, cannot be made; the report cannot
    be opened, or its header not written to its end. *)
Definition setup_raised (header : string -> string -> string -> string -> string -> string)
    (self : App) (n : Z) (e : exn) (tr : list obs) : Prop :=
  tr = [OCall (OpenText settingFile ModeW) (inl e)]
  \/ (exists k, tr = settings_saved (case_settings self n) (Some (k, e)))
  \/ tr = settings_saved (case_settings self n) None
          ++ [OCall (Makedirs (case_videos self)) (inl e)]
  \/ tr = settings_saved (case_settings self n) None
          ++ [OCall (Makedirs (case_videos self)) (inr tt);
              OCall (Makedirs (case_thumbs self)) (inl e)]
  \/ (exists a1 a2,
        tr = case_setup self n a1 a2
             ++ [OCall (OpenText (case_report self) ModeW) (inl e)])
  \/ (exists a1 a2 stamp k,
        tr = case_setup self n a1 a2
             ++ text_cut (case_report self) ModeW stamp
                  (header (Py.strip (caseEntry self)) stamp (ip_entry a1)
                     (ip_entry a2) (case_verdict a1 a2)) k e).

(** The runs of the legacy [startCase] once the worker count [n] was
    read and a URL was found: the set-up raises; or it comes to its end
    and then, with a count below one, the pool raises, and otherwise the
    pool is created with [n] workers, jobs are submitted, and the
    [finalize] thread is started unless Tk raised. *)
Definition legacy_shape (self : App) (n : Z) (tr : list obs)
    (r : exn + (App * option exn)) : Prop :=
  (exists e, r = inl e /\ setup_raised Legacy.html_header self n e tr)
  \/ (exists a1 a2 stamp,
        let ready := case_ready Legacy.html_header self n a1 a2 stamp in
        ((n <= 0)%Z /\ tr = ready
         /\ r = inl "max_workers must be greater than 0")
        \/ ((0 < n)%Z
            /\ exists sent self' (err : option exn),
                 tr = ready
                      ++ ODo (ExecutorNew n)
                         :: map (fun j => ODo (ExecutorSubmit j)) sent
                      ++ match err with
                         | None => [ODo (ThreadStart (case_report self))]
                         | Some _ => []
                         end
                 /\ r = inr (self', err))).

End CaseSetup.

(** ** Claims that fail *)

Section MismatchClaim.
Context {B : Builtins}.

(** The claim that a hash mismatch reaches the observer: whenever the two
    digests differ, the terminal event of the job is not the success
    event. *)
Definition mismatch_event_claim : Prop :=
  forall url vd td lf case tr r h1 h2,
    runs (processVideo url vd td lf case) tr r ->
    primary_failures tr = [] ->
    digests tr = [h1; h2] ->
    h1 <> h2 ->
    exists ev, terminals tr = [ev] /\ reflects_mismatch ev.

End MismatchClaim.

Section WholeRowClaim.
Context {B : Builtins}.

(** The claim that each append leaves one whole row: whatever the
    collaborators answer, every lock section in which a job has written
    something holds a whole row of that job. *)
Definition whole_row_claim : Prop :=
  forall (o : oracle) (sched : list nat) (jobs : list job_args) lf w0 t workers,
    Forall (fun j => j_logFile j = lf) jobs ->
    w_lock w0 = None ->
    let p := run_pool o sched (new_pool jobs w0 t workers) in
    forall i j th,
      jobs !! i = Some j -> threads p !! i = Some th ->
      Forall (fun s => s = EmptyString \/ is_row (j_url j) s)
             (sections_of lf th).

End WholeRowClaim.

Section CaseClaims.
Context {B : Builtins}.

(** The claim that every case is finalized once: whenever jobs were
    submitted and all have come to their end, the queue holds exactly
    one FINISHED event, which names the report of the case. *)
Definition finalize_claim : Prop :=
  forall (o : oracle) (sched : list nat) (self : App),
    ~ config_invalid self ->
    let rs := run_case o sched self in
    threads (rs_pool rs) <> [] ->
    all_finished (rs_pool rs) = true ->
    List.filter is_finished (w_queue (rs_world rs))
    = [("__SYSTEM__", FINISHED (case_report self))].

(** The claim that no URL is dropped: whenever a case was finalized,
    every URL entered has exactly one terminal event on the queue. *)
Definition every_url_claim : Prop :=
  forall (o : oracle) (sched : list nat) (self : App) trf,
    ~ config_invalid self ->
    let rs := run_case o sched self in
    rs_finalize rs = Some (trf, inr tt) ->
    forall u, In u (entered_urls self) ->
      length (terminal_events u (w_queue (rs_world rs))) = 1.

End CaseClaims.

Section DestinationClaim.
Context {B : Builtins}.


End DestinationClaim.


(* ===================================================================== *)
(** * Reasoning about runs *)
(* ===================================================================== *)

Section RunLemmas.

Lemma wp_mono A (p : prog A) (Q Q' : list obs -> exn + A -> Prop) :
  (forall tr r, Q tr r -> Q' tr r) -> wp p Q -> wp p Q'.
Proof.
  revert Q Q'. induction p as [a|e|a k IH|X c k IH]; intros Q Q' HQ; simpl.
  - apply HQ.
  - apply HQ.
  - apply IH. intros tr r. apply HQ.
  - intros H x. eapply IH; [|apply H]. intros tr r. apply HQ.
Qed.

Lemma runs_wp A (p : prog A) tr r Q : runs p tr r -> wp p Q -> Q tr r.
Proof.
  intros Hr. revert Q. induction Hr; intros Q; simpl; auto.
  - intros H. apply (IHHr _ H).
  - intros H. apply (IHHr _ (H x)).
Qed.

Lemma wp_runs A (p : prog A) : wp p (runs p).
Proof.
  induction p as [a|e|a k IH|X c k IH]; simpl.
  - constructor.
  - constructor.
  - eapply wp_mono; [|apply IH]. intros tr r. apply runs_do.
  - intros x. eapply wp_mono; [|apply IH]. intros tr r. apply runs_call.
Qed.

Lemma wp_iff_runs A (p : prog A) Q :
  wp p Q <-> (forall tr r, runs p tr r -> Q tr r).
Proof.
  split.
  - intros H tr r Hr. exact (runs_wp Hr H).
  - intros H. eapply wp_mono; [apply H|apply wp_runs].
Qed.

Lemma exec_runs A (o : oracle) (p : prog A) t :
  runs p (exec o t p).1 (exec o t p).2.
Proof.
  revert t. induction p as [a|e|a k IH|X c k IH]; intros t; simpl.
  - constructor.
  - constructor.
  - specialize (IH (S t)). destruct (exec o (S t) k) as [tr r]. simpl in *.
    now constructor.
  - specialize (IH (o t X c) (S t)).
    destruct (exec o (S t) (k (o t X c))) as [tr r]. simpl in *.
    now constructor.
Qed.

(** Sequencing: a run of [bind p f] is a run of [p] that raises, or a run
    of [p] that returns followed by a run of the continuation. *)
Lemma wp_bind A B (p : prog A) (f : A -> prog B) Q :
  wp p (fun tr r =>
          match r with
          | inl e => Q tr (inl e)
          | inr a => wp (f a) (fun tr' r' => Q (tr ++ tr') r')
          end)
  -> wp (bind p f) Q.
Proof.
  revert Q. induction p as [a|e|a k IH|X c k IH]; intros Q; simpl.
  - auto.
  - auto.
  - intros H. apply IH. eapply wp_mono; [|apply H].
    intros tr [e|a']; simpl; auto.
  - intros HQ x. apply IH. eapply wp_mono; [|apply HQ].
    intros tr [e|a']; simpl; auto.
Qed.

Lemma wp_catch A (p : prog A) (h : exn -> prog A) Q :
  wp p (fun tr r =>
          match r with
          | inl e => wp (h e) (fun tr' r' => Q (tr ++ tr') r')
          | inr a => Q tr (inr a)
          end)
  -> wp (catch p h) Q.
Proof.
  revert Q. induction p as [a|e|a k IH|X c k IH]; intros Q; simpl.
  - auto.
  - auto.
  - intros H. apply IH. eapply wp_mono; [|apply H].
    intros tr [e|a']; simpl; auto.
  - intros HQ x. apply IH. eapply wp_mono; [|apply HQ].
    intros tr [e|a']; simpl; auto.
Qed.

Lemma runs_exists A (p : prog A) : exists tr r, runs p tr r.
Proof. eexists _, _. apply (exec_runs silent p 0). Qed.

Lemma wp_holds_somewhere A (p : prog A) Q :
  wp p Q -> exists tr r, runs p tr r /\ Q tr r.
Proof.
  intros H. destruct (runs_exists p) as (tr & r & Hr).
  exists tr, r. split; [exact Hr|exact (runs_wp Hr H)].
Qed.

End RunLemmas.

(* ===================================================================== *)
(** * The main line of a job *)
(* ===================================================================== *)

Lemma main_line_app tr tr' : main_line (tr ++ tr') = main_line tr ++ main_line tr'.
Proof. apply List.filter_app. Qed.

Lemma wpm_bind A C (p : prog A) (f : A -> prog C) Q :
  wpm p (fun l r =>
           match r with
           | inl e => Q l (inl e)
           | inr a => wpm (f a) (fun l' r' => Q (l ++ l') r')
           end)
  -> wpm (bind p f) Q.
Proof.
  unfold wpm. intros H. apply wp_bind. eapply wp_mono; [|exact H].
  intros tr [e|a]; [auto|]. simpl. intros H'. eapply wp_mono; [|exact H'].
  intros tr' r'. simpl. now rewrite main_line_app.
Qed.

Lemma wpm_catch A (p : prog A) (h : exn -> prog A) Q :
  wpm p (fun l r =>
           match r with
           | inl e => wpm (h e) (fun l' r' => Q (l ++ l') r')
           | inr a => Q l (inr a)
           end)
  -> wpm (catch p h) Q.
Proof.
  unfold wpm. intros H. apply wp_catch. eapply wp_mono; [|exact H].
  intros tr [e|a]; [|auto]. simpl. intros H'. eapply wp_mono; [|exact H'].
  intros tr' r'. simpl. now rewrite main_line_app.
Qed.

Lemma wpm_mono A (p : prog A) (Q Q' : list obs -> exn + A -> Prop) :
  (forall l r, Q l r -> Q' l r) -> wpm p Q -> wpm p Q'.
Proof. intros H. apply wp_mono. intros tr r. apply H. Qed.

Lemma wpm_side A C (p : prog A) (f : A -> prog C) Q :
  side_prog p -> (forall a, wpm (f a) Q) -> wpm (bind p f) Q.
Proof.
  intros Hs Hf. apply wpm_bind. eapply wpm_mono; [|exact Hs].
  intros l r [-> [a ->]]. simpl. apply Hf.
Qed.

Section JobLine.
Context {B : Builtins}.

Lemma ffmpegPath_side : side_prog ffmpegPath.
Proof.
  unfold side_prog, wpm, ffmpegPath, getBasePath. simpl.
  intros [p|]; simpl.
  - intros [|]; simpl; [eauto|]. intros [w|]; simpl; [|eauto].
    destruct (Py.truthy w); simpl; eauto.
  - intros p [|]; simpl; [eauto|]. intros [w|]; simpl; [|eauto].
    destruct (Py.truthy w); simpl; eauto.
Qed.

Lemma hook_side url d : side_prog (hook url d).
Proof.
  unfold side_prog, wpm, hook.
  destruct (decide _); simpl; [eauto|].
  destruct (decide _); simpl; eauto.
Qed.

Lemma for_each_side X (l : list X) (f : X -> prog unit) :
  (forall x, side_prog (f x)) -> side_prog (for_each l f).
Proof.
  intros Hf. induction l as [|x l IH]; simpl.
  - unfold side_prog, wpm. simpl. eauto.
  - apply wpm_side; [apply Hf|]. intros _. apply IH.
Qed.

Lemma downloadThumbnail_side u p : side_prog (downloadThumbnail u p).
Proof.
  unfold side_prog, wpm, downloadThumbnail. simpl.
  intros [e|[]]; simpl; [eauto|].
  intros [e|[]]; simpl; [eauto|].
  intros [e|data]; simpl; [eauto|].
  intros [e|[]]; simpl; eauto.
Qed.

Lemma read_blocks_feed fuel chunk (data fed : list Byte.byte) :
  0 < chunk -> length data < fuel ->
  fold_left (fun fed block => fed ++ block) (read_blocks fuel chunk data) fed
  = fed ++ data.
Proof.
  intros Hc. revert data fed.
  induction fuel as [|fuel IH]; intros data fed Hlen; [lia|].
  simpl. destruct data as [|b data].
  - destruct chunk; simpl; now rewrite app_nil_r.
  - destruct chunk as [|chunk]; [lia|]. simpl.
    rewrite IH.
    + rewrite <- app_assoc. f_equal. simpl. f_equal. apply take_drop.
    + rewrite length_drop. simpl in Hlen. lia.
Qed.

Lemma sha256Hash_chunk_runs path chunk Q :
  0 < chunk ->
  (forall ans, Q [OCall (ReadBytes path) ans]
                 (match ans with
                  | inl e => inl e
                  | inr data => inr (sha256_hex data)
                  end))
  -> wpm (sha256Hash_chunk path chunk) Q.
Proof.
  intros Hc H. unfold wpm, sha256Hash_chunk. cbn -[read_blocks].
  intros [e|data]; cbn -[read_blocks]; [apply (H (inl e))|].
  rewrite read_blocks_feed by (auto; lia). apply (H (inr data)).
Qed.

Lemma wpm_sha256Hash path Q :
  (forall ans, Q [OCall (ReadBytes path) ans]
                 (match ans with
                  | inl e => inl e
                  | inr data => inr (sha256_hex data)
                  end))
  -> wpm (sha256Hash path) Q.
Proof. apply sha256Hash_chunk_runs. lia. Qed.

Lemma for_each_act A X (a : X -> action) (l : list X) (f : unit -> prog A) :
  bind (for_each l (fun x => act (a x))) f = dos (map a l) (f tt).
Proof. induction l as [|x l IH]; simpl; [auto|]. now rewrite IH. Qed.

Lemma bind_dos A C (l : list action) (k : prog A) (f : A -> prog C) :
  bind (dos l k) f = dos l (bind k f).
Proof. induction l as [|a l IH]; simpl; [auto|]. now rewrite IH. Qed.

Lemma catch_dos A (l : list action) (k : prog A) h :
  catch (dos l k) h = dos l (catch k h).
Proof. induction l as [|a l IH]; simpl; [auto|]. now rewrite IH. Qed.

Lemma wp_dos A (l : list action) (k : prog A) Q :
  wp k (fun tr r => Q (map ODo l ++ tr) r) -> wp (dos l k) Q.
Proof.
  revert Q. induction l as [|a l IH]; intros Q H; simpl; [exact H|].
  apply IH. exact H.
Qed.

Lemma main_line_row_writes lf row : main_line (row_writes lf row) = row_writes lf row.
Proof.
  unfold row_writes. induction (Py.chars row) as [|c l IH]; simpl; [auto|].
  unfold main_line in *. simpl. now rewrite IH.
Qed.

Lemma chars_of_chars l : Py.chars (Py.of_chars l) = l.
Proof. induction l as [|c l IH]; simpl; [reflexivity|]. now rewrite IH. Qed.

Lemma row_writes_cut lf n s :
  row_writes lf (cut n s) = map (fun c => ODo (FileWrite lf c)) (take n (Py.chars s)).
Proof. unfold row_writes, cut. now rewrite chars_of_chars. Qed.

Lemma wpm_locked_append lf (row : string -> string) Q :
  (forall e, Q (failed_open lf e) (inl e)) ->
  (forall stamp n e, Q (cut_append lf stamp (row stamp) n e) (inl e)) ->
  (forall stamp, Q (locked_append lf stamp (row stamp)) (inr tt)) ->
  wpm (with_lock (open_and_write lf ModeA (stamp <- utcStamp ;; Ret (row stamp)))) Q.
Proof.
  intros Hfail Hcut Hok.
  unfold wpm, with_lock, open_and_write, finally, utcStamp, write_text.
  cbn [bind io ask act catch wp].
  intros [e|[]]; cbn [bind catch wp act]; [apply Hfail|].
  intros stamp [[n e]|]; cbn [bind catch wp act].
  - rewrite for_each_act, bind_dos, catch_dos, bind_dos. apply wp_dos.
    cbn [bind catch wp act].
    unfold main_line. cbn [List.filter is_side negb].
    fold (main_line (map ODo (map (fun c => FileWrite lf c)
                                  (take n (Py.chars (row stamp))))
                     ++ [ODo LockRelease])).
    rewrite main_line_app, map_map, <- row_writes_cut, main_line_row_writes.
    apply Hcut.
  - rewrite for_each_act, catch_dos, bind_dos. apply wp_dos.
    cbn [bind catch wp act].
    unfold main_line. cbn [List.filter is_side negb].
    fold (main_line (map ODo (map (fun c => FileWrite lf c)
                                  (Py.chars (row stamp)))
                     ++ [ODo LockRelease])).
    rewrite main_line_app, map_map.
    change (map (fun c => ODo (FileWrite lf c)) (Py.chars (row stamp)))
      with (row_writes lf (row stamp)).
    rewrite main_line_row_writes. apply Hok.
Qed.

Lemma wpm_io X (c : call (exn + X)) Q :
  is_side (OCall c (inl EmptyString)) = false ->
  (forall ans, Q [OCall c ans] ans) -> wpm (io c) Q.
Proof.
  intros Hs H. unfold wpm, io. cbn [wp]. intros ans.
  assert (Hm : main_line [OCall c ans] = [OCall c ans]).
  { unfold main_line. simpl. simpl in Hs. now rewrite Hs. }
  destruct ans; cbn [wp]; rewrite Hm; apply H.
Qed.

Lemma wpm_toRelHref target base Q :
  (forall ans, Q [OCall (Relpath target base) ans]
                 (match ans with
                  | inl e => inl e
                  | inr rel => inr (Py.replace Py.backslash "/" rel)
                  end))
  -> wpm (toRelHref target base) Q.
Proof.
  intros H. unfold wpm, toRelHref. simpl. intros [e|rel]; simpl.
  - apply (H (inl e)).
  - apply (H (inr rel)).
Qed.

Lemma wpm_ask A X (c : call X) (f : X -> prog A) Q :
  (forall x, is_side (OCall c x) = false) ->
  (forall x, wpm (f x) (fun l r => Q (OCall c x :: l) r)) ->
  wpm (bind (ask c) f) Q.
Proof.
  intros Hs H. unfold wpm, ask. cbn [wp bind]. intros x.
  eapply wp_mono; [|apply (H x)]. intros tr r. cbn beta.
  unfold main_line. cbn [List.filter]. now rewrite (Hs x).
Qed.

Lemma wpm_ret A (a : A) (Q : list obs -> exn + A -> Prop) :
  Q [] (inr a) -> wpm (Ret a) Q.
Proof. auto. Qed.

Lemma wpm_raise A e (Q : list obs -> exn + A -> Prop) :
  Q [] (inl e) -> wpm (Raise e) Q.
Proof. auto. Qed.

Lemma wpm_act a (Q : list obs -> exn + unit -> Prop) :
  is_side (ODo a) = false -> Q [ODo a] (inr tt) -> wpm (act a) Q.
Proof.
  intros Hs H. unfold wpm, act. cbn [wp]. unfold main_line. cbn [List.filter].
  now rewrite Hs.
Qed.

Lemma thumbnail_step_side (thumbnailURL : option string) thumbPath :
  side_prog
    match thumbnailURL with
    | Some u => if Py.truthy u
                then _ <- downloadThumbnail u thumbPath ;; Ret tt
                else Ret tt
    | None => Ret tt
    end.
Proof.
  destruct thumbnailURL as [u|]; [destruct (Py.truthy u)|].
  - apply wpm_side; [apply downloadThumbnail_side|]. intros _.
    apply wpm_ret. eauto.
  - apply wpm_ret. eauto.
  - apply wpm_ret. eauto.
Qed.

Ltac stage_fail := left; eexists; split; reflexivity.
Ltac stage_ok :=
  eapply wpm_mono;
  [ let H := fresh in
    intros ? ? H; right; eexists _, _; split; [reflexivity|exact H]
  | ].

Lemma processVideo_try_line url vd td lf case :
  wpm (processVideo_try url vd td lf case) (try_line url vd td lf case).
Proof.
  unfold processVideo_try.
  apply wpm_side; [apply ffmpegPath_side|]. intros st.
  apply wpm_ask; [reflexivity|]. intros [cbs res].
  apply wpm_side; [apply for_each_side, hook_side|]. intros _.
  destruct res as [e|info].
  { apply wpm_bind, wpm_raise. exists st, cbs, (inl e), []. simpl. auto. }
  apply wpm_bind, wpm_ret. cbn [app].
  eapply wpm_mono.
  { intros l r H. exists st, cbs, (inr info), l. split; [reflexivity|exact H]. }
  apply wpm_bind, wpm_io; [reflexivity|]. intros [e|temp_path]; [stage_fail|].
  apply wpm_side; [apply thumbnail_step_side|]. intros _.
  stage_ok.
  apply wpm_bind, wpm_sha256Hash. intros [e|data1]; [stage_fail|].
  stage_ok.
  apply wpm_bind, wpm_io; [reflexivity|]. intros [e|[]]; [stage_fail|].
  stage_ok.
  apply wpm_bind, wpm_sha256Hash. intros [e|data2]; [stage_fail|].
  stage_ok.
  apply wpm_bind, wpm_toRelHref. intros [e|rel]; [stage_fail|].
  stage_ok.
  apply wpm_bind. apply wpm_locked_append.
  - intros e. left. eauto.
  - intros stamp n e. right. left. eauto.
  - intros stamp. apply wpm_act; [reflexivity|]. right. right. exists stamp.
    split; reflexivity.
Qed.

Lemma processVideo_except_line url lf e :
  wpm (processVideo_except url lf e)
      (append_line lf (fun stamp => failed_row stamp url e) (url, FAILED e)).
Proof.
  unfold processVideo_except. apply wpm_bind, wpm_locked_append.
  - intros e'. left. eauto.
  - intros stamp n e'. right. left. eauto.
  - intros stamp. apply wpm_act; [reflexivity|]. right. right. exists stamp.
    split; reflexivity.
Qed.

Theorem processVideo_line url vd td lf case tr r :
  runs (processVideo url vd td lf case) tr r ->
  job_line url vd td lf case (main_line tr) r.
Proof.
  revert tr r. apply wp_iff_runs. unfold processVideo. apply wpm_catch.
  eapply wpm_mono; [|apply processVideo_try_line].
  intros l1 [e|[]] H1.
  - eapply wpm_mono; [|apply processVideo_except_line].
    intros l2 r H2. exists l1, (inl e). split; [exact H1|]. exists l2. auto.
  - exists l1, (inr tt). auto.
Qed.
End JobLine.

(** ** What a trace shows *)

Lemma flat_map_main_line T (f : obs -> list T) tr :
  (forall o, is_side o = true -> f o = []) ->
  flat_map f (main_line tr) = flat_map f tr.
Proof.
  intros Hf. induction tr as [|o tr IH]; [reflexivity|].
  unfold main_line in *. simpl. destruct (is_side o) eqn:Hs; simpl.
  - now rewrite (Hf o Hs), IH.
  - now rewrite IH.
Qed.

Ltac side_blind :=
  let o := fresh "o" in
  intros o; destruct o as [[[? []]| | | | | | | | ]|? []]; simpl; congruence.

Lemma terminals_main_line tr : terminals (main_line tr) = terminals tr.
Proof. apply flat_map_main_line. side_blind. Qed.

Lemma report_text_main_line p tr : report_text p (main_line tr) = report_text p tr.
Proof. unfold report_text. f_equal. apply flat_map_main_line. side_blind. Qed.

Lemma reads_main_line tr : reads (main_line tr) = reads tr.
Proof. apply flat_map_main_line. side_blind. Qed.

Lemma moves_main_line tr : moves (main_line tr) = moves tr.
Proof. apply flat_map_main_line. side_blind. Qed.

Lemma prepared_main_line tr : prepared (main_line tr) = prepared tr.
Proof. apply flat_map_main_line. side_blind. Qed.

Lemma opens_main_line tr : opens (main_line tr) = opens tr.
Proof. apply flat_map_main_line. side_blind. Qed.

Lemma primary_failures_main_line tr :
  primary_failures (main_line tr) = primary_failures tr.
Proof. apply flat_map_main_line. side_blind. Qed.

Lemma write_failures_main_line tr :
  write_failures (main_line tr) = write_failures tr.
Proof. apply flat_map_main_line. side_blind. Qed.

Lemma extracted_main_line tr : extracted (main_line tr) = extracted tr.
Proof. apply flat_map_main_line. side_blind. Qed.

Lemma relpaths_main_line tr : relpaths (main_line tr) = relpaths tr.
Proof. apply flat_map_main_line. side_blind. Qed.

Lemma stamps_main_line tr : stamps (main_line tr) = stamps tr.
Proof. apply flat_map_main_line. side_blind. Qed.

Lemma flat_map_row_writes T (f : obs -> list T) lf row :
  (forall p c, f (ODo (FileWrite p c)) = []) ->
  flat_map f (row_writes lf row) = [].
Proof.
  intros Hf. unfold row_writes.
  induction (Py.chars row) as [|c l IH]; simpl; [reflexivity|].
  now rewrite Hf, IH.
Qed.

Lemma append_cons c s t : String c s +:+ t = String c (s +:+ t).
Proof. reflexivity. Qed.

Lemma append_empty_r s : s +:+ EmptyString = s.
Proof.
  induction s as [|c s IH]; [reflexivity|]. now rewrite append_cons, IH.
Qed.

Lemma of_chars_chars s : Py.of_chars (Py.chars s) = s.
Proof. induction s as [|c s IH]; simpl; [reflexivity|]. now rewrite IH. Qed.

Lemma written_row_writes lf row :
  flat_map (written_of lf) (row_writes lf row) = Py.chars row.
Proof.
  unfold row_writes. induction (Py.chars row) as [|c l IH]; simpl; [reflexivity|].
  rewrite String.eqb_refl. simpl. now rewrite IH.
Qed.

Lemma string_of_chars_app l l' :
  Py.of_chars (l ++ l') = Py.of_chars l +:+ Py.of_chars l'.
Proof.
  induction l as [|c l IH]; [reflexivity|]. simpl. now rewrite append_cons, IH.
Qed.

(** Take a line of the grammar apart, exit by exit. *)
Ltac stage_cases H :=
  repeat match type of H with
  | _ => progress cbn beta zeta in H
  | stage _ _ _ _ =>
      let e := fresh "e" in
      let x := fresh "x" in
      let l := fresh "l" in
      destruct H as [(e & -> & ->)|(x & l & -> & H)]
  | append_line _ _ _ _ _ =>
      let e := fresh "e" in
      let n := fresh "n" in
      let stamp := fresh "stamp" in
      destruct H as [(e & -> & ->)|[(stamp & n & e & -> & ->)|(stamp & -> & ->)]]
  end.

Ltac try_cases H :=
  let st := fresh "st" in
  let cbs := fresh "cbs" in
  let res := fresh "res" in
  let l := fresh "l" in
  let e := fresh "e" in
  let info := fresh "info" in
  destruct H as (st & cbs & res & l & -> & H);
  destruct res as [e|info]; [destruct H as [-> ->]|stage_cases H].

Ltac job_cases H :=
  let l1 := fresh "l1" in
  let r1 := fresh "r1" in
  let H1 := fresh "H1" in
  let l2 := fresh "l2" in
  let H2 := fresh "H2" in
  destruct H as (l1 & r1 & H1 & H);
  try_cases H1; cbn beta iota in H;
  first [ destruct H as [-> ->]
        | destruct H as (l2 & H2 & ->); stage_cases H2 ].

(** Compute what a line of the grammar shows. *)
Ltac shown :=
  unfold terminals, reads, moves, opens, primary_failures, prepared,
    report_text, digests, open_failures, write_failures, extracted, relpaths,
    stamps, locked_append, cut_append, failed_open;
  repeat first
    [ progress cbn [flat_map app terminal_of read_of move_of open_of
                    prepared_of primary_failure_of written_of open_failure_of
                    write_failure_of extracted_of relpath_of stamp_of
                    fst snd length Py.of_chars]
    | rewrite flat_map_app
    | rewrite flat_map_row_writes by reflexivity
    | rewrite written_row_writes
    | rewrite app_nil_r
    | rewrite string_of_chars_app
    | rewrite of_chars_chars
    | rewrite append_empty_r ].

Section Outcomes.
Context {B : Builtins}.


Lemma runs_catch_returned A (p : prog A) h tr a :
  runs p tr (inr a) -> runs (catch p h) tr (inr a).
Proof.
  intros H. remember (inr a) as r eqn:Hr. revert Hr.
  induction H; intros Hr; simpl; try discriminate.
  - injection Hr as ->. constructor.
  - constructor. auto.
  - constructor. auto.
Qed.





(** X16.  In [main.py] the thumbnail cannot fail a job: whatever happens
    to its download, a job whose primary steps (the engine, the two
    hashing reads, the move, [relpath], the opening of the report and
    the writing of the row) do not fail returns normally and puts
    exactly one terminal event, a DONE event under its URL. *)
Lemma thumbnail_failure_isolated url vd td lf case tr r :
  runs (processVideo url vd td lf case) tr r ->
  primary_failures tr = [] ->
  r = inr tt /\ exists h, terminals tr = [(url, DONE h)].
Proof.
  intros Hr Hf. apply processVideo_line in Hr.
  rewrite <- primary_failures_main_line in Hf.
  rewrite <- terminals_main_line.
  revert Hr Hf. generalize (main_line tr). intros l Hr.
  job_cases Hr; shown; try discriminate.
  intros _. eauto.
Qed.
End Outcomes.

(* ===================================================================== *)
(** * The progress hook and the relocation *)
(* ===================================================================== *)

Section HookSpec.
Context {B : Builtins}.

(** C9.  The progress hook always returns: it never raises.  A callback
    whose status is "downloading" puts exactly one PROGRESS event, whose
    percent is what [float] makes of the cleaned [_percent_str], and 0
    when [float] rejects it; a callback whose status is "finished" puts
    exactly one MERGING event at 99; any other callback puts nothing. *)
Theorem hook_translates_callbacks (url : string) (d : gmap string string) :
  (exists tr, runs (hook url d) tr (inr tt))
  /\ forall tr r, runs (hook url d) tr r ->
       r = inr tt
       /\ (d !! "status" = Some "downloading" ->
             exists percent,
               tr = [ODo (QueuePut (url, PROGRESS percent))]
               /\ match py_float (Py.strip (Py.replace "%" ""
                                    (default "0%" (d !! "_percent_str")))) with
                  | Some x => percent = x
                  | None => percent = 0%Q
                  end)
       /\ (d !! "status" = Some "finished" ->
             tr = [ODo (QueuePut (url, MERGING 99%Q))])
       /\ (d !! "status" <> Some "downloading" ->
           d !! "status" <> Some "finished" -> tr = []).
Proof.
  assert (Hall : wp (hook url d) (fun tr r =>
       r = inr tt
       /\ (d !! "status" = Some "downloading" ->
             exists percent,
               tr = [ODo (QueuePut (url, PROGRESS percent))]
               /\ match py_float (Py.strip (Py.replace "%" ""
                                    (default "0%" (d !! "_percent_str")))) with
                  | Some x => percent = x
                  | None => percent = 0%Q
                  end)
       /\ (d !! "status" = Some "finished" ->
             tr = [ODo (QueuePut (url, MERGING 99%Q))])
       /\ (d !! "status" <> Some "downloading" ->
           d !! "status" <> Some "finished" -> tr = []))).
  { unfold hook. destruct (decide (d !! "status" = Some "downloading")) as [Hd|Hd].
    - cbn [wp act]. split; [reflexivity|]. split; [|split].
      + intros _. eexists. split; [reflexivity|].
        destruct (py_float _); reflexivity.
      + intros Hf. rewrite Hd in Hf. discriminate.
      + intros Hn. contradiction.
    - destruct (decide (d !! "status" = Some "finished")) as [Hf|Hf].
      + cbn [wp act]. split; [reflexivity|]. split; [|split].
        * intros H. contradiction.
        * reflexivity.
        * intros _ H. contradiction.
      + cbn [wp]. split; [reflexivity|]. split; [|split].
        * intros H. contradiction.
        * intros H. contradiction.
        * reflexivity. }
  split.
  - destruct (wp_holds_somewhere Hall) as (tr & r & Hr & -> & _). eauto.
  - intros tr r Hr. exact (runs_wp Hr Hall).
Qed.
End HookSpec.

(** ** Paths *)
Lemma eqb_slash_sym c : Ascii.eqb Py.slash c = Ascii.eqb c Py.slash.
Proof. apply Ascii.eqb_sym. Qed.

Lemma basename_plain s : Py.has_slash s = false -> Py.basename s = s.
Proof.
  unfold Py.has_slash. destruct s as [|c r]; [reflexivity|].
  cbn [Py.chars existsb Py.basename]. rewrite eqb_slash_sym.
  intros H. apply orb_false_elim in H as [Hc Hr]. now rewrite Hr, Hc.
Qed.

Lemma chars_append s t : Py.chars (s +:+ t) = Py.chars s ++ Py.chars t.
Proof.
  induction s as [|c s IH]; [reflexivity|].
  rewrite append_cons. simpl. now rewrite IH.
Qed.

Lemma ends_with_slash_has_slash s t :
  Py.ends_with_slash s = true -> Py.has_slash (s +:+ t) = true.
Proof.
  unfold Py.has_slash. induction s as [|c s IH]; [discriminate|].
  rewrite append_cons. cbn [Py.chars existsb]. intros H.
  destruct s as [|c' s'].
  - cbn in H. rewrite eqb_slash_sym, H. reflexivity.
  - rewrite IH; [apply orb_true_r|exact H].
Qed.

Lemma basename_after_slash a n :
  Py.ends_with_slash a = true -> Py.has_slash n = false ->
  Py.basename (a +:+ n) = n.
Proof.
  intros Ha Hn. induction a as [|c a IH]; [discriminate|].
  rewrite append_cons. cbn [Py.basename].
  destruct a as [|c' a'].
  - cbn in Ha. change (EmptyString +:+ n) with n.
    unfold Py.has_slash in Hn. now rewrite Hn, Ha.
  - fold (Py.has_slash (String c' a' +:+ n)).
    rewrite ends_with_slash_has_slash by exact Ha. apply IH. exact Ha.
Qed.

Lemma ends_with_slash_snoc a : Py.ends_with_slash (a +:+ "/") = true.
Proof.
  induction a as [|c a IH]; [reflexivity|].
  rewrite append_cons. destruct a as [|c' a']; [reflexivity|].
  exact IH.
Qed.

Lemma append_assoc (a b c : string) : (a +:+ b) +:+ c = a +:+ (b +:+ c).
Proof.
  induction a as [|x a IH]; [reflexivity|]. now rewrite !append_cons, IH.
Qed.

Lemma plain_not_absolute n : Py.has_slash n = false -> Py.starts_with "/" n = false.
Proof.
  unfold Py.has_slash. destruct n as [|c n]; [reflexivity|].
  cbn [Py.chars existsb Py.starts_with]. rewrite eqb_slash_sym. intros H.
  apply orb_false_elim in H as [Hc _].
  change (Ascii.eqb Py.slash c) with (Ascii.eqb (ascii_of_nat 47) c) in *.
  rewrite eqb_slash_sym. now rewrite Hc.
Qed.

(** A file placed directly in [dir] keeps its name. *)
Lemma basename_path_join dir name :
  Py.has_slash name = false -> Py.basename (Py.path_join dir name) = name.
Proof.
  intros Hn. unfold Py.path_join. rewrite plain_not_absolute by exact Hn.
  destruct dir as [|c dir]; [now apply basename_plain|].
  cbn [Py.truthy negb orb].
  destruct (Py.ends_with_slash (String c dir)) eqn:He.
  - now apply basename_after_slash.
  - rewrite <- append_assoc. apply basename_after_slash; [|exact Hn].
    apply ends_with_slash_snoc.
Qed.

Section Reloc.
Context {B : Builtins}.

(** Whatever the engine answers, the move goes from the prepared file name
    to [videoDir] joined with its base name. *)
Lemma move_of_prepared url vd td lf case tr r src dst :
  runs (processVideo url vd td lf case) tr r ->
  In (src, dst) (moves tr) ->
  prepared tr = [inr src] /\ dst = Py.path_join vd (Py.basename src).
Proof.
  intros Hr. apply processVideo_line in Hr.
  rewrite <- moves_main_line, <- prepared_main_line.
  revert Hr. generalize (main_line tr). intros l Hr.
  job_cases Hr; shown; cbn [In]; intros Hm;
    try contradiction; destruct Hm as [Hm|[]]; injection Hm as <- <-; auto.
Qed.

(** The output template puts the download directly in [videoDir]: the
    move's destination is its source. *)
Lemma relocation_in_place url vd td lf case tr r name src dst :
  runs (processVideo url vd td lf case) tr r ->
  Py.has_slash name = false ->
  prepared tr = [inr (Py.path_join vd name)] ->
  In (src, dst) (moves tr) ->
  src = Py.path_join vd name /\ dst = src.
Proof.
  intros Hr Hn Hp Hm. destruct (move_of_prepared Hr Hm) as [Hp' ->].
  rewrite Hp in Hp'. injection Hp' as <-.
  split; [reflexivity|]. now rewrite basename_path_join.
Qed.
End Reloc.

(* ===================================================================== *)
(** * The claims about one job *)
(* ===================================================================== *)

(** The claim that a hash mismatch reaches the observer fails.  The file
    read one byte short after the move: the digests differ, the row says
    HASH_MISMATCH, and the terminal event is the DONE event that a
    verified download puts. *)
Lemma mismatch_event_is_done : ~ @mismatch_event_claim Sample.builtins.
Proof.
  intros H.
  destruct (H _ _ _ _ _ _ _ "sha:video-bytes" "sha:video-byte"
              (exec_runs (Scenario.corrupting 14) Scenario.job_A 0))
    as (ev & Hev & Hm).
  - vm_compute. reflexivity.
  - vm_compute. reflexivity.
  - discriminate.
  - vm_compute in Hev. injection Hev as <-. exact Hm.
Qed.

(** C3, at a concrete download.  The engine honours the output template,
    which already lies in the videos directory: the file is hashed at
    [/cases/CASE007/Videos/CASE007_videoA.mp4], "moved" from that path to
    that same path, and hashed there again.  No relocation happens between
    the two digests. *)
Theorem relocation_moves_file_onto_itself :
  let tr := (exec Scenario.healthy 0 Scenario.job_A).1 in
  let path := "/cases/CASE007/Videos/CASE007_videoA.mp4" in
  prepared tr = [inr path]
  /\ moves tr = [(path, path)]
  /\ map fst (reads tr) = [path; path].
Proof. vm_compute. auto. Qed.


(** The claim that a thumbnail never changes how a job ends, and that
    the record marks a thumbnail that is missing, fails.  On the legacy
    script, which is the one that hashes thumbnails: the thumbnail was
    saved but cannot be read back, and the exception of
    [sha256Hash(thumbPath)] reaches the handler of the job, which ends
    FAILED although the video itself was fetched, hashed and moved
    without error; a thumbnail that cannot be fetched does not fail the
    job.  On [main.py], which does not hash thumbnails, the job ends DONE
    in both worlds, and when the thumbnail cannot be fetched it writes
    the very row that it writes when the thumbnail was saved: nothing in
    the record marks the thumbnail. *)
Theorem legacy_thumbnail_hash_failure_fails_job :
  let e := "PermissionError: [Errno 13] Permission denied" in
  terminals (exec Scenario.thumb_unreadable 0 Scenario.legacy_job_A).1
    = [(Scenario.url_A, FAILED e)]
  /\ primary_failures (exec Scenario.thumb_unreadable 0 Scenario.job_A).1 = []
  /\ terminals (exec Scenario.thumb_unreadable 0 Scenario.job_A).1
     = [(Scenario.url_A, DONE "sha:video-bytes")]
  /\ terminals (exec Scenario.thumb_unreachable 0 Scenario.legacy_job_A).1
     = [(Scenario.url_A, DONE "sha:video-bytes")]
  /\ terminals (exec Scenario.thumb_unreachable 0 Scenario.job_A).1
     = [(Scenario.url_A, DONE "sha:video-bytes")]
  /\ report_text Scenario.report
       (exec Scenario.thumb_unreachable 0 Scenario.job_A).1
     = report_text Scenario.report (exec Scenario.healthy 0 Scenario.job_A).1.
Proof. vm_compute. auto 10. Qed.

(** The witness of the isolation lemma of [main.py]: the thumbnail
    cannot be fetched. *)
Lemma thumbnail_failure_isolated_witness :
  (exec Scenario.thumb_unreachable 0 Scenario.job_A).2 = inr tt
  /\ exists h, terminals (exec Scenario.thumb_unreachable 0 Scenario.job_A).1
               = [(Scenario.url_A, DONE h)].
Proof.
  refine (@thumbnail_failure_isolated Sample.builtins _ _ _ _ _ _ _
            (exec_runs Scenario.thumb_unreachable Scenario.job_A 0) _).
  vm_compute. reflexivity.
Defined.

(* ===================================================================== *)
(** * [startCase] *)
(* ===================================================================== *)

Lemma all_obs_mono A (P P' : obs -> Prop) (p : prog A) :
  (forall o, P o -> P' o) -> all_obs P p -> all_obs P' p.
Proof.
  intros HP. induction p as [a|e|a k IH|X c k IH]; simpl; auto.
  - intros [H1 H2]. auto.
  - intros H x. destruct (H x). auto.
Qed.

Lemma all_obs_bind A C (P : obs -> Prop) (p : prog A) (f : A -> prog C) :
  all_obs P p -> (forall a, all_obs P (f a)) -> all_obs P (bind p f).
Proof.
  intros Hp Hf. induction p as [a|e|a k IH|X c k IH]; simpl in *; auto.
  - destruct Hp. auto.
  - intros x. destruct (Hp x). auto.
Qed.

Lemma all_obs_catch A (P : obs -> Prop) (p : prog A) h :
  all_obs P p -> (forall e, all_obs P (h e)) -> all_obs P (catch p h).
Proof.
  intros Hp Hh. induction p as [a|e|a k IH|X c k IH]; simpl in *; auto.
  - destruct Hp. auto.
  - intros x. destruct (Hp x). auto.
Qed.

Lemma all_obs_for_each X (P : obs -> Prop) (l : list X) (f : X -> prog unit) :
  (forall x, all_obs P (f x)) -> all_obs P (for_each l f).
Proof.
  intros Hf. induction l as [|x l IH]; simpl; [auto|].
  apply all_obs_bind; auto.
Qed.

Lemma all_obs_runs A (P : obs -> Prop) (p : prog A) tr r :
  all_obs P p -> runs p tr r -> Forall P tr.
Proof.
  intros Hp Hr. induction Hr; simpl in *; auto.
  - destruct Hp. constructor; auto.
  - destruct (Hp x). constructor; auto.
Qed.

Lemma all_obs_io X (P : obs -> Prop) (c : call (exn + X)) :
  (forall x, P (OCall c x)) -> all_obs P (io c).
Proof. intros H x. split; [apply H|]. destruct x; exact I. Qed.

Lemma all_obs_ask X (P : obs -> Prop) (c : call X) :
  (forall x, P (OCall c x)) -> all_obs P (ask c).
Proof. intros H x. split; [apply H|exact I]. Qed.

Lemma all_obs_act (P : obs -> Prop) a : P (ODo a) -> all_obs P (act a).
Proof. intros H. split; [exact H|exact I]. Qed.

Lemma all_obs_finally A (P : obs -> Prop) (p : prog A) q :
  all_obs P p -> all_obs P q -> all_obs P (finally p q).
Proof.
  intros Hp Hq. unfold finally. apply all_obs_bind.
  - apply all_obs_catch; [|intros; exact I].
    apply all_obs_bind; [exact Hp|intros; exact I].
  - intros r. apply all_obs_bind; [exact Hq|]. intros _. destruct r; exact I.
Qed.

Lemma all_obs_write_text (P : obs -> Prop) path s :
  (forall x, P (OCall (WriteText path s) x)) ->
  (forall c, P (ODo (FileWrite path c))) -> all_obs P (write_text path s).
Proof.
  intros Hf H. unfold write_text.
  apply all_obs_bind; [now apply all_obs_ask|]. intros [[n e]|].
  - apply all_obs_bind; [|intros; exact I].
    apply all_obs_for_each. intros c. apply all_obs_act, H.
  - apply all_obs_for_each. intros c. apply all_obs_act, H.
Qed.

Lemma all_obs_open_and_write (P : obs -> Prop) path mode text :
  (forall x, P (OCall (OpenText path mode) x)) ->
  P (ODo (FileTruncate path)) ->
  (forall s x, P (OCall (WriteText path s) x)) ->
  (forall c, P (ODo (FileWrite path c))) ->
  all_obs P text ->
  all_obs P (open_and_write path mode text).
Proof.
  intros Ho Ht Hf Hw Htext. unfold open_and_write.
  apply all_obs_bind; [now apply all_obs_io|]. intros _.
  apply all_obs_bind; [destruct mode; [now apply all_obs_act|exact I]|]. intros _.
  apply all_obs_bind; [exact Htext|]. intros s. now apply all_obs_write_text.
Qed.

Lemma wp_conj A (p : prog A) (Q1 Q2 : list obs -> exn + A -> Prop) :
  wp p Q1 -> wp p Q2 -> wp p (fun tr r => Q1 tr r /\ Q2 tr r).
Proof.
  intros H1 H2. apply wp_iff_runs. intros tr r Hr.
  split; [exact (runs_wp Hr H1)|exact (runs_wp Hr H2)].
Qed.

Lemma wp_all_obs A (P : obs -> Prop) (p : prog A) :
  all_obs P p -> wp p (fun tr _ => Forall P tr).
Proof. intros H. apply wp_iff_runs. intros tr r. now apply all_obs_runs. Qed.

Section StartCase.
Context {B : Builtins}.

Lemma utcStamp_setup : all_obs setup_obs utcStamp.
Proof. apply all_obs_ask. intros; exact I. Qed.

Lemma saveSetting_setup case threads dest :
  all_obs setup_obs (saveSetting case threads dest).
Proof.
  unfold saveSetting. apply all_obs_open_and_write; try (intros; exact I).
Qed.

Lemma checkIPaddress_loop_setup sources ips :
  all_obs setup_obs (checkIPaddress_loop sources ips).
Proof.
  revert ips. induction sources as [|url rest IH]; intros ips; simpl; [exact I|].
  intros x. split; [exact I|]. destruct x as [e|data]; simpl; [apply IH|].
  destruct (decode data); simpl; apply IH.
Qed.

Lemma checkIPaddress_loop_length sources ips :
  wp (checkIPaddress_loop sources ips)
     (fun _ r => exists l, r = inr l /\ length l = length ips + length sources).
Proof.
  revert ips. induction sources as [|url rest IH]; intros ips; simpl.
  - exists ips. split; [reflexivity|lia].
  - intros x.
    assert (Hnext : forall ip,
      wp (checkIPaddress_loop rest (ips ++ [ip]))
         (fun _ r => exists l, r = inr l
                     /\ length l = length ips + S (length rest))).
    { intros ip. eapply wp_mono; [|apply IH]. intros tr r (l & -> & Hl).
      exists l. split; [reflexivity|]. rewrite length_app in Hl. simpl in Hl. lia. }
    destruct x as [e|data]; simpl; [apply Hnext|].
    destruct (decode data); simpl; apply Hnext.
Qed.

Lemma checkIPaddress_two :
  wp checkIPaddress
     (fun tr r => Forall setup_obs tr /\ exists ip1 ip2, r = inr [ip1; ip2]).
Proof.
  apply wp_conj.
  - apply wp_all_obs, checkIPaddress_loop_setup.
  - eapply wp_mono; [|apply checkIPaddress_loop_length].
    intros tr r (l & -> & Hl). simpl in Hl.
    destruct l as [|a [|b [|c l]]]; try discriminate. eauto.
Qed.

Lemma createHTMLlog_setup log case ip1 ip2 st :
  all_obs setup_obs (createHTMLlog log case ip1 ip2 st).
Proof.
  unfold createHTMLlog. apply all_obs_open_and_write; try (intros; exact I).
  apply all_obs_bind; [apply utcStamp_setup|]. intros; exact I.
Qed.

(** A configuration without case number, without URL or without
    destination folder: an error box and nothing else. *)
Lemma blank_config_rejected (self : App) tr r :
  config_invalid self ->
  runs (startCase self) tr r ->
  (exists msg, tr = [ODo (ShowError "Error" msg)])
  /\ r = inr (self, None)
  /\ made_dirs tr = [] /\ opens tr = [] /\ submitted tr = []
  /\ thread_starts tr = [].
Proof.
  intros Hinv. revert tr r. apply wp_iff_runs. unfold startCase.
  assert (Hbox : forall msg,
    wp (_ <- act (ShowError "Error" msg);; Ret (self, @None exn))
       (fun tr r =>
          (exists msg, tr = [ODo (ShowError "Error" msg)])
          /\ r = inr (self, None)
          /\ made_dirs tr = [] /\ opens tr = [] /\ submitted tr = []
          /\ thread_starts tr = [])).
  { intros msg. simpl. repeat split; eauto. }
  destruct (Py.strip (caseEntry self)) as [|c0 case0] eqn:Hcase; [apply Hbox|].
  cbn [Py.truthy negb].
  destruct (entered_urls self) as [|u urls] eqn:Hurls; [apply Hbox|].
  cbn [negb].
  destruct (Py.strip (destinationEntry self)) as [|d0 dest0] eqn:Hdest;
    [apply Hbox|].
  exfalso. destruct Hinv as [H|[H|H]]; congruence.
Qed.


Lemma entered_threads_range (self : App) :
  (1 <= entered_threads self <= 32)%Z.
Proof. unfold entered_threads. destruct (py_int _); lia. Qed.

Lemma tree_insert_fresh url v t t' :
  tree_insert url v t = inr t' ->
  t' = t ++ [(url, v)] /\ ~ In url (map fst t).
Proof.
  unfold tree_insert. destruct (existsb _ _) eqn:He; [discriminate|].
  intros H. injection H as <-. split; [reflexivity|].
  intros Hin. apply not_true_iff_false in He. apply He.
  apply existsb_exists. exists url. split; [exact Hin|apply String.eqb_refl].
Qed.

(** The loop of [startCase]: the rows inserted and the jobs submitted are
    those of the URLs before the first repeated one. *)
Lemma tree_insert_known url v t e :
  tree_insert url v t = inl e ->
  In url (map fst t) /\ e = "Item " +:+ url +:+ " already exists".
Proof.
  unfold tree_insert. destruct (existsb _ _) eqn:He; [|discriminate].
  intros H. injection H as <-. split; [|reflexivity].
  apply existsb_exists in He as (k & Hk & He).
  apply String.eqb_eq in He. now subst k.
Qed.

Lemma submit_all_shape vd td lf case urls : forall self,
  wp (submit_all self vd td lf case urls)
     (fun tr r =>
        exists self' err sent,
          r = inr (self', err)
          /\ tr = map (submit_obs vd td lf case) sent
          /\ futures self' = futures self ++ map (fun u => JobArgs u vd td lf case) sent
          /\ tree self' = tree self ++ map queued_row sent
          /\ total_items self' = total_items self
          /\ done_items self' = done_items self
          /\ failed_items self' = failed_items self
          /\ (forall u, In u sent -> ~ In u (map fst (tree self)))
          /\ NoDup sent
          /\ match err with
             | None => sent = urls
             | Some e =>
                 exists u rest,
                   urls = sent ++ u :: rest
                   /\ In u (map fst (tree self) ++ sent)
                   /\ e = "Item " +:+ u +:+ " already exists"
             end).
Proof.
  induction urls as [|url rest IH]; intros self; simpl.
  - exists self, None, []. rewrite !app_nil_r.
    repeat split; auto; solve [intros u []|constructor].
  - destruct (tree_insert url _ (tree self)) as [e|t] eqn:Hins; simpl.
    + apply tree_insert_known in Hins as [Hin ->].
      exists self, (Some ("Item " +:+ url +:+ " already exists")), [].
      rewrite !app_nil_r.
      repeat split; auto;
        try solve [intros u []|constructor|discriminate].
      exists url, rest. auto.
    + apply tree_insert_fresh in Hins as [-> Hfresh].
      eapply wp_mono; [|apply IH].
      intros tr r (self' & err & sent & -> & -> & Hf & Ht & Htot & Hd & Hfl
                   & Hnew & Hnd & Herr).
      exists self', err, (url :: sent). simpl in *.
      rewrite <- !app_assoc in *. simpl in *.
      repeat split; auto.
      * intros u [<-|Hu]; [exact Hfresh|].
        intros Hin. apply (Hnew u Hu). rewrite map_app, in_app_iff. auto.
      * constructor; [|exact Hnd]. intros Hin. apply list_elem_of_In in Hin.
        apply (Hnew url Hin). rewrite map_app, in_app_iff. simpl. auto.
      * destruct err as [e|].
        -- destruct Herr as (u & rest' & -> & Hin & ->). exists u, rest'.
           repeat split; auto. rewrite map_app in Hin. simpl in Hin.
           rewrite !in_app_iff in *. simpl in *. tauto.
        -- now subst.
Qed.

Lemma wp_setup_bind A C (p : prog A) (f : A -> prog C)
    (R : A -> Prop) (Q : list obs -> exn + C -> Prop) :
  wp p (fun tr r => Forall setup_obs tr
                    /\ match r with inl _ => True | inr a => R a end) ->
  (forall tr e, Forall setup_obs tr -> Q tr (inl e)) ->
  (forall tr a, Forall setup_obs tr -> R a ->
                wp (f a) (fun tr' r' => Q (tr ++ tr') r')) ->
  wp (bind p f) Q.
Proof.
  intros Hp Hraise Hret. apply wp_bind. eapply wp_mono; [|exact Hp].
  intros tr [e|a] [Hs HR]; [now apply Hraise|now apply Hret].
Qed.

Lemma wp_setup A (p : prog A) :
  all_obs setup_obs p ->
  wp p (fun tr r => Forall setup_obs tr
                    /\ match r with inl _ => True | inr a => True end).
Proof.
  intros H. eapply wp_mono; [|apply (wp_all_obs H)].
  intros tr r Hs. split; [exact Hs|]. destruct r; exact I.
Qed.

Lemma updateCounts_counters (self : App) :
  total_items (updateCounts self) = total_items self
  /\ done_items (updateCounts self) = done_items self
  /\ failed_items (updateCounts self) = failed_items self
  /\ tree (updateCounts self) = tree self
  /\ statusBadge (updateCounts self) = statusBadge self
  /\ dialogs (updateCounts self) = dialogs self.
Proof.
  unfold updateCounts. cbn [total_items set_countLabel].
  destruct (0 <? total_items self); cbn; auto 10.
Qed.

Lemma startCase_accepted_shape (self : App) :
  wp (startCase_accepted self (Py.strip (caseEntry self)) (entered_threads self)
        (entered_urls self) (Py.strip (destinationEntry self)))
     (dispatch_shape self (entered_urls self)).
Proof.
  unfold startCase_accepted.
  eapply wp_setup_bind with (R := fun _ => True).
  { apply wp_setup, saveSetting_setup. }
  { intros tr e Hs. left. eauto. }
  intros tr1 _ Hs1 _.
  eapply wp_setup_bind with (R := fun _ => True).
  { apply wp_setup, all_obs_io. intros; exact I. }
  { intros tr e Hs. left. exists e. split; [reflexivity|].
    apply Forall_app. auto. }
  intros tr2 _ Hs2 _.
  eapply wp_setup_bind with (R := fun _ => True).
  { apply wp_setup, all_obs_io. intros; exact I. }
  { intros tr e Hs. left. exists e. split; [reflexivity|].
    rewrite !Forall_app. auto. }
  intros tr3 _ Hs3 _.
  eapply wp_setup_bind with (R := fun ips => exists ip1 ip2, ips = [ip1; ip2]).
  { eapply wp_mono; [|apply checkIPaddress_two].
    intros tr r [Hs Hr]. split; [exact Hs|].
    destruct r as [e|ips]; [exact I|].
    destruct Hr as (ip1 & ip2 & Hr). injection Hr as ->. eauto. }
  { intros tr e Hs. left. exists e. split; [reflexivity|].
    rewrite !Forall_app. auto. }
  intros tr4 ips Hs4 (ip1 & ip2 & ->).
  eapply wp_setup_bind with (R := fun _ => True).
  { apply wp_setup, createHTMLlog_setup. }
  { intros tr e Hs. left. exists e. split; [reflexivity|].
    rewrite !Forall_app. auto. }
  intros tr5 _ Hs5 _.
  pose proof (entered_threads_range self) as Hrange.
  destruct (Z.leb_spec (entered_threads self) 0) as [Hle|Hgt]; [lia|].
  cbn [bind act wp].
  apply wp_bind. eapply wp_mono; [|apply submit_all_shape].
  intros tr r (self' & err & sent & -> & -> & Hf & Ht & Htot & Hd & Hfl
               & _ & Hnd & Herr).
  simpl in Hf, Ht, Htot, Hd, Hfl.
  destruct (updateCounts_counters
              (set_counters (length (entered_urls self)) 0 0 self))
    as (Hu1 & Hu2 & Hu3 & _).
  rewrite Hu1 in Htot. rewrite Hu2 in Hd. rewrite Hu3 in Hfl.
  cbn in Htot, Hd, Hfl.
  assert (Hsetup : Forall setup_obs ((((tr1 ++ tr2) ++ tr3) ++ tr4) ++ tr5)).
  { rewrite !Forall_app. auto. }
  assert (Hmap : map (submit_obs
                        (Py.path_join (Py.path_join (Py.strip (destinationEntry self))
                                         (Py.strip (caseEntry self))) "Videos")
                        (Py.path_join (Py.path_join (Py.strip (destinationEntry self))
                                         (Py.strip (caseEntry self))) "Thumbnails")
                        (case_report self) (Py.strip (caseEntry self))) sent
                 = map (fun j => ODo (ExecutorSubmit j)) (case_jobs self sent)).
  { unfold case_jobs. rewrite map_map. reflexivity. }
  destruct err as [e|]; cbn [wp bind act].
  - right. exists ((((tr1 ++ tr2) ++ tr3) ++ tr4) ++ tr5), self', (Some e), sent.
    split; [exact Hsetup|]. split.
    { fold (case_report self). rewrite Hmap, !app_nil_r, <- !app_assoc.
      reflexivity. }
    repeat split; auto.
  - right. exists ((((tr1 ++ tr2) ++ tr3) ++ tr4) ++ tr5), self', None, sent.
    split; [exact Hsetup|]. split.
    { fold (case_report self). rewrite Hmap, <- !app_assoc. reflexivity. }
    repeat split; auto.
Qed.


Lemma startCase_shape (self : App) :
  wp (startCase self)
     (fun tr r =>
        (config_invalid self
         /\ (exists msg, tr = [ODo (ShowError "Error" msg)])
         /\ r = inr (self, None))
        \/ (~ config_invalid self
            /\ dispatch_shape self (entered_urls self) tr r)).
Proof.
  apply wp_iff_runs. intros tr r Hr.
  assert (Hrej : config_invalid self ->
    config_invalid self
    /\ (exists msg, tr = [ODo (ShowError "Error" msg)])
    /\ r = inr (self, None)).
  { intros Hinv. destruct (blank_config_rejected Hinv Hr) as (Hmsg & -> & _).
    auto. }
  destruct (Py.truthy (Py.strip (caseEntry self))) eqn:Hcase.
  2: { left. apply Hrej. left. now destruct (Py.strip (caseEntry self)). }
  destruct (entered_urls self) as [|u urls] eqn:Hurls.
  { left. apply Hrej. right. left. exact Hurls. }
  destruct (Py.truthy (Py.strip (destinationEntry self))) eqn:Hdest.
  2: { left. apply Hrej. right. right.
       now destruct (Py.strip (destinationEntry self)). }
  right. split.
  { intros [Hi|[Hi|Hi]]; [rewrite Hi in Hcase|rewrite Hi in Hurls
                          |rewrite Hi in Hdest]; discriminate. }
  unfold startCase in Hr. rewrite Hcase, Hurls, Hdest in Hr.
  cbn [negb] in Hr. rewrite <- Hurls in *.
  exact (runs_wp Hr (startCase_accepted_shape self)).
Qed.

Lemma flat_map_setup T (f : obs -> list T) tr :
  (forall o, setup_obs o -> f o = []) ->
  Forall setup_obs tr -> flat_map f tr = [].
Proof.
  intros Hf Hs. induction Hs as [|o tr Ho _ IH]; [reflexivity|].
  simpl. now rewrite (Hf o Ho), IH.
Qed.

Ltac setup_blind :=
  let o := fresh "o" in
  intros o; destruct o as [[]|? []]; simpl; try reflexivity; intros [].

Lemma executors_setup tr : Forall setup_obs tr -> executors tr = [].
Proof. apply flat_map_setup. setup_blind. Qed.

Lemma submitted_setup tr : Forall setup_obs tr -> submitted tr = [].
Proof. apply flat_map_setup. setup_blind. Qed.

Lemma thread_starts_setup tr : Forall setup_obs tr -> thread_starts tr = [].
Proof. apply flat_map_setup. setup_blind. Qed.

Lemma puts_setup tr : Forall setup_obs tr -> puts tr = [].
Proof. apply flat_map_setup. setup_blind. Qed.

Lemma flat_map_submits T (f : obs -> list T) (g : job_args -> list T) js :
  (forall j, f (ODo (ExecutorSubmit j)) = g j) ->
  flat_map f (map (fun j => ODo (ExecutorSubmit j)) js) = flat_map g js.
Proof.
  intros Hf. induction js as [|j js IH]; [reflexivity|].
  simpl. now rewrite Hf, IH.
Qed.

Lemma flat_map_nil_fun T U (l : list T) : flat_map (fun _ => @nil U) l = [].
Proof. induction l; auto. Qed.

Lemma flat_map_singleton T (l : list T) : flat_map (fun x => [x]) l = l.
Proof. induction l as [|x l IH]; [reflexivity|]. simpl. now rewrite IH. Qed.

Lemma split_after_setup setup rest pre j post :
  Forall setup_obs setup ->
  setup ++ rest = pre ++ ODo (ExecutorSubmit j) :: post ->
  exists pre', pre = setup ++ pre' /\ rest = pre' ++ ODo (ExecutorSubmit j) :: post.
Proof.
  intros Hs. revert pre. induction Hs as [|o setup Ho _ IH]; intros pre Heq.
  - exists pre. auto.
  - destruct pre as [|p pre]; simpl in Heq.
    + injection Heq as -> _. destruct Ho.
    + injection Heq as -> Heq. destruct (IH pre Heq) as (pre' & -> & ->).
      exists pre'. auto.
Qed.

(** C5.  The pool is created with the number of workers that [startCase]
    computes from the spin box: the requested number clamped into
    [1, 32] (4 when the entry is not a number).  It is created before any
    job is submitted. *)
Theorem worker_count_clamped (self : App) tr r :
  runs (startCase self) tr r ->
  (forall n, In n (executors tr) ->
     n = entered_threads self
     /\ (1 <= n <= 32)%Z
     /\ (forall m, py_int (threadPicker self) = Some m ->
                   n = Z.max 1 (Z.min 32 m)))
  /\ (forall pre j post,
        tr = pre ++ ODo (ExecutorSubmit j) :: post ->
        In (entered_threads self) (executors pre)).
Proof.
  intros Hr. pose proof (runs_wp Hr (startCase_shape self)) as H.
  assert (Hn : forall n, n = entered_threads self ->
     n = entered_threads self
     /\ (1 <= n <= 32)%Z
     /\ (forall m, py_int (threadPicker self) = Some m ->
                   n = Z.max 1 (Z.min 32 m))).
  { intros n ->. split; [reflexivity|]. split; [apply entered_threads_range|].
    intros m Hm. unfold entered_threads. now rewrite Hm. }
  destruct H as [(_ & (msg & ->) & _) | (_ & [(e & -> & Hs) | H])].
  - split; [intros n []|]. intros [|p pre] j post Heq; [discriminate|].
    destruct pre; discriminate.
  - split.
    + intros n. rewrite (executors_setup Hs). intros [].
    + intros pre j post ->. exfalso.
      apply Forall_app in Hs as [_ Hs]. inversion Hs as [|? ? Ho _]. destruct Ho.
  - destruct H as (setup & self' & err & sent & Hs & -> & _).
    split.
    + intros n. unfold executors. rewrite flat_map_app.
      fold (executors setup). rewrite (executors_setup Hs).
      cbn [app flat_map executor_of]. rewrite flat_map_app.
      rewrite (flat_map_submits (g := fun _ => [])) by reflexivity.
      rewrite flat_map_nil_fun. destruct err; cbn; intros [<-|[]]; now apply Hn.
    + intros pre j post Heq.
      destruct (split_after_setup Hs Heq) as (pre' & -> & Heq').
      destruct pre' as [|p pre']; [discriminate|]. injection Heq' as <- _.
      unfold executors. rewrite flat_map_app. apply in_app_iff. right.
      simpl. auto.
Qed.

End StartCase.

Section StartCaseRuns.
#[local] Existing Instance Sample.builtins.

(** The witness of C5: 64 workers were asked for. *)
Lemma worker_count_clamped_witness :
  let run := exec Scenario.healthy 0 (startCase Scenario.app_two) in
  executors run.1 = [32%Z]
  /\ (forall n, In n (executors run.1) ->
        n = entered_threads Scenario.app_two
        /\ (1 <= n <= 32)%Z
        /\ (forall m, py_int (threadPicker Scenario.app_two) = Some m ->
                      n = Z.max 1 (Z.min 32 m)))
  /\ (forall pre j post,
        run.1 = pre ++ ODo (ExecutorSubmit j) :: post ->
        In (entered_threads Scenario.app_two) (executors pre)).
Proof.
  split; [vm_compute; reflexivity|].
  exact (@worker_count_clamped Sample.builtins Scenario.app_two _ _
           (exec_runs Scenario.healthy (startCase Scenario.app_two) 0)).
Defined.

End StartCaseRuns.

(* ===================================================================== *)
(** * Every job keeps the lock discipline *)
(* ===================================================================== *)

Lemma mon_run_app lf m tr tr' :
  mon_run lf m (tr ++ tr')
  = match mon_run lf m tr with
    | Some m1 => mon_run lf m1 tr'
    | None => None
    end.
Proof.
  revert m. induction tr as [|o tr IH]; intros m; simpl; [reflexivity|].
  destruct (mon_step lf m o); [apply IH|reflexivity].
Qed.

Lemma mon_step_side lf m o : is_side o = true -> mon_step lf m o = Some m.
Proof.
  destruct m as [h p s t].
  destruct o as [[[u []]| | | | | | | | ]|X []]; simpl; try discriminate;
    intros _; try reflexivity; now rewrite app_nil_r.
Qed.

Lemma mon_run_main_line lf tr : forall m,
  mon_run lf m (main_line tr) = mon_run lf m tr.
Proof.
  induction tr as [|o tr IH]; intros m; [reflexivity|].
  unfold main_line in *. simpl. destruct (is_side o) eqn:Hs; simpl.
  - rewrite (mon_step_side lf m Hs). apply IH.
  - destruct (mon_step lf m o); [apply IH|reflexivity].
Qed.

Lemma mon_run_row_writes lf row secs terms : forall pend,
  mon_run lf (Mon true pend secs terms) (row_writes lf row)
  = Some (Mon true (pend ++ Py.chars row) secs terms).
Proof.
  unfold row_writes. induction (Py.chars row) as [|c l IH]; intros pend; simpl.
  - now rewrite app_nil_r.
  - rewrite String.eqb_refl. simpl. rewrite IH, <- app_assoc. reflexivity.
Qed.

Lemma mon_run_locked_append lf stamp row secs terms :
  mon_run lf (Mon false [] secs terms) (locked_append lf stamp row)
  = Some (Mon false [] (secs ++ [row]) terms).
Proof.
  unfold locked_append. cbn [app mon_run mon_step m_hold m_sections m_terms].
  rewrite mon_run_app, mon_run_row_writes. cbn. now rewrite of_chars_chars.
Qed.

Lemma mon_run_cut_append lf stamp row n e secs terms :
  mon_run lf (Mon false [] secs terms) (cut_append lf stamp row n e)
  = Some (Mon false [] (secs ++ [cut n row]) terms).
Proof.
  unfold cut_append. cbn [app mon_run mon_step m_hold m_sections m_terms].
  rewrite mon_run_app, mon_run_row_writes. cbn. now rewrite of_chars_chars.
Qed.

Lemma mon_run_failed_open lf e secs terms :
  mon_run lf (Mon false [] secs terms) (failed_open lf e)
  = Some (Mon false [] (secs ++ [EmptyString]) terms).
Proof. reflexivity. Qed.

(** What the watcher has seen only grows. *)
Lemma mon_step_grows lf m o m' :
  mon_step lf m o = Some m' ->
  (exists s, m_sections m' = m_sections m ++ s)
  /\ (exists t, m_terms m' = m_terms m ++ t).
Proof.
  assert (Hnil : forall T (l : list T), exists s, l = l ++ s).
  { intros T l. exists []. now rewrite app_nil_r. }
  destruct o as [[ev| | |path|path c| | | | ]|X c x]; simpl;
    try discriminate;
    try (destruct (m_hold m); try discriminate);
    try (destruct (String.eqb path lf); try discriminate);
    intros H; injection H as <-; simpl; split; eauto.
Qed.

Lemma mon_run_grows lf tr : forall m m',
  mon_run lf m tr = Some m' ->
  (exists s, m_sections m' = m_sections m ++ s)
  /\ (exists t, m_terms m' = m_terms m ++ t).
Proof.
  induction tr as [|o tr IH]; intros m m'; simpl.
  - intros H. injection H as <-. split; exists []; now rewrite app_nil_r.
  - destruct (mon_step lf m o) as [m1|] eqn:H1; [|discriminate]. intros H.
    destruct (mon_step_grows H1) as [[s1 Hs1] [t1 Ht1]].
    destruct (IH _ _ H) as [[s2 Hs2] [t2 Ht2]].
    rewrite Hs2, Hs1, Ht2, Ht1, <- !app_assoc. eauto.
Qed.

Ltac is_a_row :=
  lazymatch goal with
  | |- is_row _ (video_row _ _ _ _ _ _ _ _ _) =>
      left; eexists _, _, _, _, _, _, _; reflexivity
  | |- is_row _ (failed_row _ _ _) => right; eexists _, _; reflexivity
  end.

Ltac is_row_for :=
  split; [reflexivity|]; cbn [snd];
  lazymatch goal with
  | |- exists _, _ = failed_row _ _ _ => eexists; reflexivity
  | |- _ => eexists _, _, _, _, _, _; reflexivity
  end.

Ltac section_ok :=
  lazymatch goal with
  | |- EmptyString = EmptyString \/ _ => left; reflexivity
  | |- _ => right; is_a_row
  end.

Lemma cut_rest n s : s = cut n s +:+ Py.of_chars (drop n (Py.chars s)).
Proof.
  unfold cut. rewrite <- string_of_chars_app, take_drop.
  symmetry. apply of_chars_chars.
Qed.

Section RowStarts.
Context {B : Builtins}.

Lemma video_row_nonempty stamp thumb href title name url css status hash :
  nonempty (video_row stamp thumb href title name url css status hash) = true.
Proof. reflexivity. Qed.

Lemma failed_row_nonempty stamp url e : nonempty (failed_row stamp url e) = true.
Proof. reflexivity. Qed.

Lemma is_row_nonempty url s : is_row url s -> nonempty s = true.
Proof.
  intros [(stamp & thumb & href & title & name & h1 & h2 & ->)
         |(stamp & e & ->)]; reflexivity.
Qed.

Lemma row_start_whole url row : is_row url row -> row_start url row.
Proof. intros H. exists row, EmptyString. now rewrite append_empty_r. Qed.

Lemma row_start_cut url n row : is_row url row -> row_start url (cut n row).
Proof. intros H. exists row, (Py.of_chars (drop n (Py.chars row))). split; [exact H|apply cut_rest]. Qed.

Lemma row_start_empty url : row_start url EmptyString.
Proof.
  exists (failed_row EmptyString url EmptyString), (failed_row EmptyString url EmptyString).
  split; [right; eexists _, _; reflexivity|reflexivity].
Qed.


Lemma row_for_is_row url ev row : row_for url ev row -> is_row url row.
Proof.
  intros [_ H]. destruct (ev.2); try contradiction.
  - destruct H as (stamp & thumb & href & title & name & h1 & ->).
    left. eexists _, _, _, _, _, _, _. reflexivity.
  - destruct H as (stamp & ->). right. eexists _, _. reflexivity.
Qed.

End RowStarts.

Ltac section_start :=
  lazymatch goal with
  | |- row_start _ EmptyString => apply row_start_empty
  | |- row_start _ (cut _ _) => apply row_start_cut; is_a_row
  | |- row_start _ _ => apply row_start_whole; is_a_row
  end.

Section Discipline.
Context {B : Builtins}.

(** The watcher accepts the main line of every run of a job, and sees it
    end as [job_end] says, and as [whole_end] says when no write
    failed. *)
Lemma job_line_watched url vd td lf case l r :
  job_line url vd td lf case l r ->
  exists m, mon_run lf mon0 l = Some m
            /\ job_end url m r
            /\ (write_failures l = [] -> whole_end url m r).
Proof.
  intros H. unfold mon0.
  job_cases H;
    repeat first
      [ progress cbn [app mon_run mon_step m_hold m_pending m_sections m_terms
                      terminal_of]
      | rewrite mon_run_app
      | rewrite mon_run_locked_append
      | rewrite mon_run_cut_append
      | rewrite mon_run_failed_open ];
    eexists; (split; [reflexivity|]);
    unfold job_end, whole_end; cbn [m_hold m_pending m_sections m_terms];
    (split;
     [ split; [reflexivity|]; split; [reflexivity|];
       split;
       [ repeat (constructor; [section_start|]); constructor
       | lazymatch goal with
         | |- exists _ _, _ =>
             eexists _, _; (split; [reflexivity|]);
             (split; [|reflexivity]); is_row_for
         | |- _ => reflexivity
         end ]
     | shown; intros Hw; try discriminate Hw;
       (split;
        [ repeat (constructor; [section_ok|]); constructor
        | reflexivity ]) ]).
Qed.

Lemma job_run_watched (j : job_args) tr r :
  runs (run_job j) tr r ->
  exists m, mon_run (j_logFile j) mon0 tr = Some m
            /\ job_end (j_url j) m r
            /\ (write_failures tr = [] -> whole_end (j_url j) m r).
Proof.
  intros Hr. apply processVideo_line in Hr.
  destruct (job_line_watched Hr) as (m & Hm & He & Hw).
  exists m. rewrite <- mon_run_main_line, <- write_failures_main_line. auto.
Qed.

(** Every program can run to its end without a failed write. *)
Lemma runs_exists_whole A (p : prog A) :
  exists tr r, runs p tr r /\ write_failures tr = [].
Proof.
  exists (exec silent 0 p).1, (exec silent 0 p).2.
  split; [apply exec_runs|]. generalize 0.
  induction p as [a|e|a k IH|X c k IH]; intros t; cbn [exec];
    try reflexivity.
  - specialize (IH (S t)). destruct (exec silent (S t) k) as [tr r].
    exact IH.
  - specialize (IH (silent t c) (S t)).
    destruct (exec silent (S t) (k (silent t c))) as [tr r].
    unfold write_failures in *. cbn [flat_map fst] in *. rewrite IH.
    destruct c; reflexivity.
Qed.

Lemma rows_of_app a b : rows_of (a ++ b) = rows_of a ++ rows_of b.
Proof. apply List.filter_app. Qed.

(** What is left of a job after [tr]: the watcher has accepted [tr]. *)
Lemma residual_watched (j : job_args) tr p :
  residual (run_job j) tr p ->
  exists m, mon_run (j_logFile j) mon0 tr = Some m
            /\ Forall (row_start (j_url j)) (m_sections m)
            /\ length (m_terms m) <= 1
            /\ Forall (fun ev => ev.1 = j_url j) (m_terms m)
            /\ (write_failures tr = [] ->
                  Forall (fun s => s = EmptyString \/ is_row (j_url j) s)
                         (m_sections m)
                  /\ length (rows_of (m_sections m)) <= 1).
Proof.
  intros Hres. destruct (runs_exists_whole p) as (tr' & r & Hr & Hnone).
  destruct (job_run_watched (Hres _ _ Hr)) as (m & Hm & He & Hwhole).
  rewrite mon_run_app in Hm.
  destruct (mon_run (j_logFile j) mon0 tr) as [m1|] eqn:H1; [|discriminate].
  exists m1. split; [reflexivity|].
  destruct (mon_run_grows Hm) as [[s Hs] [t Ht]].
  destruct He as (_ & _ & Hsec & Hend).
  split; [rewrite Hs in Hsec; now apply Forall_app in Hsec as [Hsec _]|].
  assert (Hterms : length (m_terms m) <= 1
                   /\ Forall (fun ev => ev.1 = j_url j) (m_terms m)).
  { destruct r as [e|[]].
    - rewrite Hend. simpl. auto.
    - destruct Hend as (row & ev & _ & [Hev _] & ->). simpl. auto. }
  destruct Hterms as [Hr2 Hr3]. rewrite Ht in Hr2, Hr3.
  rewrite length_app in Hr2. apply Forall_app in Hr3 as [Hr3 _].
  split; [lia|]. split; [exact Hr3|].
  intros Hw. destruct Hwhole as [Hall Hrows].
  { unfold write_failures in *. now rewrite flat_map_app, Hw, Hnone. }
  rewrite Hs in Hall. apply Forall_app in Hall as [Hall _].
  split; [exact Hall|].
  assert (Hlen : length (rows_of (m_sections m)) <= 1).
  { destruct r as [e|[]]; [rewrite Hrows; simpl|rewrite Hrows]; lia. }
  rewrite Hs, rows_of_app, length_app in Hlen. lia.
Qed.

End Discipline.

(* ===================================================================== *)
(** * The pool keeps its invariant *)
(* ===================================================================== *)

Lemma concat_map_insert T (f : thread -> list T) ths i th th' x :
  ths !! i = Some th ->
  f th' = f th ++ x ->
  concat (map f (<[i := th']> ths)) ≡ₚ concat (map f ths) ++ x.
Proof.
  revert i. induction ths as [|t ths IH]; intros i Hi Hf; [discriminate|].
  destruct i as [|i]; simpl in *.
  - injection Hi as ->. rewrite Hf, <- !app_assoc.
    apply Permutation_app_head, Permutation_app_comm.
  - rewrite (IH i Hi Hf), <- app_assoc. reflexivity.
Qed.

Lemma concat_map_insert_same T (f : thread -> list T) ths i th th' :
  ths !! i = Some th ->
  f th' = f th ->
  concat (map f (<[i := th']> ths)) = concat (map f ths).
Proof.
  revert i. induction ths as [|t ths IH]; intros i Hi Hf; [discriminate|].
  destruct i as [|i]; simpl in *.
  - injection Hi as ->. now rewrite Hf.
  - now rewrite (IH i Hi Hf).
Qed.

Lemma concat_text_app a b : concat_text (a ++ b) = concat_text a +:+ concat_text b.
Proof.
  induction a as [|s a IH]; [reflexivity|].
  simpl. now rewrite IH, append_assoc.
Qed.

Lemma residual_do A (p0 : prog A) tr a k :
  residual p0 tr (Do a k) -> residual p0 (tr ++ [ODo a]) k.
Proof.
  intros H tr' r Hr. rewrite <- app_assoc. apply H. now constructor.
Qed.

Lemma residual_call A X (p0 : prog A) tr (c : call X) k x :
  residual p0 tr (Call c k) -> residual p0 (tr ++ [OCall c x]) (k x).
Proof.
  intros H tr' r Hr. rewrite <- app_assoc. apply H. now constructor.
Qed.

Lemma residual_start A (p0 : prog A) : residual p0 [] p0.
Proof. intros tr r Hr. exact Hr. Qed.

Lemma watch_snoc lf p tr k o :
  watch lf (Thread k (tr ++ [o]))
  = match watch lf (Thread p tr) with
    | Some m => mon_step lf m o
    | None => None
    end.
Proof.
  unfold watch. simpl. rewrite mon_run_app.
  destruct (mon_run lf mon0 tr) as [m|]; [|reflexivity].
  simpl. now destruct (mon_step lf m o).
Qed.

Lemma puts_snoc tr o : puts (tr ++ [o]) = puts tr ++ put_of o.
Proof. unfold puts. rewrite flat_map_app. simpl. now rewrite app_nil_r. Qed.

Lemma file_text_insert lf s q l files :
  file_text lf (World q l (<[lf := s]> files)) = s.
Proof. unfold file_text. simpl. now rewrite lookup_insert_eq. Qed.


Lemma sections_of_watch lf th m : watch lf th = Some m -> sections_of lf th = m_sections m.
Proof. unfold sections_of. now intros ->. Qed.

Lemma pending_of_watch lf th m : watch lf th = Some m -> pending_of lf th = m_pending m.
Proof. unfold pending_of. now intros ->. Qed.

Section PoolInvariant.
Context {B : Builtins}.
Variables (lf : string) (jobs : list job_args) (w0 : world).
Hypothesis same_report : Forall (fun j => j_logFile j = lf) jobs.

Lemma lock_transfer (p : pool) i th th' m' w' :
  pool_inv lf jobs w0 p ->
  threads p !! i = Some th ->
  watch lf th' = Some m' ->
  (m_hold m' = true <-> w_lock w' = Some i) ->
  (forall i', i' <> i -> (w_lock (shared p) = Some i' <-> w_lock w' = Some i')) ->
  forall i' th'', threads (set_thread i th' w' p) !! i' = Some th'' ->
    exists m'', watch lf th'' = Some m''
                /\ (m_hold m'' = true <-> w_lock (shared (set_thread i th' w' p)) = Some i').
Proof.
  intros Hinv Hth Hm' L1 L2 i' th'' Hlook. simpl in *.
  destruct (decide (i' = i)) as [->|Hne].
  - rewrite list_lookup_insert_eq in Hlook by (eapply lookup_lt_Some; eauto).
    injection Hlook as <-. eauto.
  - rewrite list_lookup_insert_ne in Hlook by auto.
    destruct (inv_lock Hinv Hlook) as (m'' & Hm'' & Hl).
    exists m''. split; [exact Hm''|]. rewrite Hl. now apply L2.
Qed.

Lemma pend_transfer (ths : list thread) i th th' (lock : option nat) pend :
  ths !! i = Some th ->
  pending_of lf th' = pending_of lf th ->
  match lock with
  | None => pend = []
  | Some h => exists th0, ths !! h = Some th0 /\ pend = pending_of lf th0
  end ->
  match lock with
  | None => pend = []
  | Some h => exists th0, <[i := th']> ths !! h = Some th0
                          /\ pend = pending_of lf th0
  end.
Proof.
  intros Hth Hp. destruct lock as [h|]; [|auto]. intros (th0 & Hh & ->).
  destruct (decide (h = i)) as [->|Hne].
  - rewrite list_lookup_insert_eq by (eapply lookup_lt_Some; eauto).
    exists th'. split; [reflexivity|]. rewrite Hp. congruence.
  - rewrite list_lookup_insert_ne by auto. eauto.
Qed.

(** A step that the watcher of the thread accepts keeps the invariant. *)
Lemma pool_inv_update (p : pool) i th k j o w' :
  pool_inv lf jobs w0 p ->
  threads p !! i = Some th ->
  jobs !! i = Some j ->
  residual (run_job j) (th_trace th ++ [o]) k ->
  all_obs (own_obs (j_url j)) k ->
  world_step i o (shared p) w' ->
  pool_inv lf jobs w0 (set_thread i (Thread k (th_trace th ++ [o])) w' p).
Proof.
  intros Hinv Hth Hj Hres Hown Hw.
  set (th' := Thread k (th_trace th ++ [o])).
  assert (Hi : i < length (threads p)) by (eapply lookup_lt_Some; eauto).
  assert (Hjlf : j_logFile j = lf).
  { rewrite Forall_lookup in same_report. exact (same_report _ _ Hj). }
  destruct (inv_lock Hinv Hth) as (m & Hm & Hlock).
  destruct (residual_watched Hres) as (m' & Hm' & _).
  rewrite Hjlf in Hm'.
  assert (Hwatch' : watch lf th' = Some m') by exact Hm'.
  assert (Hstep : mon_step lf m o = Some m').
  { destruct th as [pth trth]. unfold th' in Hwatch'. simpl in Hwatch'.
    rewrite (watch_snoc lf pth), Hm in Hwatch'. exact Hwatch'. }
  assert (Hlen : length (threads (set_thread i th' w' p)) = length jobs).
  { simpl. rewrite length_insert. apply (inv_length Hinv). }
  assert (Hjobs : forall i0 th0 j0,
    threads (set_thread i th' w' p) !! i0 = Some th0 -> jobs !! i0 = Some j0 ->
    residual (run_job j0) (th_trace th0) (th_prog th0)
    /\ all_obs (own_obs (j_url j0)) (th_prog th0)).
  { intros i0 th0 j0 Hl0 Hj0. simpl in Hl0.
    destruct (decide (i0 = i)) as [->|Hne].
    - rewrite list_lookup_insert_eq in Hl0 by exact Hi. injection Hl0 as <-.
      assert (j0 = j) by congruence. subst j0. simpl. auto.
    - rewrite list_lookup_insert_ne in Hl0 by auto.
      exact (inv_jobs Hinv Hl0 Hj0). }
  assert (Hholder : forall h, w_lock (shared p) = Some h ->
                    h < length (<[i := th']> (threads p))).
  { intros h Hh. rewrite length_insert. exact (inv_holder Hinv Hh). }
  destruct (inv_file Hinv) as (secs & pend & Hfile & Hperm & Hpend).
  pose proof (inv_queue Hinv) as Hq.
  pose proof (sections_of_watch Hm) as Hsec.
  pose proof (sections_of_watch Hwatch') as Hsec'.
  pose proof (pending_of_watch Hm) as Hpen.
  pose proof (pending_of_watch Hwatch') as Hpen'.
  destruct o as [[ev| | |path|path c| | | | ]|X c x]; simpl in Hstep, Hw;
    try discriminate.
  - (* UIQueue.put *)
    injection Hw as <-. injection Hstep as <-. simpl in *.
    constructor; auto.
    + eapply lock_transfer; eauto; simpl; tauto.
    + exists secs, pend. simpl. split; [exact Hfile|]. split.
      * rewrite (concat_map_insert_same (f := sections_of lf) (th' := th') Hth)
          by congruence. exact Hperm.
      * eapply pend_transfer; eauto. congruence.
    + simpl. rewrite Hq, <- app_assoc.
      rewrite (concat_map_insert (f := fun th => puts (th_trace th))
                 (th' := th') (x := [ev]) Hth); [reflexivity|].
      simpl. apply puts_snoc.
  - (* acquire *)
    destruct (w_lock (shared p)) as [h|] eqn:Hl; [discriminate|].
    injection Hw as <-.
    destruct (m_hold m) eqn:Hh; [discriminate|]. injection Hstep as <-.
    simpl in *.
    constructor; auto.
    + eapply lock_transfer; eauto; simpl; [tauto|].
      intros i' Hne. rewrite Hl. split; [discriminate|]. intros H'.
      injection H' as ->. contradiction.
    + simpl. intros h H'. injection H' as <-. now rewrite length_insert.
    + exists secs, pend. simpl. split; [exact Hfile|]. split.
      * rewrite (concat_map_insert_same (f := sections_of lf) (th' := th') Hth)
          by congruence. exact Hperm.
      * exists th'. rewrite list_lookup_insert_eq by exact Hi.
        split; [reflexivity|]. rewrite Hpen'. exact Hpend.
    + simpl. rewrite Hq.
      rewrite (concat_map_insert_same (f := fun th => puts (th_trace th))
                 (th' := th') Hth); [reflexivity|].
      simpl. rewrite puts_snoc. apply app_nil_r.
  - (* release *)
    destruct (w_lock (shared p)) as [h|] eqn:Hl; [|discriminate].
    injection Hw as <-.
    destruct (m_hold m) eqn:Hh; [|discriminate]. injection Hstep as <-.
    assert (h = i) as -> by (destruct Hlock as [Hlock _];
                             specialize (Hlock eq_refl); congruence).
    simpl in *.
    destruct Hpend as (th0 & Hth0 & ->).
    assert (th0 = th) as -> by congruence.
    constructor; auto.
    + eapply lock_transfer; eauto; simpl.
      * split; discriminate.
      * intros i' Hne. rewrite Hl. split; [|discriminate]. intros H'.
        injection H' as ->. contradiction.
    + simpl. discriminate.
    + exists (secs ++ [Py.of_chars (pending_of lf th)]), []. simpl.
      split.
      * change (file_text lf (shared p) = file_text lf w0 +:+
                  concat_text (secs ++ [Py.of_chars (pending_of lf th)]) +:+
                  Py.of_chars []).
        rewrite Hfile, concat_text_app. simpl.
        now rewrite !append_empty_r.
      * split; [|reflexivity].
        rewrite (concat_map_insert (f := sections_of lf) (th' := th')
                   (x := [Py.of_chars (pending_of lf th)]) Hth).
        -- now apply Permutation_app_tail.
        -- rewrite Hsec', Hsec, Hpen. reflexivity.
    + simpl. rewrite Hq.
      rewrite (concat_map_insert_same (f := fun th => puts (th_trace th))
                 (th' := th') Hth); [reflexivity|].
      simpl. rewrite puts_snoc. apply app_nil_r.
  - (* one character of a row *)
    injection Hw as <-.
    destruct (m_hold m) eqn:Hh; [|discriminate].
    destruct (String.eqb_spec path lf) as [->|]; [|discriminate].
    injection Hstep as <-.
    assert (Hl : w_lock (shared p) = Some i) by (now apply Hlock).
    rewrite Hl in Hpend. destruct Hpend as (th0 & Hth0 & ->).
    assert (th0 = th) as -> by congruence.
    simpl in *.
    constructor; auto.
    + eapply lock_transfer; eauto; simpl; tauto.
    + exists secs, (pending_of lf th ++ [c]). split.
      * cbn [shared set_thread].
        rewrite file_text_insert, Hfile, string_of_chars_app.
        simpl. now rewrite !append_assoc.
      * split.
        -- simpl.
           rewrite (concat_map_insert_same (f := sections_of lf) (th' := th') Hth)
             by congruence. exact Hperm.
        -- simpl. rewrite Hl. exists th'.
           rewrite list_lookup_insert_eq by exact Hi.
           split; [reflexivity|]. rewrite Hpen', Hpen. reflexivity.
    + simpl. rewrite Hq.
      rewrite (concat_map_insert_same (f := fun th => puts (th_trace th))
                 (th' := th') Hth); [reflexivity|].
      simpl. rewrite puts_snoc. apply app_nil_r.
  - (* a call *)
    subst w'. injection Hstep as <-.
    constructor; auto.
    + eapply lock_transfer; eauto; simpl; tauto.
    + exists secs, pend. simpl. split; [exact Hfile|]. split.
      * rewrite (concat_map_insert_same (f := sections_of lf) (th' := th') Hth)
          by congruence. exact Hperm.
      * eapply pend_transfer; eauto. congruence.
    + simpl. rewrite Hq.
      rewrite (concat_map_insert_same (f := fun th => puts (th_trace th))
                 (th' := th') Hth); [reflexivity|].
      simpl. rewrite puts_snoc. apply app_nil_r.
Qed.

End PoolInvariant.

Lemma open_failures_main_line tr : open_failures (main_line tr) = open_failures tr.
Proof. apply flat_map_main_line. side_blind. Qed.

Section PoolRuns.
Context {B : Builtins}.

Lemma hook_own url d : all_obs (own_obs url) (hook url d).
Proof.
  unfold hook. destruct (decide _); [simpl; auto|].
  destruct (decide _); simpl; auto.
Qed.

Lemma locked_write_own url lf text :
  all_obs (own_obs url) text ->
  all_obs (own_obs url) (with_lock (open_and_write lf ModeA text)).
Proof.
  intros Ht. unfold with_lock. split; [exact I|].
  apply all_obs_finally; [|apply all_obs_act; exact I].
  apply all_obs_open_and_write; auto; intros; exact I.
Qed.

Lemma sha256Hash_own url path : all_obs (own_obs url) (sha256Hash path).
Proof.
  unfold sha256Hash, sha256Hash_chunk.
  apply all_obs_bind; [apply all_obs_io; intros; exact I|]. intros; exact I.
Qed.

Lemma processVideo_own url vd td lf case :
  all_obs (own_obs url) (processVideo url vd td lf case).
Proof.
  unfold processVideo. apply all_obs_catch.
  - unfold processVideo_try.
    apply all_obs_bind.
    { unfold ffmpegPath, getBasePath.
      apply all_obs_bind.
      - apply all_obs_bind; [apply all_obs_ask; intros; exact I|].
        intros [?|]; [exact I|apply all_obs_ask; intros; exact I].
      - intros base. apply all_obs_bind; [apply all_obs_ask; intros; exact I|].
        intros [|]; [exact I|].
        apply all_obs_bind; [apply all_obs_ask; intros; exact I|].
        intros [w|]; [destruct (Py.truthy w)|]; exact I. }
    intros st. apply all_obs_bind; [apply all_obs_ask; intros; exact I|].
    intros [cbs res].
    apply all_obs_bind; [apply all_obs_for_each; intros; apply hook_own|].
    intros _. apply all_obs_bind; [destruct res; exact I|]. intros info.
    apply all_obs_bind; [apply all_obs_io; intros; exact I|]. intros temp.
    apply all_obs_bind.
    { destruct (info !! "thumbnail") as [u|]; [|exact I].
      destruct (Py.truthy u); [|exact I].
      apply all_obs_bind; [|intros; exact I].
      unfold downloadThumbnail. apply all_obs_catch; [|intros; exact I].
      apply all_obs_bind; [apply all_obs_io; intros; exact I|]. intros _.
      apply all_obs_bind; [apply all_obs_io; intros; exact I|]. intros _.
      apply all_obs_bind; [apply all_obs_io; intros; exact I|]. intros data.
      apply all_obs_bind; [apply all_obs_io; intros; exact I|]. intros; exact I. }
    intros _. apply all_obs_bind; [apply sha256Hash_own|]. intros h1.
    apply all_obs_bind; [apply all_obs_io; intros; exact I|]. intros _.
    apply all_obs_bind; [apply sha256Hash_own|]. intros h2.
    apply all_obs_bind.
    { unfold toRelHref. apply all_obs_bind; [apply all_obs_io; intros; exact I|].
      intros; exact I. }
    intros href. apply all_obs_bind.
    { apply locked_write_own.
      apply all_obs_bind; [apply all_obs_ask; intros; exact I|]. intros; exact I. }
    intros _. apply all_obs_act. simpl. auto.
  - intros e. unfold processVideo_except. apply all_obs_bind.
    { apply locked_write_own.
      apply all_obs_bind; [apply all_obs_ask; intros; exact I|]. intros; exact I. }
    intros _. apply all_obs_act. simpl. auto.
Qed.

Variables (lf : string) (jobs : list job_args) (w0 : world).
Hypothesis same_report : Forall (fun j => j_logFile j = lf) jobs.
Hypothesis lock_free : w_lock w0 = None.

Lemma new_pool_inv t workers :
  pool_inv lf jobs w0 (new_pool jobs w0 t workers).
Proof.
  unfold new_pool. constructor; simpl.
  - now rewrite length_map.
  - intros i th j Hth Hj. rewrite list_lookup_fmap, Hj in Hth.
    injection Hth as <-. cbn [th_prog th_trace].
    split; [apply residual_start|]. unfold run_job. apply processVideo_own.
  - intros i th Hth. rewrite list_lookup_fmap in Hth.
    destruct (jobs !! i); [|discriminate]. injection Hth as <-.
    exists mon0. split; [reflexivity|]. rewrite lock_free. simpl.
    split; discriminate.
  - rewrite lock_free. discriminate.
  - exists [], []. rewrite lock_free. simpl. split.
    + now rewrite !append_empty_r.
    + split; [|reflexivity].
      induction jobs as [|j js IH]; [reflexivity|]. simpl.
      apply IH. now inversion same_report.
  - assert (Hnil : concat (map (fun th => puts (th_trace th))
                      (map (fun j => Thread (run_job j) []) jobs)) = []).
    { clear. induction jobs as [|j js IH]; [reflexivity|]. simpl. exact IH. }
    rewrite Hnil, app_nil_r. reflexivity.
Qed.

Lemma step_inv o i p p' :
  pool_inv lf jobs w0 p -> step o i p = Some p' -> pool_inv lf jobs w0 p'.
Proof.
  intros Hinv. unfold step.
  destruct (threads p !! i) as [th|] eqn:Hth; [|discriminate].
  destruct (started th || may_start i p); [|discriminate].
  assert (Hi : i < length jobs).
  { rewrite <- (inv_length Hinv). eapply lookup_lt_Some; eauto. }
  destruct (lookup_lt_is_Some_2 jobs i Hi) as [j Hj].
  destruct (inv_jobs Hinv Hth Hj) as [Hres Hown].
  destruct (th_prog th) as [a|e|a k|X c k] eqn:Hp; try discriminate.
  - destruct (apply_action i a (shared p)) as [w|] eqn:Ha; [|discriminate].
    intros H. injection H as <-.
    apply pool_inv_update with (j := j); auto.
    + now apply residual_do.
    + simpl in Hown. tauto.
  - intros H. injection H as <-.
    apply pool_inv_update with (j := j); auto.
    + now apply residual_call.
    + simpl in Hown. apply Hown.
    + reflexivity.
Qed.

Lemma run_pool_inv o sched : forall p,
  pool_inv lf jobs w0 p -> pool_inv lf jobs w0 (run_pool o sched p).
Proof.
  induction sched as [|i sched IH]; intros p Hinv; simpl; [exact Hinv|].
  apply IH. destruct (step o i p) as [p'|] eqn:Hs; simpl; [|exact Hinv].
  exact (step_inv Hinv Hs).
Qed.

End PoolRuns.

(* ===================================================================== *)
(** * The helper functions: hashing, thumbnails, addresses, the report *)
(* ===================================================================== *)

Section HelperFunctions.
Context {B : Builtins}.

(** X1.  [sha256Hash] reads the file block by block, and whatever the
    positive block size (8192 in every call of the program) the digest it
    returns is the digest of the whole content; if the file cannot be
    read, the exception of the read leaves [sha256Hash]. *)
Theorem sha256Hash_whole_file path chunk tr r :
  0 < chunk ->
  runs (sha256Hash_chunk path chunk) tr r ->
  exists ans,
    tr = [OCall (ReadBytes path) ans]
    /\ r = match ans with
           | inl e => inl e
           | inr data => inr (sha256_hex data)
           end.
Proof.
  intros Hc. revert tr r. apply wp_iff_runs.
  unfold sha256Hash_chunk. cbn -[read_blocks].
  intros [e|data]; cbn -[read_blocks].
  - now exists (inl e).
  - rewrite read_blocks_feed by (auto; lia). now exists (inr data).
Qed.

(** X2.  [downloadThumbnail] never raises.  It asks, in this order, for
    the response, for the file opened with ["wb"], for the body of the
    response and for the write; it returns [True] exactly when all four
    succeeded, and then what it wrote is what it read.  Because the file
    is opened before the body is read, a read or a write that fails
    leaves a file that was created or emptied, and [False] is returned;
    nothing has touched the file only when the response or the file
    itself could not be opened. *)
Theorem downloadThumbnail_never_raises thumbnailUrl savePath tr r :
  runs (downloadThumbnail thumbnailUrl savePath) tr r ->
  let opened := [OCall (Urlopen thumbnailUrl 15) (inr tt);
                 OCall (OpenBinary savePath) (inr tt)] in
  (exists data,
     tr = opened ++ [OCall (ResponseRead thumbnailUrl) (inr data);
                     OCall (WriteBytes savePath data) (inr tt)]
     /\ r = inr true)
  \/ (r = inr false
      /\ ((exists e, tr = [OCall (Urlopen thumbnailUrl 15) (inl e)])
          \/ (exists e, tr = [OCall (Urlopen thumbnailUrl 15) (inr tt);
                              OCall (OpenBinary savePath) (inl e)])
          \/ (exists e, tr = opened ++ [OCall (ResponseRead thumbnailUrl) (inl e)])
          \/ (exists data e,
                tr = opened ++ [OCall (ResponseRead thumbnailUrl) (inr data);
                                OCall (WriteBytes savePath data) (inl e)]))).
Proof.
  revert tr r. apply wp_iff_runs. unfold downloadThumbnail.
  cbn [bind io catch wp app].
  intros [e|[]]; cbn [bind catch wp]; [right; eauto|].
  intros [e|[]]; cbn [bind catch wp]; [right; eauto 6|].
  intros [e|data]; cbn [bind catch wp]; [right; eauto 6|].
  intros [e|[]]; cbn [bind catch wp]; [right; eauto 8|left; eauto].
Qed.

(** X3.  [checkIPaddress] never raises and always returns two entries,
    one per source and in the order of the sources: the stripped body of
    the answer, or ["ERROR"] when the source could not be read or its
    answer not decoded.  Both sources are asked even when the first one
    failed. *)
Theorem checkIPaddress_entries tr r :
  runs checkIPaddress tr r ->
  exists a1 a2,
    tr = [OCall (UrlopenRead "https://api.ipify.org" 5) a1;
          OCall (UrlopenRead "https://checkip.amazonaws.com" 5) a2]
    /\ r = inr [ip_entry a1; ip_entry a2].
Proof.
  revert tr r. apply wp_iff_runs. unfold checkIPaddress. simpl.
  intros a1.
  destruct a1 as [e|d]; simpl.
  - intros [e2|d2]; simpl; [|destruct (decode d2) eqn:Hd2; simpl];
      eexists (inl e), _; (split; [reflexivity|]); simpl;
      rewrite ?Hd2; reflexivity.
  - destruct (decode d) eqn:Hd; simpl;
      (intros [e2|d2]; simpl; [|destruct (decode d2) eqn:Hd2; simpl]);
      eexists (inr d), _; (split; [reflexivity|]); simpl;
      rewrite ?Hd, ?Hd2; reflexivity.
Qed.

End HelperFunctions.

(** ** Text files *)

Lemma for_each_dos X (a : X -> action) (l : list X) :
  for_each l (fun x => act (a x)) = dos (map a l) (Ret tt).
Proof. induction l as [|x l IH]; simpl; [auto|]. now rewrite IH. Qed.

Lemma open_and_write_stamped path mode (f : string -> string) :
  wp (open_and_write path mode (stamp <- utcStamp;; Ret (f stamp)))
     (fun tr r =>
        (exists e, tr = [OCall (OpenText path mode) (inl e)] /\ r = inl e)
        \/ (exists stamp fate,
              tr = text_trace path mode stamp (f stamp) fate
              /\ r = match fate with
                     | None => inr tt
                     | Some (_, e) => inl e
                     end)).
Proof.
  unfold open_and_write, utcStamp, text_trace, write_text.
  cbn [bind io ask act wp].
  intros [e|[]]; cbn [bind wp]; [left; eauto|].
  assert (Hw : forall stamp fate,
    wp (match fate with
        | None => for_each (Py.chars (f stamp)) (fun c => act (FileWrite path c))
        | Some (n, e) =>
            _ <- for_each (take n (Py.chars (f stamp)))
                   (fun c => act (FileWrite path c));; Raise e
        end)
       (fun tr r => tr = row_writes path (reached fate (f stamp))
                    /\ r = match fate with
                           | None => inr tt
                           | Some (_, e) => inl e
                           end)).
  { intros stamp [[n e]|]; cbn [reached].
    - rewrite for_each_act. apply wp_dos. cbn [wp].
      now rewrite app_nil_r, map_map, row_writes_cut.
    - rewrite for_each_dos. apply wp_dos. cbn [wp].
      now rewrite app_nil_r, map_map. }
  destruct mode; cbn [bind act wp]; intros stamp fate;
    (eapply wp_mono; [|apply (Hw stamp fate)]);
    intros tr r [-> ->]; right; exists stamp, fate; auto.
Qed.

Lemma apply_trace_app tid a b w :
  apply_trace tid (a ++ b) w = apply_trace tid b (apply_trace tid a w).
Proof.
  revert w. induction a as [|[x|X c x] a IH]; intros w; simpl; auto.
Qed.

(** Writing [s] to [path] appends [s] to the file and touches nothing
    else. *)
Lemma apply_trace_row_writes tid path s : forall w,
  let w' := apply_trace tid (row_writes path s) w in
  w_queue w' = w_queue w
  /\ w_lock w' = w_lock w
  /\ file_text path w' = file_text path w +:+ s
  /\ forall p, p <> path -> file_text p w' = file_text p w.
Proof.
  unfold row_writes.
  induction s as [|c s IH]; intros w; simpl.
  - rewrite append_empty_r. auto.
  - destruct (IH (World (w_queue w) (w_lock w)
                    (<[path := file_text path w +:+ String c EmptyString]>
                       (w_files w)))) as (Hq & Hl & Hf & Ho).
    simpl in *. rewrite Hq, Hl, Hf, file_text_insert.
    repeat split; auto.
    + rewrite append_assoc. reflexivity.
    + intros p Hp. rewrite (Ho p Hp). unfold file_text. simpl.
      now rewrite lookup_insert_ne by congruence.
Qed.

Lemma file_text_truncate path q l files :
  file_text path (World q l (<[path := EmptyString]> files)) = EmptyString.
Proof. apply file_text_insert. Qed.

Lemma text_trace_world path mode stamp s fate w :
  let w' := apply_trace main_tid (text_trace path mode stamp s fate) w in
  file_text path w'
  = match mode with
    | ModeW => reached fate s
    | ModeA => file_text path w +:+ reached fate s
    end
  /\ forall p, p <> path -> file_text p w' = file_text p w.
Proof.
  unfold text_trace. destruct mode; cbn [apply_trace apply_action app default].
  - set (w1 := World (w_queue w) (w_lock w) (<[path := EmptyString]> (w_files w))).
    change (id w1) with w1.
    destruct (apply_trace_row_writes main_tid path (reached fate s) w1)
      as (_ & _ & Hf & Ho).
    split.
    + rewrite Hf. unfold w1. now rewrite file_text_truncate.
    + intros p Hp. rewrite (Ho p Hp). unfold w1, file_text. simpl.
      now rewrite lookup_insert_ne by congruence.
  - destruct (apply_trace_row_writes main_tid path (reached fate s) w)
      as (_ & _ & Hf & Ho).
    split; [exact Hf|exact Ho].
Qed.

Lemma text_written_world path mode stamp s w :
  let w' := apply_trace main_tid (text_written path mode stamp s) w in
  file_text path w'
  = match mode with
    | ModeW => s
    | ModeA => file_text path w +:+ s
    end
  /\ forall p, p <> path -> file_text p w' = file_text p w.
Proof. apply (text_trace_world path mode stamp s None). Qed.

Lemma write_failures_row_writes path s : write_failures (row_writes path s) = [].
Proof. apply flat_map_row_writes. reflexivity. Qed.

Lemma write_failures_text_trace path mode stamp s fate :
  write_failures (text_trace path mode stamp s fate)
  = match fate with
    | None => []
    | Some (n, e) => [(path, n, e)]
    end.
Proof.
  unfold write_failures, text_trace.
  destruct mode; cbn [flat_map write_failure_of app];
    fold (write_failures (row_writes path (reached fate s)));
    rewrite write_failures_row_writes; now destruct fate as [[n e]|].
Qed.

Section Report.
Context {B : Builtins}.

(** X4.  [createHTMLlog] opens the report with mode ["w"]: whatever the
    file held before, after a successful call it holds exactly the header
    (with the case, the start time and the two addresses).  When the file
    cannot be opened the exception leaves [createHTMLlog] and nothing has
    changed; when the write fails the exception leaves [createHTMLlog]
    and the file holds the first bytes of the header, as many as were
    written.  No other file changes. *)
Theorem createHTMLlog_overwrites logPath case ip1 ip2 ipStatus tr r w :
  runs (createHTMLlog logPath case ip1 ip2 ipStatus) tr r ->
  let w' := apply_trace main_tid tr w in
  match r with
  | inr _ =>
      exists stamp,
        file_text logPath w' = html_header case stamp ip1 ip2 ipStatus
  | inl e =>
      (opens tr = [(logPath, ModeW, inl e)] /\ w' = w)
      \/ (exists stamp n,
            write_failures tr = [(logPath, n, e)]
            /\ file_text logPath w'
               = cut n (html_header case stamp ip1 ip2 ipStatus))
  end
  /\ forall p, p <> logPath -> file_text p w' = file_text p w.
Proof.
  intros Hr. pose proof (runs_wp Hr (open_and_write_stamped logPath ModeW
                           (fun stamp => html_header case stamp ip1 ip2 ipStatus)))
    as [(e & -> & ->)|(stamp & fate & -> & ->)]; [simpl; auto|].
  clear Hr.
  destruct (text_trace_world logPath ModeW stamp
              (html_header case stamp ip1 ip2 ipStatus) fate w) as [Hf Ho].
  split; [|exact Ho]. destruct fate as [[n e]|].
  - right. exists stamp, n. split; [apply write_failures_text_trace|exact Hf].
  - exists stamp. exact Hf.
Qed.

(** X5.  [closeHTMLlog] opens the report with mode ["a"]: after a
    successful call the file holds what it held before followed by the
    footer with the end time.  When the file cannot be opened the
    exception leaves [closeHTMLlog] and nothing has changed; when the
    write fails the exception leaves [closeHTMLlog] and the first bytes
    of the footer have been appended.  No other file changes. *)
Theorem closeHTMLlog_appends logPath tr r w :
  runs (closeHTMLlog logPath) tr r ->
  let w' := apply_trace main_tid tr w in
  match r with
  | inr _ =>
      exists stamp,
        file_text logPath w' = file_text logPath w +:+ html_footer stamp
  | inl e =>
      (opens tr = [(logPath, ModeA, inl e)] /\ w' = w)
      \/ (exists stamp n,
            write_failures tr = [(logPath, n, e)]
            /\ file_text logPath w'
               = file_text logPath w +:+ cut n (html_footer stamp))
  end
  /\ forall p, p <> logPath -> file_text p w' = file_text p w.
Proof.
  intros Hr. pose proof (runs_wp Hr (open_and_write_stamped logPath ModeA
                           html_footer))
    as [(e & -> & ->)|(stamp & fate & -> & ->)]; [simpl; auto|].
  clear Hr.
  destruct (text_trace_world logPath ModeA stamp (html_footer stamp) fate w)
    as [Hf Ho].
  split; [|exact Ho]. destruct fate as [[n e]|].
  - right. exists stamp, n. split; [apply write_failures_text_trace|exact Hf].
  - exists stamp. exact Hf.
Qed.

(** X6.  [finalize], once the jobs are done: the footer is written first
    and the FINISHED event, which names the report, is put on the queue
    last and once.  When the report cannot be opened for the footer, or
    the footer cannot be written to its end, the exception ends the
    thread and no FINISHED event is put.  The footer is written without
    taking [logLock]. *)
Theorem finalize_signals_after_footer log_file tr r :
  runs (finalize log_file) tr r ->
  (exists stamp,
     tr = text_written log_file ModeA stamp (html_footer stamp)
          ++ [ODo (QueuePut ("__SYSTEM__", FINISHED log_file))]
     /\ r = inr tt)
  \/ (exists e, tr = [OCall (OpenText log_file ModeA) (inl e)] /\ r = inl e)
  \/ (exists stamp n e,
        tr = text_cut log_file ModeA stamp (html_footer stamp) n e
        /\ r = inl e).
Proof.
  revert tr r. apply wp_iff_runs. unfold finalize, closeHTMLlog.
  apply wp_bind. eapply wp_mono; [|apply open_and_write_stamped].
  intros tr r [(e & -> & ->)|(stamp & [[n e]|] & -> & ->)]; cbn [wp act].
  - right. left. eauto.
  - right. right. eauto.
  - left. eauto.
Qed.

End Report.

(** ** Links *)

Lemma chars_inj a b : Py.chars a = Py.chars b -> a = b.
Proof.
  intros H. rewrite <- (of_chars_chars a), <- (of_chars_chars b). now rewrite H.
Qed.

Lemma replace_backslash s :
  Py.chars (Py.replace Py.backslash "/" s)
  = map (fun c => if Ascii.eqb c backslash_char then Py.slash else c)
        (Py.chars s).
Proof.
  change (Py.replace Py.backslash "/" s)
    with (Py.replace_from 0 Py.backslash "/" s).
  induction s as [|c s IH]; [reflexivity|].
  cbn [Py.replace_from Py.chars map].
  change (String.length Py.backslash - 1) with 0.
  change (Py.starts_with Py.backslash (String c s))
    with (if Ascii.eqb backslash_char c then true else false).
  rewrite Ascii.eqb_sym.
  destruct (Ascii.eqb c backslash_char).
  - change ("/" +:+ Py.replace_from 0 Py.backslash "/" s)
      with (String Py.slash (Py.replace_from 0 Py.backslash "/" s)).
    cbn [Py.chars]. now rewrite IH.
  - cbn [Py.chars]. now rewrite IH.
Qed.

Section Links.
Context {B : Builtins}.

(** X7.  [toRelHref] asks [os.path.relpath] once and returns its answer
    with every backslash turned into a slash: the link has no backslash
    and is the relative path itself when that has none.  An exception of
    [relpath] leaves [toRelHref]. *)
Theorem toRelHref_forward_slashes targetPath base_dir tr r :
  runs (toRelHref targetPath base_dir) tr r ->
  exists ans,
    tr = [OCall (Relpath targetPath base_dir) ans]
    /\ match ans with
       | inl e => r = inl e
       | inr rel =>
           exists href,
             r = inr href
             /\ ~ In backslash_char (Py.chars href)
             /\ length (Py.chars href) = length (Py.chars rel)
             /\ (~ In backslash_char (Py.chars rel) -> href = rel)
       end.
Proof.
  revert tr r. apply wp_iff_runs. unfold toRelHref. simpl.
  intros [e|rel]; simpl.
  - exists (inl e). auto.
  - exists (inr rel). split; [reflexivity|].
    exists (Py.replace Py.backslash "/" rel). split; [reflexivity|].
    rewrite replace_backslash. repeat split.
    + intros Hin. apply in_map_iff in Hin as (c & Hc & _).
      destruct (Ascii.eqb c backslash_char) eqn:E; [discriminate|].
      apply Ascii.eqb_neq in E. congruence.
    + apply length_map.
    + intros Hno. apply chars_inj. rewrite replace_backslash.
      induction (Py.chars rel) as [|c l IH]; [reflexivity|]. simpl.
      destruct (Ascii.eqb c backslash_char) eqn:E.
      * exfalso. apply Hno. left. symmetry. now apply Ascii.eqb_eq.
      * f_equal. apply IH. intros Hin. apply Hno. now right.
Qed.

End Links.

(* ===================================================================== *)
(** * One job: its row and its terminal event *)
(* ===================================================================== *)

Section JobOutcome.
Context {B : Builtins}.

End JobOutcome.

(* ===================================================================== *)
(** * The interface: [updatingUI] *)
(* ===================================================================== *)

Lemma tree_item_known iid values t :
  In iid (map fst t) ->
  exists t', tree_item iid values t = inr t' /\ map fst t' = map fst t.
Proof.
  intros Hin. unfold tree_item.
  assert (He : existsb (String.eqb iid) (map fst t) = true).
  { apply existsb_exists. exists iid. split; [exact Hin|apply String.eqb_refl]. }
  rewrite He. eexists. split; [reflexivity|].
  rewrite map_map. apply map_ext. intros [k v]. simpl.
  destruct (String.eqb_spec k iid) as [->|]; reflexivity.
Qed.

Lemma tree_item_unknown iid values t :
  ~ In iid (map fst t) ->
  tree_item iid values t = inl ("Item " +:+ iid +:+ " not found").
Proof.
  intros Hin. unfold tree_item.
  destruct (existsb (String.eqb iid) (map fst t)) eqn:He; [|reflexivity].
  apply existsb_exists in He as (k & Hk & He).
  apply String.eqb_eq in He. subst k. contradiction.
Qed.

Section Interface.
Context {B : Builtins}.

(** One event whose row is in the tree. *)
Lemma handle_event_known (self : App) ev :
  row_known (tree self) ev ->
  exists self',
    handle_event self ev = (self', None)
    /\ done_items self' = done_items self + (if is_done ev then 1 else 0)
    /\ failed_items self' = failed_items self + (if is_failed ev then 1 else 0)
    /\ total_items self' = total_items self
    /\ map fst (tree self') = map fst (tree self)
    /\ statusBadge self'
       = if system_finished ev then "DONE" else statusBadge self.
Proof.
  destruct ev as [url [pct|pct|sha|err|path]];
    unfold row_known, handle_event, system_finished, is_finished, is_done,
      is_failed, touches_row;
    cbn [fst snd]; intros Hin; rewrite ?andb_false_r, ?andb_true_r.
  1-4: specialize (Hin eq_refl);
    match goal with
    | |- context [tree_item ?u ?v ?t] =>
        let t' := fresh "t'" in
        let Ht := fresh "Ht" in
        let Hk := fresh "Hk" in
        destruct (@tree_item_known u v t Hin) as (t' & Ht & Hk); rewrite Ht
    end;
    eexists; (split; [reflexivity|]);
    repeat match goal with
    | |- context [updateCounts ?s] =>
        destruct (updateCounts_counters s) as (-> & -> & -> & -> & -> & _)
    end;
    cbn [done_items failed_items total_items tree statusBadge set_tree
         set_counters];
    repeat split; auto; lia.
  destruct (String.eqb url "__SYSTEM__"); eexists; (split; [reflexivity|]).
  - cbn [add_dialog done_items failed_items total_items tree statusBadge].
    destruct (updateCounts_counters (set_statusBadge "DONE" self))
      as (-> & -> & -> & -> & -> & _).
    cbn. repeat split; auto; lia.
  - repeat split; auto; lia.
Qed.

Lemma handle_event_unknown (self : App) ev :
  touches_row ev = true ->
  ~ In ev.1 (map fst (tree self)) ->
  exists self',
    handle_event self ev = (self', Some ("Item " +:+ ev.1 +:+ " not found"))
    /\ done_items self' = done_items self + (if is_done ev then 1 else 0)
    /\ failed_items self' = failed_items self + (if is_failed ev then 1 else 0)
    /\ tree self' = tree self.
Proof.
  destruct ev as [url [pct|pct|sha|err|path]];
    unfold handle_event, is_done, is_failed, touches_row;
    cbn [fst snd]; intros Ht Hin; try discriminate.
  all: match goal with
       | |- context [tree_item ?u ?v ?t] =>
           rewrite (@tree_item_unknown u v t Hin)
       end;
       eexists; (split; [reflexivity|]); cbn; repeat split; lia.
Qed.

Lemma row_known_keys t t' ev :
  map fst t' = map fst t -> row_known t ev -> row_known t' ev.
Proof. unfold row_known. now intros ->. Qed.

Lemma updatingUI_known (q : list event) : forall self : App,
  Forall (row_known (tree self)) q ->
  exists self',
    updatingUI self q = (self', [], None)
    /\ done_items self' = done_items self + count_done q
    /\ failed_items self' = failed_items self + count_failed q
    /\ total_items self' = total_items self
    /\ map fst (tree self') = map fst (tree self)
    /\ statusBadge self'
       = if existsb system_finished q then "DONE" else statusBadge self.
Proof.
  induction q as [|ev q IH]; intros self Hq.
  - exists self. unfold count_done, count_failed. simpl.
    repeat split; auto.
  - inversion Hq as [|? ? Hev Hq']; subst.
    destruct (handle_event_known Hev) as (s1 & H1 & Hd & Hf & Ht & Hk & Hb).
    destruct (IH s1) as (s2 & H2 & Hd2 & Hf2 & Ht2 & Hk2 & Hb2).
    { eapply Forall_impl; [exact Hq'|]. intros x. apply row_known_keys.
      exact Hk. }
    exists s2. cbn [updatingUI]. rewrite H1, H2.
    unfold count_done, count_failed in *. cbn [List.filter existsb].
    rewrite Hd2, Hf2, Ht2, Hk2, Hb2, Hd, Hf, Ht, Hk, Hb.
    repeat split; auto.
    + destruct (is_done ev); simpl; lia.
    + destruct (is_failed ev); simpl; lia.
    + destruct (system_finished ev); simpl; [|reflexivity].
      now destruct (existsb system_finished q).
Qed.

(** X9.  [updatingUI] on a queue all of whose events name rows of the
    tree: the loop takes every event, raises nothing, and when it ends
    [done_items] has grown by the number of DONE events and
    [failed_items] by the number of FAILED events; [total_items] and the
    rows of the tree are the same, and the badge reads DONE when the
    FINISHED event of the run was among the events. *)
Theorem updatingUI_counts (self : App) (q : list event) :
  Forall (row_known (tree self)) q ->
  exists self',
    updatingUI self q = (self', [], None)
    /\ done_items self' = done_items self + count_done q
    /\ failed_items self' = failed_items self + count_failed q
    /\ total_items self' = total_items self
    /\ map fst (tree self') = map fst (tree self)
    /\ (existsb system_finished q = true -> statusBadge self' = "DONE").
Proof.
  intros Hq.
  destruct (updatingUI_known Hq) as (s & H & Hd & Hf & Ht & Hk & Hb).
  exists s. repeat split; auto. intros Hs. now rewrite Hb, Hs.
Qed.

(** X10.  An event for a URL that has no row in the tree (the tree was
    cleared by a later [startCase], say) ends the loop of [updatingUI]
    with the error of Tk: the events behind it stay on the queue, and a
    DONE or FAILED event has been counted although its row could not be
    shown. *)
Theorem updatingUI_stops_at_unknown_row (self : App) q1 ev q2 :
  Forall (row_known (tree self)) q1 ->
  touches_row ev = true ->
  ~ In ev.1 (map fst (tree self)) ->
  exists self',
    updatingUI self (q1 ++ ev :: q2)
    = (self', q2, Some ("Item " +:+ ev.1 +:+ " not found"))
    /\ done_items self' = done_items self + count_done (q1 ++ [ev])
    /\ failed_items self' = failed_items self + count_failed (q1 ++ [ev]).
Proof.
  revert self. induction q1 as [|e1 q1 IH]; intros self Hq Ht Hin.
  - destruct (handle_event_unknown (self := self) Ht Hin)
      as (s1 & H1 & Hd & Hf & _).
    exists s1. cbn [app updatingUI]. rewrite H1.
    unfold count_done, count_failed. cbn [List.filter].
    rewrite Hd, Hf. repeat split.
    + destruct (is_done ev); reflexivity.
    + destruct (is_failed ev); reflexivity.
  - inversion Hq as [|? ? Hev Hq']; subst.
    destruct (handle_event_known Hev) as (s1 & H1 & Hd & Hf & _ & Hk & _).
    destruct (IH s1) as (s2 & H2 & Hd2 & Hf2).
    { eapply Forall_impl; [exact Hq'|]. intros x. apply row_known_keys.
      exact Hk. }
    { exact Ht. }
    { now rewrite Hk. }
    exists s2. cbn [app updatingUI]. rewrite H1, H2.
    unfold count_done, count_failed in *. cbn [List.filter].
    rewrite Hd2, Hf2, Hd, Hf. split; [reflexivity|].
    split.
    + destruct (is_done e1); simpl; lia.
    + destruct (is_failed e1); simpl; lia.
Qed.

End Interface.

(* ===================================================================== *)
(** * The URL box *)
(* ===================================================================== *)

(** [lstrip] by cases: a white space of one, two or three bytes is
    dropped and the rest stripped; a string that does not begin with one
    is returned as it is. *)
Lemma lstrip_cases (P : string -> string -> Prop) :
  P EmptyString EmptyString ->
  (forall a r, Py.is_space1 a = true ->
     P r (Py.lstrip r) -> P (String a r) (Py.lstrip r)) ->
  (forall a b r, Py.is_space1 a = false -> Py.is_space2 a b = true ->
     P r (Py.lstrip r) -> P (String a (String b r)) (Py.lstrip r)) ->
  (forall a b c r, Py.is_space1 a = false -> Py.is_space2 a b = false ->
     Py.is_space3 a b c = true ->
     P r (Py.lstrip r) -> P (String a (String b (String c r))) (Py.lstrip r)) ->
  (forall s, s <> EmptyString -> Py.head_space s = false -> P s s) ->
  forall s, P s (Py.lstrip s).
Proof.
  intros H0 H1 H2 H3 Hs s.
  assert (H : forall n s, String.length s <= n -> P s (Py.lstrip s)).
  { clear s. induction n as [|n IH]; intros s Hn.
    - destruct s; [exact H0|simpl in Hn; lia].
    - destruct s as [|a r]; [exact H0|]. cbn [Py.lstrip]. simpl in Hn.
      destruct (Py.is_space1 a) eqn:E1.
      { apply H1; [exact E1|]. apply IH. lia. }
      destruct r as [|b r2].
      { apply Hs; [discriminate|]. cbn [Py.head_space]. exact E1. }
      simpl in Hn. destruct (Py.is_space2 a b) eqn:E2.
      { apply H2; auto. apply IH. lia. }
      destruct r2 as [|c r3].
      { apply Hs; [discriminate|]. cbn [Py.head_space]. now rewrite E1, E2. }
      simpl in Hn. destruct (Py.is_space3 a b c) eqn:E3.
      { apply H3; auto. apply IH. lia. }
      apply Hs; [discriminate|]. cbn [Py.head_space]. now rewrite E1, E2, E3. }
  apply (H (String.length s)). lia.
Qed.

Ltac space_cases H :=
  repeat match type of H with
  | context [Py.is_space1 ?a] => destruct (Py.is_space1 a)
  | context [Py.is_space2 ?a ?b] => destruct (Py.is_space2 a b)
  | context [Py.is_space3 ?a ?b ?c] => destruct (Py.is_space3 a b c)
  end; cbn [orb] in H; try discriminate H.

Lemma lstrip_fixed s : Py.head_space s = false -> Py.lstrip s = s.
Proof.
  destruct s as [|a [|b [|c r]]]; cbn [Py.head_space Py.lstrip]; intros H;
    space_cases H; reflexivity.
Qed.

Lemma lstrip_head s : Py.head_space (Py.lstrip s) = false.
Proof. apply (lstrip_cases (P := fun _ t => Py.head_space t = false)); auto. Qed.

Lemma lstrip_idempotent s : Py.lstrip (Py.lstrip s) = Py.lstrip s.
Proof. apply lstrip_fixed, lstrip_head. Qed.

Lemma lstrip_suffix s : exists w, s = w +:+ Py.lstrip s.
Proof.
  apply (lstrip_cases (P := fun s t => exists w, s = w +:+ t)).
  - now exists EmptyString.
  - intros a r _ [w Hw]. exists (String a w). rewrite append_cons. congruence.
  - intros a b r _ _ [w Hw]. exists (String a (String b w)).
    rewrite !append_cons. congruence.
  - intros a b c r _ _ _ [w Hw]. exists (String a (String b (String c w))).
    rewrite !append_cons. congruence.
  - intros t _ _. now exists EmptyString.
Qed.

(** White space in front of a string is stripped with it. *)
Lemma lstrip_all_space y z :
  Py.all_space y = true -> Py.lstrip (y +:+ z) = Py.lstrip z.
Proof.
  unfold Py.all_space. revert z.
  apply (lstrip_cases
           (P := fun y t => forall z, negb (Py.truthy t) = true ->
                            Py.lstrip (y +:+ z) = Py.lstrip z)).
  - reflexivity.
  - intros a r E1 IH z Ht. rewrite append_cons. cbn [Py.lstrip].
    rewrite E1. now apply IH.
  - intros a b r E1 E2 IH z Ht. rewrite !append_cons. cbn [Py.lstrip].
    rewrite E1, E2. now apply IH.
  - intros a b c r E1 E2 E3 IH z Ht. rewrite !append_cons. cbn [Py.lstrip].
    rewrite E1, E2, E3. now apply IH.
  - intros [|a r] Hne _ z; [contradiction|discriminate].
Qed.

Lemma all_space_app y z :
  Py.all_space y = true -> Py.all_space z = true -> Py.all_space (y +:+ z) = true.
Proof.
  intros Hy Hz. unfold Py.all_space in *. now rewrite (lstrip_all_space z Hy).
Qed.

Lemma all_space_empty : Py.all_space EmptyString = true.
Proof. reflexivity. Qed.

Lemma rstrip_cons c s :
  Py.rstrip (String c s)
  = if Py.all_space (String c s) then EmptyString else String c (Py.rstrip s).
Proof. reflexivity. Qed.

Lemma rstrip_all_space s : Py.all_space s = true -> Py.rstrip s = EmptyString.
Proof. destruct s as [|c r]; [reflexivity|]. rewrite rstrip_cons. now intros ->. Qed.

(** What [rstrip] removes is white space. *)
Lemma rstrip_prefix s :
  exists z, s = Py.rstrip s +:+ z /\ Py.all_space z = true.
Proof.
  induction s as [|c s (z & Hz & Hs)]; [now exists EmptyString|].
  rewrite rstrip_cons. destruct (Py.all_space (String c s)) eqn:E.
  - now exists (String c s).
  - exists z. rewrite append_cons. split; [congruence|exact Hs].
Qed.

Lemma rstrip_keeps s : Py.all_space s = false -> Py.all_space (Py.rstrip s) = false.
Proof.
  intros Hs. destruct (rstrip_prefix s) as (z & Hz & Hsz).
  destruct (Py.all_space (Py.rstrip s)) eqn:E; [|reflexivity].
  rewrite Hz, (all_space_app E Hsz) in Hs. discriminate.
Qed.

Lemma rstrip_idempotent s : Py.rstrip (Py.rstrip s) = Py.rstrip s.
Proof.
  induction s as [|c s IH]; [reflexivity|].
  rewrite rstrip_cons. destruct (Py.all_space (String c s)) eqn:E; [reflexivity|].
  pose proof (rstrip_keeps E) as Hk. rewrite rstrip_cons, E in Hk.
  rewrite rstrip_cons, Hk, IH. reflexivity.
Qed.

(** [rstrip] stops where the rest is white space. *)
Lemma rstrip_stops a y :
  Py.all_space y = true -> String.length (Py.rstrip (a +:+ y)) <= String.length a.
Proof.
  intros Hy. induction a as [|c a IH].
  - change (EmptyString +:+ y) with y. now rewrite (rstrip_all_space Hy).
  - rewrite append_cons, rstrip_cons.
    destruct (Py.all_space (String c (a +:+ y))); simpl; lia.
Qed.

Lemma length_append a b :
  String.length (a +:+ b) = String.length a + String.length b.
Proof.
  induction a as [|c a IH]; [reflexivity|]. rewrite append_cons. simpl. lia.
Qed.

(** No end of a right-stripped string is white space. *)
Lemma rstrip_no_space_end s a b :
  Py.rstrip s = a +:+ b -> b <> EmptyString -> Py.all_space b = false.
Proof.
  intros Hab Hb. destruct (Py.all_space b) eqn:E; [exfalso|reflexivity].
  destruct (rstrip_prefix s) as (z & Hz & Hsz).
  pose proof (rstrip_stops a (all_space_app E Hsz)) as Hlen.
  rewrite <- append_assoc, <- Hab, <- Hz, Hab, length_append in Hlen.
  destruct b; [contradiction|]. simpl in Hlen. lia.
Qed.

Lemma head_space_prefix u z :
  Py.head_space (u +:+ z) = false -> Py.head_space u = false.
Proof.
  destruct u as [|a [|b [|c r]]]; [reflexivity| | |].
  - change (String a EmptyString +:+ z) with (String a z).
    destruct z as [|b [|c r]]; cbn [Py.head_space]; intros H;
      space_cases H; reflexivity.
  - change (String a (String b EmptyString) +:+ z) with (String a (String b z)).
    destruct z as [|c r]; cbn [Py.head_space]; intros H;
      space_cases H; reflexivity.
  - rewrite !append_cons. cbn [Py.head_space]. auto.
Qed.

Lemma strip_head s : Py.head_space (Py.strip s) = false.
Proof.
  unfold Py.strip. destruct (rstrip_prefix (Py.lstrip s)) as (z & Hz & _).
  apply (head_space_prefix (z := z)). rewrite <- Hz. apply lstrip_head.
Qed.

Lemma strip_idempotent s : Py.strip (Py.strip s) = Py.strip s.
Proof.
  pose proof (strip_head s) as Hh. unfold Py.strip in *.
  rewrite (lstrip_fixed Hh). apply rstrip_idempotent.
Qed.

Lemma lstrip_chars s c : In c (Py.chars (Py.lstrip s)) -> In c (Py.chars s).
Proof.
  destruct (lstrip_suffix s) as [w Hw]. intros H. rewrite Hw, chars_append.
  apply in_or_app. now right.
Qed.

Lemma rstrip_chars s c : In c (Py.chars (Py.rstrip s)) -> In c (Py.chars s).
Proof.
  destruct (rstrip_prefix s) as (z & Hz & _). intros H.
  rewrite Hz, chars_append. apply in_or_app. now left.
Qed.

Lemma strip_chars s c : In c (Py.chars (Py.strip s)) -> In c (Py.chars s).
Proof. intros H. now apply lstrip_chars, rstrip_chars. Qed.

Lemma split_on_no_sep sep s w :
  In w (Py.split_on sep s) -> ~ In sep (Py.chars w).
Proof.
  revert w. induction s as [|c s IH]; intros w.
  - intros [<-|[]]. auto.
  - cbn [Py.split_on]. destruct (Ascii.eqb c sep) eqn:Hc.
    + intros [<-|H]; [auto|]. now apply IH.
    + apply Ascii.eqb_neq in Hc.
      destruct (Py.split_on sep s) as [|w0 ws].
      * intros [<-|[]]. simpl. intros [H|[]]. congruence.
      * intros [<-|H].
        -- simpl. intros [H|H]; [congruence|]. revert H. apply IH. now left.
        -- apply IH. now right.
Qed.

(** X11.  The URLs that [startCase] takes from the text box: every one
    is non-empty, is what [str.strip] leaves of it (stripping it again
    changes nothing), does not begin with a white space of Python (the
    ASCII ones, U+0085, U+00A0 and the other Unicode spaces), has no end
    that is white space only, and holds no line feed; blank lines give
    none. *)
Theorem entered_urls_clean (self : App) u :
  In u (entered_urls self) ->
  u <> EmptyString
  /\ Py.strip u = u
  /\ Py.head_space u = false
  /\ (forall a b, u = a +:+ b -> b <> EmptyString -> Py.all_space b = false)
  /\ ~ In newline_char (Py.chars u).
Proof.
  unfold entered_urls. intros H. apply filter_In in H as [H Ht].
  apply in_map_iff in H as (w & <- & Hw).
  split; [|split; [|split; [|split]]].
  - intros He. rewrite He in Ht. discriminate.
  - apply strip_idempotent.
  - apply strip_head.
  - intros a b. unfold Py.strip. apply rstrip_no_space_end.
  - intros Hin. apply strip_chars in Hin.
    exact (split_on_no_sep Hw Hin).
Qed.

(* ===================================================================== *)
(** * [startCase]: the dispatch *)
(* ===================================================================== *)

Section Dispatch.
Context {B : Builtins}.

Lemma dispatch_projections setup n js tail :
  Forall setup_obs setup ->
  (tail = [] \/ exists lf, tail = [ODo (ThreadStart lf)]) ->
  let tr := setup ++ ODo (ExecutorNew n)
                     :: map (fun j => ODo (ExecutorSubmit j)) js ++ tail in
  submitted tr = js /\ thread_starts tr = thread_starts tail.
Proof.
  intros Hs Ht tr. unfold tr, submitted, thread_starts.
  rewrite !flat_map_app. cbn [flat_map submitted_of thread_start_of app].
  rewrite !flat_map_app.
  fold (submitted setup). fold (thread_starts setup).
  rewrite (submitted_setup Hs), (thread_starts_setup Hs).
  rewrite (flat_map_submits (f := submitted_of) (g := fun j => [j]))
    by reflexivity.
  rewrite (flat_map_submits (f := thread_start_of) (g := fun _ => []))
    by reflexivity.
  rewrite flat_map_singleton, flat_map_nil_fun. cbn [app].
  split; [|reflexivity].
  destruct Ht as [->|(lf & ->)]; cbn; apply app_nil_r.
Qed.

(** X12.  When [startCase] returns without an error, every entered URL
    has been submitted exactly once and in the order of the text box,
    all jobs sharing the directories and the report of the case; the
    tree holds one Queued row per URL and nothing of an earlier case,
    the counters are reset, and the [finalize] thread has been started
    once, for the report of the case.  This happens only when no URL was
    entered twice. *)
Theorem startCase_dispatches_each_url (self : App) tr self' :
  runs (startCase self) tr (inr (self', None)) ->
  ~ config_invalid self ->
  let urls := entered_urls self in
  NoDup urls
  /\ submitted tr = case_jobs self urls
  /\ futures self' = case_jobs self urls
  /\ thread_starts tr = [case_report self]
  /\ tree self' = map queued_row urls
  /\ total_items self' = length urls
  /\ done_items self' = 0
  /\ failed_items self' = 0.
Proof.
  intros Hr Hv urls.
  destruct (runs_wp Hr (startCase_shape self))
    as [(Hi & _)|(_ & [(e & He & _)|H])]; [contradiction|discriminate|].
  destruct H as (setup & s & err & sent & Hs & -> & Hres & Hfut & Htree
                 & Htot & Hd & Hf & Hnd & Herr).
  injection Hres as <- <-. subst sent. fold urls in Hfut, Htree, Hnd.
  destruct (@dispatch_projections setup (entered_threads self)
              (case_jobs self urls) [ODo (ThreadStart (case_report self))] Hs)
    as [Hsub Hts]; [right; eauto|].
  repeat split; auto.
Qed.

(** X13.  When a URL was entered twice, the Treeview refuses the second
    row and the loop of [startCase] stops there: the jobs submitted are
    those of the URLs before the first URL that repeats an earlier one,
    each once and in order, the error of Tk names that URL, and the
    [finalize] thread is never started, so the report gets no footer and
    no FINISHED event is sent.  (When the set-up raises first, nothing
    is submitted.) *)
Theorem repeated_url_stops_dispatch (self : App) tr r :
  runs (startCase self) tr r ->
  ~ config_invalid self ->
  ~ NoDup (entered_urls self) ->
  thread_starts tr = []
  /\ ((exists e, r = inl e /\ submitted tr = [])
      \/ exists self' sent u rest,
           r = inr (self', Some ("Item " +:+ u +:+ " already exists"))
           /\ entered_urls self = sent ++ u :: rest
           /\ NoDup sent
           /\ In u sent
           /\ submitted tr = case_jobs self sent).
Proof.
  intros Hr Hv Hdup.
  destruct (runs_wp Hr (startCase_shape self))
    as [(Hi & _)|(_ & [(e & -> & Hs)|H])]; [contradiction| |].
  - split; [exact (thread_starts_setup Hs)|]. left. exists e.
    split; [reflexivity|exact (submitted_setup Hs)].
  - destruct H as (setup & s & err & sent & Hs & -> & -> & Hfut & Htree
                   & Htot & Hd & Hf & Hnd & Herr).
    destruct err as [e|]; [|subst sent; contradiction].
    destruct Herr as (u & rest & Hurls & Hin & ->).
    destruct (@dispatch_projections setup (entered_threads self)
                (case_jobs self sent) [] Hs) as [Hsub Hts]; [now left|].
    split; [exact Hts|]. right. exists s, sent, u, rest. auto.
Qed.

End Dispatch.

(* ===================================================================== *)
(** * One job: the first failure *)
(* ===================================================================== *)

Section JobFailure.
Context {B : Builtins}.

(** X20.  The first failure of a primary step of a job (the engine,
    [prepare_filename], a hashing read, the move, [relpath], the opening
    of the report, the writing of the row) decides how the job ends.
    When nothing fails after it, the job returns, the last thing it wrote
    is the FAILED row with the text of that exception, and its only
    terminal event is the FAILED event with the same text.  The one thing
    that can fail after it is the FAILED row itself: the opening of the
    report, and then nothing more is written, or the write, and then the
    first bytes of the FAILED row are written; that second exception
    leaves the job, which has put no terminal event.  Before the FAILED
    row the job has written nothing, unless the first failure was the
    write of the video row: then the bytes of it that were written stay
    in the report.  So a download that was fetched, hashed and moved is
    still reported FAILED when, for instance, [relpath] raises
    afterwards. *)
Theorem first_failure_decides url videoDir thumbDir logFile case tr r e rest :
  runs (processVideo url videoDir thumbDir logFile case) tr r ->
  primary_failures tr = e :: rest ->
  exists before,
    (before = EmptyString
     \/ exists n row,
          is_row url row /\ before = cut n row
          /\ head (write_failures tr) = Some (logFile, n, e))
    /\ match rest with
       | [] =>
           r = inr tt
           /\ terminals tr = [(url, FAILED e)]
           /\ exists stamp,
                report_text logFile tr = before +:+ failed_row stamp url e
       | [e'] =>
           r = inl e'
           /\ terminals tr = []
           /\ ((last (opens tr) = Some (logFile, ModeA, inl e')
                /\ report_text logFile tr = before)
               \/ (exists n stamp,
                     last (write_failures tr) = Some (logFile, n, e')
                     /\ report_text logFile tr
                        = before +:+ cut n (failed_row stamp url e)))
       | _ => False
       end.
Proof.
  intros Hr Hf. apply processVideo_line in Hr.
  rewrite <- primary_failures_main_line in Hf.
  rewrite <- terminals_main_line, <- report_text_main_line,
    <- opens_main_line, <- write_failures_main_line.
  revert Hr Hf. generalize (main_line tr). intros l Hr.
  job_cases Hr; shown; intros Hf; try discriminate Hf;
    injection Hf as <- <-;
    lazymatch goal with
    | |- context [cut ?n (video_row ?a ?b ?c ?d ?f ?g ?h ?i ?j)] =>
        exists (cut n (video_row a b c d f g h i j));
        split; [right; exists n, (video_row a b c d f g h i j);
               split; [is_a_row|split; reflexivity]|]
    | |- _ => exists EmptyString; split; [left; reflexivity|]
    end;
    (split; [reflexivity|]); (split; [reflexivity|]);
    first [ eexists; reflexivity
          | left; split; reflexivity
          | right; eexists _, _; split; reflexivity ].
Qed.
End JobFailure.

(* ===================================================================== *)
(** * What the engine is asked *)
(* ===================================================================== *)

Lemma wp_always A (p : prog A) (Q : list obs -> exn + A -> Prop) :
  (forall tr r, Q tr r) -> wp p Q.
Proof. intros H. apply wp_iff_runs. auto. Qed.

Lemma path_join_ffmpeg base : Py.truthy (Py.path_join base "ffmpeg") = true.
Proof.
  unfold Py.path_join. cbn [Py.starts_with Ascii.eqb].
  change (Py.starts_with "/" "ffmpeg") with false. cbn iota.
  destruct (negb (Py.truthy base) || Py.ends_with_slash base).
  - destruct base; reflexivity.
  - destruct base; reflexivity.
Qed.

Section EngineRequest.
Context {B : Builtins}.

(** [ffmpegPath] never raises; the bundled copy is looked for first, and
    the search path only when there is none. *)
Lemma ffmpegPath_probes :
  wp ffmpegPath
     (fun tr r =>
        exists st, r = inr st
        /\ ((exists dir, st = FfBundled dir /\ Py.truthy dir = true
                         /\ exists_answers tr = [true]
                         /\ which_answers tr = [])
            \/ (exists w, st = (if on_path w then FfNone else FfFalse)
                          /\ exists_answers tr = [false]
                          /\ which_answers tr = [w]))).
Proof.
  unfold ffmpegPath, getBasePath. cbn [bind ask wp].
  assert (Hrest : forall pre base,
    exists_answers pre = [] -> which_answers pre = [] ->
    forall found : bool,
      wp (if found then Ret (FfBundled (Py.path_join base "ffmpeg"))
          else w <- ask (Which "ffmpeg");;
               match w with
               | Some p => if Py.truthy p then Ret FfNone else Ret FfFalse
               | None => Ret FfFalse
               end)
         (fun tr r =>
            exists st, r = inr st
            /\ ((exists dir, st = FfBundled dir /\ Py.truthy dir = true
                   /\ exists_answers
                        (pre ++ OCall (PathExists
                                  (Py.path_join (Py.path_join base "ffmpeg")
                                     "ffmpeg.exe")) found :: tr) = [true]
                   /\ which_answers
                        (pre ++ OCall (PathExists
                                  (Py.path_join (Py.path_join base "ffmpeg")
                                     "ffmpeg.exe")) found :: tr) = [])
                \/ (exists w, st = (if on_path w then FfNone else FfFalse)
                      /\ exists_answers
                           (pre ++ OCall (PathExists
                                     (Py.path_join (Py.path_join base "ffmpeg")
                                        "ffmpeg.exe")) found :: tr) = [false]
                      /\ which_answers
                           (pre ++ OCall (PathExists
                                     (Py.path_join (Py.path_join base "ffmpeg")
                                        "ffmpeg.exe")) found :: tr) = [w])))).
  { intros pre base He Hw found.
    unfold exists_answers, which_answers in *.
    destruct found; cbn [bind ask wp].
    - eexists. split; [reflexivity|]. left. eexists.
      split; [reflexivity|]. split; [apply path_join_ffmpeg|].
      rewrite !flat_map_app, He, Hw. split; reflexivity.
    - intros w. destruct w as [p|]; [destruct (Py.truthy p) eqn:Hp|];
        cbn [wp]; (eexists; split; [reflexivity|]); right;
        [exists (Some p)|exists (Some p)|exists None];
        cbn [on_path]; rewrite ?Hp; (split; [reflexivity|]);
        rewrite !flat_map_app, He, Hw; split; reflexivity. }
  intros [p|]; cbn [bind ask wp].
  - intros found.
    apply (Hrest [OCall SysMeipass (Some p)] p eq_refl eq_refl found).
  - intros base found.
    apply (Hrest [OCall SysMeipass None; OCall (Abspath ".") base] base
                 eq_refl eq_refl found).
Qed.

(** X21.  What [processVideo] asks of the engine.  Every job first looks
    for ffmpeg and then calls [extract_info] with options built from
    what it found: the output template is in the videos directory and
    starts with the case number; with a bundled ffmpeg (looked for
    first; the search path is then not consulted) the format is
    bestvideo+bestaudio merged to mp4 and [ffmpeg_location] is the
    bundled directory; with ffmpeg on the search path only, the same
    format and no location; with no ffmpeg at all the format is [best]
    and nothing is merged. *)
Theorem engine_options_follow_ffmpeg url videoDir thumbDir logFile case tr r :
  runs (processVideo url videoDir thumbDir logFile case) tr r ->
  exists pre opts answer post,
    tr = pre ++ OCall (YdlExtractInfo opts url) answer :: post
    /\ outtmpl opts = Py.path_join videoDir (case +:+ "_%(title)s.%(ext)s")
    /\ quiet opts = true
    /\ no_warnings opts = true
    /\ ((exists_answers pre = [true] /\ which_answers pre = []
         /\ format opts = Some "bestvideo+bestaudio/best"
         /\ merge_output_format opts = Some "mp4"
         /\ exists dir, ffmpeg_location opts = Some dir)
        \/ (exists w,
              exists_answers pre = [false] /\ which_answers pre = [w]
              /\ ffmpeg_location opts = None
              /\ if on_path w
                 then format opts = Some "bestvideo+bestaudio/best"
                      /\ merge_output_format opts = Some "mp4"
                 else format opts = Some "best"
                      /\ merge_output_format opts = None)).
Proof.
  revert tr r. apply wp_iff_runs. unfold processVideo.
  apply wp_catch. unfold processVideo_try. apply wp_bind.
  eapply wp_mono; [|apply ffmpegPath_probes].
  intros pre r0 (st & -> & Hst). cbn [bind ask wp]. intros answer.
  assert (Hopts : forall post,
    exists pre0 opts answer0 post0,
      pre ++ OCall (YdlExtractInfo (build_ydlOpts videoDir case st) url) answer
          :: post
      = pre0 ++ OCall (YdlExtractInfo opts url) answer0 :: post0
      /\ outtmpl opts = Py.path_join videoDir (case +:+ "_%(title)s.%(ext)s")
      /\ quiet opts = true
      /\ no_warnings opts = true
      /\ ((exists_answers pre0 = [true] /\ which_answers pre0 = []
           /\ format opts = Some "bestvideo+bestaudio/best"
           /\ merge_output_format opts = Some "mp4"
           /\ exists dir, ffmpeg_location opts = Some dir)
          \/ (exists w,
                exists_answers pre0 = [false] /\ which_answers pre0 = [w]
                /\ ffmpeg_location opts = None
                /\ if on_path w
                   then format opts = Some "bestvideo+bestaudio/best"
                        /\ merge_output_format opts = Some "mp4"
                   else format opts = Some "best"
                        /\ merge_output_format opts = None))).
  { intros post.
    exists pre, (build_ydlOpts videoDir case st), answer, post.
    split; [reflexivity|].
    destruct Hst as [(dir & -> & Hdir & He & Hw)|(w & -> & He & Hw)].
    - cbn. rewrite Hdir. repeat split. left. repeat split; eauto.
    - destruct (on_path w) eqn:Hon; cbn; repeat split; right; exists w;
        rewrite Hon; repeat split; auto. }
  apply wp_always. intros tr' [e|[]].
  - apply wp_always. intros tr'' r''. rewrite <- app_assoc. cbn [app].
    apply Hopts.
  - apply Hopts.
Qed.

End EngineRequest.

(* ===================================================================== *)
(** * The pool under every schedule *)
(* ===================================================================== *)



Section PoolStates.
Context {B : Builtins}.


Lemma reached_pool_inv o sched jobs lf w0 t workers :
  Forall (fun j => j_logFile j = lf) jobs ->
  w_lock w0 = None ->
  pool_inv lf jobs w0 (run_pool o sched (new_pool jobs w0 t workers)).
Proof.
  intros Hsame Hfree. apply run_pool_inv; [exact Hsame|].
  now apply new_pool_inv.
Qed.

(** Every section that a thread has closed is the beginning of a row of
    its URL; when none of its writes has failed it is empty or a whole
    row. *)
Lemma thread_sections lf jobs w0 p i th j :
  Forall (fun j => j_logFile j = lf) jobs ->
  pool_inv lf jobs w0 p ->
  threads p !! i = Some th -> jobs !! i = Some j ->
  Forall (row_start (j_url j)) (sections_of lf th)
  /\ (write_failures (th_trace th) = [] ->
      Forall (fun s => s = EmptyString \/ is_row (j_url j) s) (sections_of lf th)).
Proof.
  intros Hsame Hinv Hth Hj.
  assert (Hlf : j_logFile j = lf).
  { rewrite Forall_lookup in Hsame. exact (Hsame _ _ Hj). }
  destruct (inv_jobs Hinv Hth Hj) as [Hres _].
  destruct (residual_watched Hres) as (m & Hm & Hsec & _ & _ & Hwhole).
  rewrite Hlf in Hm. unfold sections_of, watch. rewrite Hm.
  split; [exact Hsec|]. intros Hnone. now destruct (Hwhole Hnone).
Qed.


End PoolStates.

(** ** The events of the jobs *)

Lemma mon_run_terms lf tr : forall m m',
  mon_run lf m tr = Some m' -> m_terms m' = m_terms m ++ terminals tr.
Proof.
  induction tr as [|o tr IH]; intros m m'; simpl.
  - intros H. injection H as <-. now rewrite app_nil_r.
  - destruct (mon_step lf m o) as [m1|] eqn:H1; [|discriminate]. intros H.
    rewrite (IH _ _ H). unfold terminals. cbn [flat_map].
    rewrite app_assoc. f_equal.
    destruct o as [[ev| | |path|path c| | | | ]|X c x]; simpl in H1;
      try discriminate;
      try (destruct (m_hold m); try discriminate);
      try (destruct (String.eqb path lf); try discriminate);
      injection H1 as <-; simpl; now rewrite ?app_nil_r.
Qed.

Lemma filter_permutation T (f : T -> bool) l l' :
  l ≡ₚ l' -> List.filter f l ≡ₚ List.filter f l'.
Proof.
  induction 1 as [|x l l' _ IH|x y l|l l' l'' _ IH1 _ IH2]; simpl.
  - reflexivity.
  - destruct (f x); [now constructor|exact IH].
  - destruct (f x), (f y); try reflexivity. apply perm_swap.
  - now rewrite IH1.
Qed.

Lemma terminal_events_own url u tr :
  Forall (own_obs u) tr ->
  terminal_events url (puts tr)
  = if String.eqb u url then terminals tr else [].
Proof.
  unfold terminal_events, puts, terminals.
  induction 1 as [|o tr Ho _ IH]; simpl; [now destruct (String.eqb u url)|].
  rewrite List.filter_app, IH.
  destruct o as [[[v pl]| | | | | | | | ]|X c x]; simpl;
    try (now destruct (String.eqb u url)).
  simpl in Ho. destruct Ho as [-> Hpl].
  unfold is_terminal. simpl.
  destruct pl; simpl; destruct (String.eqb u url); simpl; auto; contradiction.
Qed.

Lemma puts_not_finished u tr ev :
  Forall (own_obs u) tr -> In ev (puts tr) ->
  ev.1 = u /\ is_finished ev = false.
Proof.
  unfold puts. induction 1 as [|o tr Ho _ IH]; simpl; [intros []|].
  rewrite in_app_iff. intros [Hin|Hin]; [|auto].
  destruct o as [[e| | | | | | | | ]|X c x]; simpl in Hin;
    try contradiction.
  destruct Hin as [<-|[]]. simpl in Ho. destruct Ho as [Hu Hf].
  split; [exact Hu|]. unfold is_finished. now destruct (e.2).
Qed.

Section PoolEvents.
Context {B : Builtins}.

Lemma thread_events lf jobs w0 p i th j :
  pool_inv lf jobs w0 p ->
  threads p !! i = Some th -> jobs !! i = Some j ->
  job_events j th.
Proof.
  intros Hinv Hth Hj. destruct (inv_jobs Hinv Hth Hj) as [Hres _].
  unfold job_events. split; [|split].
  - destruct (runs_exists (th_prog th)) as (tr' & r & Hr).
    pose proof (all_obs_runs (processVideo_own _ _ _ _ _) (Hres _ _ Hr)) as H.
    now apply Forall_app in H as [H _].
  - destruct (residual_watched Hres) as (m & Hm & _ & Hlen & _).
    rewrite (mon_run_terms Hm) in Hlen. exact Hlen.
  - unfold ended. destruct (th_prog th) as [[]|e| |] eqn:Hp; auto.
    + assert (Hr : runs (run_job j) (th_trace th) (inr tt)).
      { rewrite <- (app_nil_r (th_trace th)). apply Hres. constructor. }
      destruct (job_run_watched Hr) as (m & Hm & (_ & _ & _ & Hend) & _).
      destruct Hend as (row & ev & _ & _ & Ht).
      rewrite (mon_run_terms Hm) in Ht. simpl in Ht. now rewrite Ht.
    + assert (Hr : runs (run_job j) (th_trace th) (inl e)).
      { rewrite <- (app_nil_r (th_trace th)). apply Hres. constructor. }
      destruct (job_run_watched Hr) as (m & Hm & (_ & _ & _ & Ht) & _).
      rewrite (mon_run_terms Hm) in Ht. exact Ht.
Qed.

Lemma terminal_events_app url a b :
  terminal_events url (a ++ b) = terminal_events url a ++ terminal_events url b.
Proof. apply List.filter_app. Qed.

Lemma terminal_events_elsewhere url (jobs : list job_args) ths :
  Forall2 job_events jobs ths ->
  (forall j, In j jobs -> j_url j <> url) ->
  terminal_events url (concat (map (fun th => puts (th_trace th)) ths)) = [].
Proof.
  induction 1 as [|j th jobs ths Hj _ IH]; intros Hne; [reflexivity|].
  cbn [map concat]. rewrite terminal_events_app, IH by (intros; apply Hne; now right).
  destruct Hj as (Hown & _). rewrite (terminal_events_own url Hown).
  destruct (String.eqb_spec (j_url j) url) as [He|]; [|reflexivity].
  exfalso. apply (Hne j); [now left|exact He].
Qed.

Lemma terminal_events_of_job (jobs : list job_args) ths :
  Forall2 job_events jobs ths ->
  NoDup (map j_url jobs) ->
  forall i j th, jobs !! i = Some j -> ths !! i = Some th ->
    terminal_events (j_url j) (concat (map (fun th => puts (th_trace th)) ths))
    = terminals (th_trace th).
Proof.
  induction 1 as [|j0 th0 jobs ths Hj0 Hrest IH]; intros Hnd i j th Hj Hth;
    [discriminate|].
  cbn [map concat]. rewrite terminal_events_app.
  cbn [map] in Hnd. apply NoDup_cons in Hnd as [Hnew Hnd].
  destruct Hj0 as (Hown & _). rewrite (terminal_events_own _ Hown).
  destruct i as [|i]; simpl in Hj, Hth.
  - injection Hj as ->. injection Hth as ->. rewrite String.eqb_refl.
    rewrite (terminal_events_elsewhere (url := j_url j) Hrest).
    + apply app_nil_r.
    + intros j' Hin He. apply Hnew. rewrite <- He.
      apply list_elem_of_In, in_map. exact Hin.
  - destruct (String.eqb_spec (j_url j0) (j_url j)) as [He|Hne].
    + exfalso. apply Hnew. rewrite He.
      apply list_elem_of_In, in_map, list_elem_of_In.
      eapply list_elem_of_lookup_2; eauto.
    + simpl. eapply IH; eauto.
Qed.

(** X15.  Jobs with different URLs that share a report, run by the pool
    under any schedule and with any answers of their collaborators: at
    every moment every event on the queue is an event of one of the
    jobs, under its URL, and none is FINISHED; no URL has more than one
    terminal event (DONE or FAILED); a job that has returned has exactly
    one, and a job that has ended with an exception has none. *)
Theorem one_terminal_event_per_url (o : oracle) (sched : list nat)
    (jobs : list job_args) lf w0 t workers :
  Forall (fun j => j_logFile j = lf) jobs ->
  w_lock w0 = None ->
  w_queue w0 = [] ->
  NoDup (map j_url jobs) ->
  let p := run_pool o sched (new_pool jobs w0 t workers) in
  let q := w_queue (shared p) in
  (forall ev, In ev q ->
     is_finished ev = false /\ exists j, In j jobs /\ ev.1 = j_url j)
  /\ (forall url, length (terminal_events url q) <= 1)
  /\ (forall i j th, jobs !! i = Some j -> threads p !! i = Some th ->
        match ended th with
        | Some (inr _) => length (terminal_events (j_url j) q) = 1
        | Some (inl _) => terminal_events (j_url j) q = []
        | None => True
        end).
Proof.
  intros Hsame Hfree Hempty Hnd p q.
  pose proof (reached_pool_inv o sched t workers Hsame Hfree) as Hinv.
  fold p in Hinv.
  assert (Hq : q ≡ₚ concat (map (fun th => puts (th_trace th)) (threads p))).
  { unfold q. rewrite (inv_queue Hinv), Hempty. reflexivity. }
  assert (Hall : Forall2 job_events jobs (threads p)).
  { apply Forall2_same_length_lookup_2.
    - symmetry. exact (inv_length Hinv).
    - intros i j th Hj Hth. exact (thread_events Hinv Hth Hj). }
  assert (Hte : forall url,
    terminal_events url q
    ≡ₚ terminal_events url
         (concat (map (fun th => puts (th_trace th)) (threads p)))).
  { intros url. apply filter_permutation. exact Hq. }
  split; [|split].
  - intros ev Hin. apply list_elem_of_In in Hin. rewrite Hq in Hin.
    apply list_elem_of_In, in_concat in Hin as (l & Hl & Hin).
    apply in_map_iff in Hl as (th & <- & Hth).
    apply list_elem_of_In, list_elem_of_lookup in Hth as (i & Hth).
    assert (Hi : i < length jobs).
    { rewrite <- (inv_length Hinv). eapply lookup_lt_Some; eauto. }
    destruct (lookup_lt_is_Some_2 jobs i Hi) as [j Hj].
    destruct (thread_events Hinv Hth Hj) as (Hown & _).
    destruct (puts_not_finished Hown Hin) as [Hu Hf].
    split; [exact Hf|]. exists j. split; [|exact Hu].
    apply list_elem_of_In. eapply list_elem_of_lookup_2; eauto.
  - intros url. rewrite (Permutation_length (Hte url)).
    destruct (in_dec String.string_dec url (map j_url jobs)) as [Hin|Hout].
    + apply in_map_iff in Hin as (j & <- & Hin).
      apply list_elem_of_In, list_elem_of_lookup in Hin as (i & Hj).
      assert (Hi : i < length (threads p)).
      { rewrite (inv_length Hinv). eapply lookup_lt_Some; eauto. }
      destruct (lookup_lt_is_Some_2 (threads p) i Hi) as [th Hth].
      rewrite (terminal_events_of_job Hall Hnd Hj Hth).
      now destruct (thread_events Hinv Hth Hj) as (_ & Hlen & _).
    + rewrite (terminal_events_elsewhere (url := url) Hall); [simpl; lia|].
      intros j Hin He. apply Hout. rewrite <- He. now apply in_map.
  - intros i j th Hj Hth.
    destruct (thread_events Hinv Hth Hj) as (_ & _ & Hend).
    pose proof (terminal_events_of_job Hall Hnd Hj Hth) as Heq.
    destruct (ended th) as [[e|[]]|]; [| |exact I].
    + rewrite Hend in Heq. pose proof (Hte (j_url j)) as Hp.
      rewrite Heq in Hp. now apply Permutation_nil_r in Hp.
    + rewrite (Permutation_length (Hte (j_url j))), Heq. exact Hend.
Qed.

End PoolEvents.

(* ===================================================================== *)
(** * A whole case: [startCase], the pool, [finalize], the interface *)
(* ===================================================================== *)

Lemma apply_trace_keeps tid tr : forall w,
  Forall leaves_queue_and_lock tr ->
  w_queue (apply_trace tid tr w) = w_queue w
  /\ w_lock (apply_trace tid tr w) = w_lock w.
Proof.
  induction tr as [|o tr IH]; intros w Htr; [auto|].
  inversion Htr as [|? ? Ho Htr']; subst.
  destruct o as [[ev| | |path|path c| | | | ]|X c x]; simpl in *;
    try contradiction;
    match goal with
    | |- context [apply_trace tid tr ?w1] =>
        destruct (IH w1 Htr') as [Hq Hl]; rewrite Hq, Hl
    end; auto.
Qed.

Lemma setup_leaves_queue_and_lock o : setup_obs o -> leaves_queue_and_lock o.
Proof. destruct o as [[]|]; simpl; auto. Qed.

Lemma terminals_puts tr : List.filter is_terminal (puts tr) = terminals tr.
Proof.
  unfold puts, terminals. induction tr as [|o tr IH]; [reflexivity|].
  cbn [flat_map]. rewrite List.filter_app, IH. f_equal.
  destruct o as [[[u []]| | | | | | | | ]|X c x]; reflexivity.
Qed.

Lemma filter_concat_length T (f : T -> bool) (ls : list (list T)) :
  length (List.filter f (concat ls))
  = list_sum (map (fun l => length (List.filter f l)) ls).
Proof.
  induction ls as [|l ls IH]; [reflexivity|].
  cbn [concat map list_sum]. now rewrite List.filter_app, length_app, IH.
Qed.

Lemma count_done_failed q :
  count_done q + count_failed q = length (List.filter is_terminal q).
Proof.
  unfold count_done, count_failed.
  induction q as [|[u pl] q IH]; [reflexivity|].
  cbn [List.filter]. unfold is_done, is_failed, is_terminal in *.
  destruct pl; cbn [snd length]; lia.
Qed.

Section WholeCase.
Context {B : Builtins}.

Lemma run_case_parts (o : oracle) (sched : list nat) (self : App) :
  run_case o sched self
  = let start := case_start o self in
    let p := case_pool o sched self in
    match thread_starts start.1 with
    | log_file :: _ =>
        if all_finished p then
          let fin := exec o (clock p) (finalize log_file) in
          RunState start p (Some fin) (apply_trace main_tid fin.1 (shared p))
        else RunState start p None (shared p)
    | [] => RunState start p None (shared p)
    end.
Proof. reflexivity. Qed.

(** A case whose [finalize] thread was started. *)
Lemma started_case (self : App) tr r :
  runs (startCase self) tr r ->
  ~ config_invalid self ->
  thread_starts tr <> [] ->
  exists self',
    r = inr (self', None)
    /\ NoDup (entered_urls self)
    /\ submitted tr = case_jobs self (entered_urls self)
    /\ thread_starts tr = [case_report self]
    /\ tree self' = map queued_row (entered_urls self)
    /\ total_items self' = length (entered_urls self)
    /\ done_items self' = 0
    /\ failed_items self' = 0
    /\ Forall leaves_queue_and_lock tr.
Proof.
  intros Hr Hv Hts.
  destruct (runs_wp Hr (startCase_shape self))
    as [(Hi & _)|(_ & [(e & -> & Hs)|H])]; [contradiction| |].
  { exfalso. apply Hts. exact (thread_starts_setup Hs). }
  destruct H as (setup & s & err & sent & Hs & -> & -> & Hfut & Htree
                 & Htot & Hd & Hf & Hnd & Herr).
  destruct err as [e|].
  { exfalso. apply Hts.
    destruct (@dispatch_projections setup (entered_threads self)
                (case_jobs self sent) [] Hs) as [_ Hp]; [now left|].
    exact Hp. }
  subst sent.
  destruct (@dispatch_projections setup (entered_threads self)
              (case_jobs self (entered_urls self))
              [ODo (ThreadStart (case_report self))] Hs)
    as [Hsub Hp]; [right; eauto|].
  exists s. repeat split; auto.
  apply Forall_app. split.
  - eapply Forall_impl; [exact Hs|]. exact setup_leaves_queue_and_lock.
  - constructor; [exact I|]. apply Forall_app. split.
    + apply Forall_forall. intros x Hx. apply list_elem_of_In in Hx.
      apply in_map_iff in Hx as (j & <- & _). exact I.
    + repeat constructor.
Qed.

Lemma case_jobs_urls (self : App) urls : map j_url (case_jobs self urls) = urls.
Proof.
  unfold case_jobs. rewrite map_map. simpl. apply map_id.
Qed.

Lemma case_jobs_report (self : App) urls :
  Forall (fun j => j_logFile j = case_report self) (case_jobs self urls).
Proof.
  unfold case_jobs, case_report. apply Forall_forall. intros j Hj.
  apply list_elem_of_In, in_map_iff in Hj as (u & <- & _). reflexivity.
Qed.

(** The terminal events of the jobs of a pool all of whose jobs have
    ended: one for each job that has returned. *)
Lemma finished_jobs_terminals (jobs : list job_args) ths :
  Forall2 job_events jobs ths ->
  forallb finished ths = true ->
  length (List.filter is_terminal
            (concat (map (fun th => puts (th_trace th)) ths)))
  = length (List.filter returned ths).
Proof.
  induction 1 as [|j th jobs ths Hj _ IH]; [reflexivity|].
  cbn [forallb map concat List.filter]. intros Hfin.
  apply andb_true_iff in Hfin as [Hf Hfin].
  rewrite List.filter_app, length_app, terminals_puts, (IH Hfin).
  destruct Hj as (_ & _ & Hend). unfold ended, finished, returned in *.
  destruct (th_prog th) as [[]|e| |]; try discriminate; simpl.
  - now rewrite Hend.
  - now rewrite Hend.
Qed.

Lemma text_trace_leaves path mode stamp s fate :
  Forall leaves_queue_and_lock (text_trace path mode stamp s fate).
Proof.
  unfold text_trace. constructor; [exact I|].
  apply Forall_app. split.
  - destruct mode; repeat constructor.
  - constructor; [exact I|]. constructor; [exact I|]. unfold row_writes.
    apply Forall_forall. intros x Hx.
    apply list_elem_of_In, in_map_iff in Hx as (c & <- & _). exact I.
Qed.

Lemma finalize_shape log_file :
  wp (finalize log_file)
     (fun tr r =>
        (exists stamp,
           tr = text_written log_file ModeA stamp (html_footer stamp)
                ++ [ODo (QueuePut ("__SYSTEM__", FINISHED log_file))]
           /\ r = inr tt)
        \/ (exists e, r = inl e /\ Forall leaves_queue_and_lock tr)).
Proof.
  unfold finalize, closeHTMLlog.
  apply wp_bind. eapply wp_mono; [|apply open_and_write_stamped].
  intros tr r [(e & -> & ->)|(stamp & [[n e]|] & -> & ->)]; cbn [wp act].
  - right. exists e. split; [reflexivity|]. repeat constructor.
  - right. exists e. split; [reflexivity|]. apply text_trace_leaves.
  - left. eauto.
Qed.

Lemma text_written_leaves path mode stamp s :
  Forall leaves_queue_and_lock (text_written path mode stamp s).
Proof. apply text_trace_leaves. Qed.

Lemma filter_none T (f : T -> bool) l :
  (forall x, In x l -> f x = false) -> List.filter f l = [].
Proof.
  induction l as [|x l IH]; intros H; [reflexivity|]. simpl.
  rewrite (H x) by now left. apply IH. intros y Hy. apply H. now right.
Qed.

(** The events on the queue of a pool are events of its jobs. *)
Lemma pool_queue_events lf (jobs : list job_args) w0 p ev :
  pool_inv lf jobs w0 p ->
  w_queue w0 = [] ->
  In ev (w_queue (shared p)) ->
  is_finished ev = false /\ exists j, In j jobs /\ ev.1 = j_url j.
Proof.
  intros Hinv Hempty Hin.
  apply list_elem_of_In in Hin. rewrite (inv_queue Hinv), Hempty in Hin.
  apply list_elem_of_In, in_concat in Hin as (l & Hl & Hin).
  apply in_map_iff in Hl as (th & <- & Hth).
  apply list_elem_of_In, list_elem_of_lookup in Hth as (i & Hth).
  assert (Hi : i < length jobs).
  { rewrite <- (inv_length Hinv). eapply lookup_lt_Some; eauto. }
  destruct (lookup_lt_is_Some_2 jobs i Hi) as [j Hj].
  destruct (thread_events Hinv Hth Hj) as (Hown & _).
  destruct (puts_not_finished Hown Hin) as [Hu Hf].
  split; [exact Hf|]. exists j. split; [|exact Hu].
  apply list_elem_of_In. eapply list_elem_of_lookup_2; eauto.
Qed.

(** X17.  A whole case, under any schedule of the pool and with any
    answers of the collaborators: if the configuration is valid and
    [finalize] has run to its end (so [startCase] dispatched every URL,
    every job has ended and the footer was written), then the interface
    drains the queue without an error, the queue holds exactly one
    FINISHED event, naming the report of the case, the badge reads DONE,
    and [done_items + failed_items] is the number of jobs that returned:
    it is the number of URLs exactly when no job ended with an
    exception. *)
Theorem case_counts_add_up (o : oracle) (sched : list nat) (self : App) trf :
  ~ config_invalid self ->
  rs_finalize (run_case o sched self) = Some (trf, inr tt) ->
  let rs := run_case o sched self in
  exists self',
    drained self rs = (self', [], None)
    /\ total_items self' = length (entered_urls self)
    /\ length (threads (rs_pool rs)) = length (entered_urls self)
    /\ done_items self' + failed_items self'
       = length (List.filter returned (threads (rs_pool rs)))
    /\ statusBadge self' = "DONE"
    /\ List.filter is_finished (w_queue (rs_world rs))
       = [("__SYSTEM__", FINISHED (case_report self))].
Proof.
  intros Hv Hfin rs. unfold rs, drained. clear rs.
  rewrite run_case_parts in *. cbv zeta in *.
  pose proof (exec_runs o (startCase self) 0) as Hr.
  fold (case_start o self) in Hr.
  destruct (thread_starts (case_start o self).1) as [|lf rest] eqn:Hts;
    [discriminate|].
  destruct (all_finished (case_pool o sched self)) eqn:Hall; [|discriminate].
  remember (exec o (clock (case_pool o sched self)) (finalize lf)) as ex
    eqn:Hex.
  cbn [rs_finalize rs_start rs_pool rs_world] in *.
  injection Hfin as Hfin.
  destruct (started_case Hr Hv)
    as (s & Hres & Hnd & Hsub & Hts' & Htree & Htot & Hd & Hf & Hleave).
  { rewrite Hts. discriminate. }
  rewrite Hts in Hts'. injection Hts' as -> ->.
  destruct (apply_trace_keeps main_tid empty_world Hleave) as [Hq0 Hl0].
  fold (case_world o self) in Hq0, Hl0. simpl in Hq0, Hl0.
  set (urls := entered_urls self) in *.
  set (jobs := case_jobs self urls) in *.
  set (p := case_pool o sched self) in *.
  assert (Hinv : pool_inv (case_report self) jobs (case_world o self) p).
  { unfold p, case_pool. rewrite Hsub.
    apply reached_pool_inv; [apply case_jobs_report|exact Hl0]. }
  assert (Hlen : length (threads p) = length urls).
  { rewrite (inv_length Hinv). unfold jobs, case_jobs. apply length_map. }
  assert (Hevents : Forall2 job_events jobs (threads p)).
  { apply Forall2_same_length_lookup_2.
    - symmetry. exact (inv_length Hinv).
    - intros i j th Hj Hth. exact (thread_events Hinv Hth Hj). }
  pose proof (exec_runs o (finalize (case_report self)) (clock p)) as Hrf.
  rewrite <- Hex, Hfin in Hrf. cbn [fst snd] in Hrf.
  destruct (runs_wp Hrf (finalize_shape (case_report self)))
    as [(stamp & Htrf & _)|(e & He & _)]; [|discriminate].
  rewrite Hfin. cbn [fst].
  set (fin := ("__SYSTEM__", FINISHED (case_report self))) in *.
  assert (Hworld : w_queue (apply_trace main_tid trf (shared p))
                   = w_queue (shared p) ++ [fin]).
  { rewrite Htrf, apply_trace_app.
    destruct (apply_trace_keeps main_tid (shared p)
                (text_written_leaves (case_report self) ModeA stamp
                   (html_footer stamp))) as [Hq _].
    cbn [apply_trace apply_action default from_option w_queue id].
    now rewrite Hq. }
  rewrite Hworld.
  assert (Hjobs : forall ev, In ev (w_queue (shared p)) ->
            is_finished ev = false /\ In ev.1 urls).
  { intros ev Hin.
    destruct (pool_queue_events Hinv Hq0 Hin) as (Hnf & j & Hj & Hu).
    split; [exact Hnf|]. rewrite Hu, <- (case_jobs_urls self urls).
    now apply in_map. }
  assert (Hknown : Forall (row_known (tree s)) (w_queue (shared p) ++ [fin])).
  { apply Forall_app. split.
    - apply Forall_forall. intros ev Hin. apply list_elem_of_In in Hin.
      intros _. rewrite Htree, map_map. simpl. rewrite map_id.
      now apply Hjobs.
    - constructor; [|constructor]. intros Ht. discriminate. }
  destruct (case_start o self) as [tr0 r0]. cbn [fst snd] in *. subst r0.
  destruct (updatingUI_known Hknown) as (s' & Hui & Hd' & Hf' & Ht' & _ & Hb).
  exists s'. split; [exact Hui|]. split; [now rewrite Ht'|].
  split; [exact Hlen|]. split; [|split].
  - rewrite Hd', Hf', Hd, Hf. simpl.
    pose proof (count_done_failed (w_queue (shared p) ++ [fin])) as Hc.
    rewrite List.filter_app, length_app in Hc. simpl in Hc.
    rewrite Nat.add_0_r in Hc.
    assert (Hperm : List.filter is_terminal (w_queue (shared p))
                    ≡ₚ List.filter is_terminal
                         (concat (map (fun th => puts (th_trace th))
                                      (threads p)))).
    { apply filter_permutation. rewrite (inv_queue Hinv), Hq0. reflexivity. }
    rewrite (Permutation_length Hperm) in Hc.
    rewrite (finished_jobs_terminals Hevents Hall) in Hc. lia.
  - rewrite Hb. rewrite existsb_app. simpl. now rewrite orb_true_r.
  - rewrite List.filter_app. simpl.
    rewrite filter_none; [reflexivity|]. intros ev Hin. now apply Hjobs.
Qed.

End WholeCase.

(** ** The header of the report *)

Lemma apply_trace_dispatch tid tr : forall w,
  Forall dispatch_only tr -> apply_trace tid tr w = w.
Proof.
  induction tr as [|o tr IH]; intros w Htr; [reflexivity|].
  inversion Htr as [|? ? Ho Htr']; subst.
  destruct o as [[ev| | |path|path c| | | | ]|X c x]; simpl in *;
    try contradiction; now apply IH.
Qed.

Lemma urlopen_answers_dispatch tr :
  Forall dispatch_only tr -> urlopen_answers tr = [].
Proof.
  unfold urlopen_answers. induction 1 as [|o tr Ho _ IH]; [reflexivity|].
  simpl. rewrite IH. destruct o as [[]|]; simpl in *; try contradiction;
    reflexivity.
Qed.

Lemma urlopen_answers_text_written path mode stamp s :
  urlopen_answers (text_written path mode stamp s) = [].
Proof.
  unfold urlopen_answers, text_written, text_trace.
  destruct mode; cbn [flat_map urlopen_answer_of app];
    now rewrite flat_map_row_writes by reflexivity.
Qed.

Section Header.
Context {B : Builtins}.

Lemma checkIPaddress_shape :
  wp checkIPaddress
     (fun tr r =>
        exists a1 a2,
          tr = [OCall (UrlopenRead "https://api.ipify.org" 5) a1;
                OCall (UrlopenRead "https://checkip.amazonaws.com" 5) a2]
          /\ r = inr [ip_entry a1; ip_entry a2]).
Proof.
  unfold checkIPaddress. simpl. intros a1.
  destruct a1 as [e|d]; simpl.
  - intros [e2|d2]; simpl; [|destruct (decode d2) eqn:Hd2; simpl];
      eexists (inl e), _; (split; [reflexivity|]); simpl;
      rewrite ?Hd2; reflexivity.
  - destruct (decode d) eqn:Hd; simpl;
      (intros [e2|d2]; simpl; [|destruct (decode d2) eqn:Hd2; simpl]);
      eexists (inr d), _; (split; [reflexivity|]); simpl;
      rewrite ?Hd, ?Hd2; reflexivity.
Qed.

Lemma startCase_valid (self : App) :
  ~ config_invalid self ->
  startCase self
  = startCase_accepted self (Py.strip (caseEntry self)) (entered_threads self)
      (entered_urls self) (Py.strip (destinationEntry self)).
Proof.
  intros Hv. unfold startCase.
  destruct (Py.truthy (Py.strip (caseEntry self))) eqn:Hcase.
  2: { exfalso. apply Hv. left. now destruct (Py.strip (caseEntry self)). }
  destruct (entered_urls self) as [|u urls] eqn:Hurls.
  { exfalso. apply Hv. right. now left. }
  destruct (Py.truthy (Py.strip (destinationEntry self))) eqn:Hdest.
  2: { exfalso. apply Hv. right. right.
       now destruct (Py.strip (destinationEntry self)). }
  reflexivity.
Qed.

Lemma submit_all_dispatch vd td lf case urls : forall self,
  wp (submit_all self vd td lf case urls)
     (fun tr r => Forall dispatch_only tr /\ exists res, r = inr res).
Proof.
  induction urls as [|url rest IH]; intros self; simpl.
  - split; [constructor|eauto].
  - destruct (tree_insert url _ (tree self)) as [e|t]; simpl.
    + split; [constructor|eauto].
    + eapply wp_mono; [|apply IH]. intros tr r [Htr Hr].
      split; [constructor; [exact I|exact Htr]|exact Hr].
Qed.

Lemma saveSetting_quiet case threads dest :
  wp (saveSetting case threads dest) (fun tr _ => urlopen_answers tr = []).
Proof.
  eapply wp_mono;
    [|apply (wp_all_obs (P := fun o => urlopen_answer_of o = []))].
  - intros tr r Hall. unfold urlopen_answers.
    induction Hall as [|x l Hx _ IH]; [reflexivity|]. simpl.
    now rewrite Hx, IH.
  - unfold saveSetting. apply all_obs_open_and_write; try reflexivity;
      exact I.
Qed.

Lemma startCase_accepted_header (self : App) :
  wp (startCase_accepted self (Py.strip (caseEntry self)) (entered_threads self)
        (entered_urls self) (Py.strip (destinationEntry self)))
     (header_shape self).
Proof.
  unfold startCase_accepted, header_shape.
  apply wp_bind. eapply wp_mono; [|apply saveSetting_quiet].
  intros tr0 [e|[]] Hsave; [intros ? ? Hr; discriminate Hr|].
  cbn [bind io act wp].
  intros [e|[]]; cbn [bind wp]; [intros ? ? Hr; discriminate Hr|].
  intros [e|[]]; cbn [bind wp]; [intros ? ? Hr; discriminate Hr|].
  apply wp_bind. eapply wp_mono; [|apply checkIPaddress_shape].
  intros tr r (a1 & a2 & -> & ->). cbn iota beta.
  apply wp_bind. unfold createHTMLlog.
  eapply wp_mono; [|apply open_and_write_stamped].
  fold (case_report self).
  intros tr r [(e & -> & ->)|(stamp & [[n e]|] & -> & ->)];
    [intros ? ? Hr; discriminate Hr|intros ? ? Hr; discriminate Hr|].
  pose proof (entered_threads_range self) as Hrange.
  destruct (Z.leb_spec (entered_threads self) 0) as [Hle|Hgt]; [lia|].
  cbn [bind act wp].
  apply wp_bind. eapply wp_mono; [|apply submit_all_dispatch].
  intros tr r [Htr (res & ->)].
  destruct res as [s [e|]]; cbn [bind act wp]; intros self' err _;
    eexists (tr0 ++ [_; _; _; _]), a1, a2, stamp, _;
    (split; [rewrite <- !app_assoc; reflexivity|]);
    (split; [unfold urlopen_answers in *; rewrite flat_map_app, Hsave;
             reflexivity|]);
    (constructor; [exact I|]); apply Forall_app; (split; [exact Htr|]);
    repeat constructor.
Qed.

(** The report after a case that got past its creation. *)
Lemma header_world (self : App) tr self' err w :
  runs (startCase self) tr (inr (self', err)) ->
  ~ config_invalid self ->
  exists a1 a2 stamp,
    urlopen_answers tr = [a1; a2]
    /\ file_text (case_report self) (apply_trace main_tid tr w)
       = html_header (Py.strip (caseEntry self)) stamp (ip_entry a1)
           (ip_entry a2)
           (if String.eqb (ip_entry a1) (ip_entry a2)
               && negb (String.eqb (ip_entry a1) "ERROR")
            then "VERIFIED" else "MISMATCH").
Proof.
  intros Hr Hv. rewrite (startCase_valid Hv) in Hr.
  destruct (runs_wp Hr (startCase_accepted_header self) _ _ eq_refl)
    as (pre & a1 & a2 & stamp & post & Htr & Hans & Hpost).
  cbv zeta in Htr. exists a1, a2, stamp. subst tr. split.
  - unfold urlopen_answers in *. rewrite !flat_map_app, Hans.
    fold (urlopen_answers post).
    rewrite (urlopen_answers_dispatch Hpost).
    match goal with
    | |- context [flat_map urlopen_answer_of (text_written ?p ?m ?s ?h)] =>
        change (flat_map urlopen_answer_of (text_written p m s h))
          with (urlopen_answers (text_written p m s h));
        rewrite (urlopen_answers_text_written p m s h)
    end.
    reflexivity.
  - rewrite !apply_trace_app, (apply_trace_dispatch _ _ Hpost).
    match goal with
    | |- context [text_written ?p ?m ?s ?h] =>
        destruct (text_written_world p m s h (apply_trace main_tid pre w))
          as [Hf _]
    end.
    exact Hf.
Qed.

(** X18.  A case that got past the creation of its report (whatever
    happened to the dispatch afterwards): [startCase] has asked the two
    address services, and the report holds exactly the header with the
    case number, the start time, the two entries of [checkIPaddress] and
    the verdict, which is VERIFIED when the two entries are equal and
    are not ERROR, and MISMATCH otherwise, also when both services
    failed. *)
Theorem report_header_records_addresses (self : App) tr self' err w :
  runs (startCase self) tr (inr (self', err)) ->
  ~ config_invalid self ->
  exists a1 a2 stamp status,
    urlopen_answers tr = [a1; a2]
    /\ file_text (case_report self) (apply_trace main_tid tr w)
       = html_header (Py.strip (caseEntry self)) stamp (ip_entry a1)
           (ip_entry a2) status
    /\ (status = "VERIFIED"
        /\ ip_entry a1 = ip_entry a2 /\ ip_entry a1 <> "ERROR"
        \/ status = "MISMATCH"
           /\ (ip_entry a1 <> ip_entry a2 \/ ip_entry a1 = "ERROR")).
Proof.
  intros Hr Hv.
  destruct (header_world w Hr Hv) as (a1 & a2 & stamp & Hans & Hfile).
  exists a1, a2, stamp. eexists. split; [exact Hans|].
  split; [exact Hfile|].
  destruct (String.eqb_spec (ip_entry a1) (ip_entry a2)) as [He|Hne];
    destruct (String.eqb_spec (ip_entry a1) "ERROR") as [Herr|Hok];
    cbn [andb negb]; auto.
Qed.

End Header.

(** ** The report at the end of a case *)


Section FinalReport.
Context {B : Builtins}.

Lemma filter_last_one T (f : T -> bool) (l : list T) x :
  last l = Some x -> f x = true -> length (List.filter f l) = 1 ->
  List.filter f l = [x].
Proof.
  intros Hl Hx Hlen. apply last_Some in Hl as [l' ->].
  rewrite List.filter_app in *. cbn [List.filter] in *. rewrite Hx in *.
  rewrite length_app in Hlen. simpl in Hlen.
  destruct (List.filter f l'); [reflexivity|simpl in Hlen; lia].
Qed.

Lemma thread_rows lf jobs w0 p i th j :
  Forall (fun j => j_logFile j = lf) jobs ->
  pool_inv lf jobs w0 p ->
  threads p !! i = Some th -> jobs !! i = Some j ->
  job_rows lf j th /\ (finished th = true -> holds lf th = false).
Proof.
  intros Hsame Hinv Hth Hj.
  assert (Hlf : j_logFile j = lf).
  { rewrite Forall_lookup in Hsame. exact (Hsame _ _ Hj). }
  destruct (inv_jobs Hinv Hth Hj) as [Hres _].
  assert (Hend : forall r, runs (th_prog th) [] r ->
            exists m, watch lf th = Some m /\ job_end (j_url j) m r
                      /\ m_terms m = terminals (th_trace th)
                      /\ (write_failures (th_trace th) = [] ->
                          whole_end (j_url j) m r)).
  { intros r Hr. pose proof (Hres _ _ Hr) as Hrun.
    rewrite app_nil_r in Hrun.
    destruct (job_run_watched Hrun) as (m & Hm & He & Hw).
    rewrite Hlf in Hm. exists m. split; [exact Hm|]. split; [exact He|].
    split; [|exact Hw]. now rewrite (mon_run_terms Hm). }
  unfold job_rows, ended, finished, holds, sections_of.
  destruct (th_prog th) as [[]|e| |] eqn:Hp.
  - destruct (Hend (inr tt)) as (m & -> & (Hh & _ & _ & Hrows) & Ht & Hw);
      [constructor|].
    split; [|auto]. intros Hnone. destruct (Hw Hnone) as [_ Hone].
    destruct Hrows as (row & ev & Hlast & Hrow & Hev).
    exists row, ev. split; [|split; [exact Hrow|congruence]].
    apply filter_last_one; auto.
    apply is_row_nonempty with (url := j_url j).
    exact (row_for_is_row Hrow).
  - destruct (Hend (inl e)) as (m & -> & (Hh & _) & _ & Hw); [constructor|].
    split; [|auto]. intros Hnone. now destruct (Hw Hnone).
  - split; [intros _; exact I|discriminate].
  - split; [intros _; exact I|discriminate].
Qed.




End FinalReport.

(* ===================================================================== *)
(** * The set-up of a case, step by step *)
(* ===================================================================== *)

Ltac setup_shown :=
  unfold setup_failures, dirs_made, errors_shown, executors, submitted,
    thread_starts, opens, case_ready, case_setup, settings_saved,
    text_written, text_cut, text_trace;
  repeat first
    [ progress cbn [flat_map app setup_failure_of dir_made_of error_shown_of
                    executor_of submitted_of thread_start_of open_of reached]
    | rewrite flat_map_app
    | rewrite flat_map_row_writes by reflexivity
    | rewrite app_nil_r ].

Section SetUp.
Context {B : Builtins}.

Lemma saveSetting_shape case n dest :
  wp (saveSetting case n dest)
     (fun tr r =>
        (exists e, tr = [OCall (OpenText settingFile ModeW) (inl e)]
                   /\ r = inl e)
        \/ (exists fate,
              tr = settings_saved (json_dumps case n dest) fate
              /\ r = match fate with
                     | None => inr tt
                     | Some (_, e) => inl e
                     end)).
Proof.
  unfold saveSetting, open_and_write, settings_saved, write_text.
  cbn [bind io ask act wp].
  intros [e|[]]; cbn [bind wp]; [left; eauto|].
  intros [[k e]|]; cbn [bind wp reached].
  - rewrite for_each_act. apply wp_dos. cbn [wp]. right.
    exists (Some (k, e)). cbn [reached].
    now rewrite app_nil_r, map_map, row_writes_cut.
  - rewrite for_each_dos. apply wp_dos. cbn [wp]. right. exists None.
    now rewrite app_nil_r, map_map.
Qed.

(** The set-up that [startCase] and its legacy version share: it raises
    in one of the ways of [setup_raised], or it comes to its end with the
    report created, and [k] follows. *)
Lemma setup_then (header : string -> string -> string -> string -> string -> string)
    (self : App) n A (k : prog A) (Q : list obs -> exn + A -> Prop) :
  (forall e tr, setup_raised header self n e tr -> Q tr (inl e)) ->
  (forall a1 a2 stamp,
     wp k (fun tr r => Q (case_ready header self n a1 a2 stamp ++ tr) r)) ->
  wp (_ <- saveSetting (Py.strip (caseEntry self)) n
             (Py.strip (destinationEntry self));;
      _ <- io (Makedirs (case_videos self));;
      _ <- io (Makedirs (case_thumbs self));;
      ips <- checkIPaddress;;
      match ips with
      | [ip1; ip2] =>
          _ <- open_and_write (case_report self) ModeW
                 (stamp <- utcStamp;;
                  Ret (header (Py.strip (caseEntry self)) stamp ip1 ip2
                         (if String.eqb ip1 ip2 && negb (String.eqb ip1 "ERROR")
                          then "VERIFIED" else "MISMATCH")));;
          k
      | _ => Raise "ValueError: not enough values to unpack"
      end) Q.
Proof.
  intros Hraise Hk.
  apply wp_bind. eapply wp_mono; [|apply saveSetting_shape].
  intros tr r [(e & -> & ->)|([[k0 e]|] & -> & ->)].
  - apply Hraise. left. reflexivity.
  - apply Hraise. right. left. eauto.
  - fold (case_settings self n).
    cbn [bind io wp]. intros [e|[]]; cbn [bind wp].
    { apply Hraise. do 2 right. left. reflexivity. }
    intros [e|[]]; cbn [bind wp].
    { apply Hraise. do 3 right. left. reflexivity. }
    apply wp_bind. eapply wp_mono; [|apply checkIPaddress_shape].
    intros tr r (a1 & a2 & -> & ->). cbn iota beta.
    apply wp_bind. eapply wp_mono; [|apply open_and_write_stamped].
    intros tr r [(e & -> & ->)|(stamp & [[k0 e]|] & -> & ->)].
    + apply Hraise. do 4 right. left. exists a1, a2.
      unfold case_setup. rewrite <- !app_assoc. reflexivity.
    + apply Hraise. do 5 right. exists a1, a2, stamp, k0.
      unfold case_setup, text_cut. rewrite <- !app_assoc. reflexivity.
    + eapply wp_mono; [|apply (Hk a1 a2 stamp)]. intros tr r HQ.
      unfold case_ready, case_setup, text_written in HQ.
      rewrite <- !app_assoc in HQ. cbn [app] in HQ |- *. exact HQ.
Qed.

(** A set-up that raised has shown no error box, created no pool,
    submitted no job, started no thread; the exception is the one
    failure of its steps, and [settings.json] was opened first. *)
Lemma setup_raised_projections header (self : App) n e tr :
  setup_raised header self n e tr ->
  errors_shown tr = [] /\ executors tr = [] /\ submitted tr = []
  /\ thread_starts tr = [] /\ setup_failures tr = [e]
  /\ exists ans rest, tr = OCall (OpenText settingFile ModeW) ans :: rest.
Proof.
  intros [->|[(k & ->)|[->|[->|[(a1 & a2 & ->)|(a1 & a2 & stamp & k & ->)]]]]];
    setup_shown; repeat split; eauto.
Qed.

Lemma case_ready_projections header (self : App) n a1 a2 stamp :
  let tr := case_ready header self n a1 a2 stamp in
  errors_shown tr = [] /\ executors tr = [] /\ submitted tr = []
  /\ thread_starts tr = [] /\ setup_failures tr = []
  /\ dirs_made tr = [case_videos self; case_thumbs self]
  /\ opens tr = [(settingFile, ModeW, inr tt);
                 (case_report self, ModeW, inr tt)].
Proof. cbv zeta. setup_shown. repeat split. Qed.

End SetUp.

(* ===================================================================== *)
(** * What [startCase] checks of the configuration *)
(* ===================================================================== *)


Section ConfigChecked.
Context {B : Builtins}.



End ConfigChecked.

(* ===================================================================== *)
(** * A hash mismatch, from the job to the interface *)
(* ===================================================================== *)

Section MismatchReported.
Context {B : Builtins}.

(** C1.  A job none of whose primary steps fails and whose two digests
    differ returns normally.  Its row, the only thing it writes to the
    report, is the video row made of what the job was answered (the id
    and the title the engine gave, the link to the final file, the name
    of the final file) with the status HASH_MISMATCH, the class of a
    failure and the second digest only.  Its only terminal event is the
    DONE event under its URL with the second digest, the event that a
    verified download puts: the first digest and the verdict are not in
    it.  And [updatingUI], when the row of the URL is in the tree, shows
    VERIFIED with that digest for it and counts the job as done, not as
    failed. *)
Theorem hash_mismatch_reported_done url videoDir thumbDir logFile case
    tr r h1 h2 :
  runs (processVideo url videoDir thumbDir logFile case) tr r ->
  primary_failures tr = [] ->
  digests tr = [h1; h2] ->
  h1 <> h2 ->
  r = inr tt
  /\ (exists info temp rel stamp,
        let finalPath := Py.path_join videoDir (Py.basename temp) in
        extracted tr = [inr info]
        /\ prepared tr = [inr temp]
        /\ moves tr = [(temp, finalPath)]
        /\ relpaths tr = [inr rel]
        /\ stamps tr = [stamp]
        /\ report_text logFile tr
           = video_row stamp
               (default "unknownid" (info !! "id") +:+ "_thumbnail.jpg")
               (Py.replace Py.backslash "/" rel)
               (default "UNKNOWN_TITLE" (info !! "title"))
               (Py.basename finalPath) url "failed" "HASH_MISMATCH" h2)
  /\ terminals tr = [(url, DONE h2)]
  /\ forall self : App,
       In url (map fst (tree self)) ->
       exists self',
         handle_event self (url, DONE h2) = (self', None)
         /\ In (url, ("VERIFIED", InfoText h2)) (tree self')
         /\ done_items self' = done_items self + 1
         /\ failed_items self' = failed_items self.
Proof.
  intros Hr Hf Hd Hne. apply processVideo_line in Hr.
  unfold digests in Hd.
  rewrite <- primary_failures_main_line in Hf.
  rewrite <- reads_main_line in Hd.
  rewrite <- moves_main_line, <- report_text_main_line, <- terminals_main_line,
    <- extracted_main_line, <- prepared_main_line, <- relpaths_main_line,
    <- stamps_main_line.
  revert Hr Hf Hd. generalize (main_line tr). intros l Hr.
  job_cases Hr; shown; try discriminate.
  intros _ Hd. injection Hd as <- <-.
  split; [reflexivity|]. split; [|split; [reflexivity|]].
  - eexists _, _, _, _. cbv zeta.
    repeat (split; [reflexivity|]).
    unfold verified_status, css_of.
    match goal with
    | |- context [String.eqb ?a ?b] =>
        destruct (String.eqb_spec a b); [contradiction|reflexivity]
    end.
  - intros self Hin. unfold handle_event. cbn [tree set_counters].
    destruct (@tree_item_known url ("VERIFIED", InfoText (sha256_hex x2))
                (tree self) Hin) as (t' & Ht & Hk).
    match goal with
    | |- context [tree_item ?u ?v ?t] =>
        change (tree_item u v t)
          with (tree_item url ("VERIFIED", InfoText (sha256_hex x2)) (tree self))
    end.
    rewrite Ht. eexists. split; [reflexivity|].
    match goal with
    | |- context [updateCounts ?s] =>
        destruct (updateCounts_counters s) as (_ & -> & -> & -> & _)
    end.
    cbn [done_items failed_items tree set_tree set_counters].
    split; [|split; reflexivity].
    unfold tree_item in Ht.
    destruct (existsb (String.eqb url) (map fst (tree self))); [|discriminate].
    injection Ht as <-.
    apply in_map_iff in Hin as ([k v] & Hk' & Hin). simpl in Hk'. subst k.
    apply in_map_iff. exists (url, v). split; [|exact Hin].
    cbn [fst]. now rewrite String.eqb_refl.
Qed.

End MismatchReported.

(* ===================================================================== *)
(** * The thumbnail and the outcome of a job *)
(* ===================================================================== *)

Section ThumbnailOutcome.
Context {B : Builtins}.

(** C7, amended.  In [main.py] the thumbnail changes neither how a job
    ends nor what it records.  Whatever the download of the thumbnail
    did, a job whose primary steps (the engine, the two hashing reads,
    the move, [relpath], the opening of the report and the writing of
    the row) do not fail returns normally; it has hashed two files only,
    the video before and after the move, never the thumbnail; its row is
    made of what the primary steps answered, with the verdict on the two
    digests (VERIFIED or HASH_MISMATCH), and names the thumbnail file
    whether or not it was saved; its only terminal event is DONE with
    the second digest. *)
Theorem thumbnail_never_changes_outcome url videoDir thumbDir logFile case
    tr r :
  runs (processVideo url videoDir thumbDir logFile case) tr r ->
  primary_failures tr = [] ->
  exists info temp rel stamp data1 data2,
    let finalPath := Py.path_join videoDir (Py.basename temp) in
    let status := verified_status (sha256_hex data1) (sha256_hex data2) in
    r = inr tt
    /\ extracted tr = [inr info]
    /\ prepared tr = [inr temp]
    /\ reads tr = [(temp, inr data1); (finalPath, inr data2)]
    /\ relpaths tr = [inr rel]
    /\ stamps tr = [stamp]
    /\ report_text logFile tr
       = video_row stamp
           (default "unknownid" (info !! "id") +:+ "_thumbnail.jpg")
           (Py.replace Py.backslash "/" rel)
           (default "UNKNOWN_TITLE" (info !! "title"))
           (Py.basename finalPath) url (css_of status) status
           (sha256_hex data2)
    /\ terminals tr = [(url, DONE (sha256_hex data2))].
Proof.
  intros Hr Hf. apply processVideo_line in Hr.
  rewrite <- primary_failures_main_line in Hf.
  rewrite <- reads_main_line, <- report_text_main_line, <- terminals_main_line,
    <- extracted_main_line, <- prepared_main_line, <- relpaths_main_line,
    <- stamps_main_line.
  revert Hr Hf. generalize (main_line tr). intros l Hr.
  job_cases Hr; shown; try discriminate.
  intros _. eexists _, _, _, _, _, _. cbv zeta.
  repeat (split; [reflexivity|]). reflexivity.
Qed.

End ThumbnailOutcome.

(* ===================================================================== *)
(** * The rows and the lock *)
(* ===================================================================== *)

Lemma mon_run_hold lf tr : forall m m',
  mon_run lf m tr = Some m' -> m_hold m' = lock_held_from (m_hold m) tr.
Proof.
  induction tr as [|o tr IH]; intros m m'; cbn [mon_run lock_held_from].
  - intros H. now injection H as <-.
  - destruct (mon_step lf m o) as [m1|] eqn:H1; [|discriminate]. intros H.
    rewrite (IH _ _ H).
    destruct o as [[ev| | |path|path c| | | | ]|X c x]; cbn [mon_step] in H1;
      try discriminate;
      try (destruct (m_hold m) eqn:Hh; try discriminate);
      try (destruct (String.eqb path lf); try discriminate);
      injection H1 as <-; cbn [m_hold]; rewrite ?Hh; reflexivity.
Qed.

(** What the watcher accepts is written under the lock, to the report. *)
Lemma watched_writes lf tr m pre path c post :
  mon_run lf mon0 tr = Some m ->
  tr = pre ++ ODo (FileWrite path c) :: post ->
  path = lf /\ lock_held pre = true.
Proof.
  intros Hm ->. rewrite mon_run_app in Hm.
  destruct (mon_run lf mon0 pre) as [m1|] eqn:H1; [|discriminate].
  apply mon_run_hold in H1. cbn [m_hold mon0] in H1.
  cbn [mon_run mon_step] in Hm. unfold lock_held. rewrite <- H1.
  destruct (m_hold m1); [|discriminate].
  destruct (String.eqb_spec path lf); [auto|discriminate].
Qed.

Section RowsAndLock.
Context {B : Builtins}.

(** C6, amended.  Jobs that share a report, run by the pool under any
    schedule and with any answers of their collaborators, on the DONE
    path and on the FAILED path alike.  There is one lock: a job is
    inside a lock section exactly when the lock of the world is its own,
    so no two jobs are inside one at the same time.  Whatever a job
    writes, it writes to the report and while it holds the lock, and a
    job that has come to its end, also with an exception, holds it no
    more.  What a lock section leaves in the report is the beginning of
    one row of the job: the whole row when no write of the job has
    failed, its first bytes when the write fails part-way. *)
Theorem row_writes_hold_logLock (o : oracle) (sched : list nat)
    (jobs : list job_args) lf w0 t workers :
  Forall (fun j => j_logFile j = lf) jobs ->
  w_lock w0 = None ->
  let p := run_pool o sched (new_pool jobs w0 t workers) in
  forall i j th,
    jobs !! i = Some j -> threads p !! i = Some th ->
    (lock_held (th_trace th) = true <-> w_lock (shared p) = Some i)
    /\ (forall pre path c post,
          th_trace th = pre ++ ODo (FileWrite path c) :: post ->
          path = lf /\ lock_held pre = true)
    /\ (finished th = true -> lock_held (th_trace th) = false)
    /\ Forall (row_start (j_url j)) (sections_of lf th)
    /\ (write_failures (th_trace th) = [] ->
        Forall (fun s => s = EmptyString \/ is_row (j_url j) s)
               (sections_of lf th)).
Proof.
  intros Hsame Hfree p i j th Hj Hth.
  pose proof (reached_pool_inv o sched t workers Hsame Hfree) as Hinv.
  fold p in Hinv.
  destruct (inv_lock Hinv Hth) as (m & Hm & Hhold).
  assert (Hheld : m_hold m = lock_held (th_trace th)).
  { unfold watch in Hm. exact (mon_run_hold Hm). }
  rewrite Hheld in Hhold.
  split; [exact Hhold|]. split; [|split].
  - intros pre path c post Htr. unfold watch in Hm.
    exact (watched_writes Hm Htr).
  - intros Hfin. destruct (thread_rows Hsame Hinv Hth Hj) as [_ Hfree'].
    specialize (Hfree' Hfin). unfold holds in Hfree'. rewrite Hm in Hfree'.
    congruence.
  - exact (thread_sections Hsame Hinv Hth Hj).
Qed.

End RowsAndLock.
(* ===================================================================== *)
(** * A whole case: the finalize thread and the counts *)
(* ===================================================================== *)

Lemma filter_all_length T (f : T -> bool) (l : list T) :
  length (List.filter f l) = length l <-> forallb f l = true.
Proof.
  induction l as [|x l IH]; [simpl; tauto|]. cbn [List.filter forallb].
  pose proof (List.filter_length_le f l) as Hle.
  destruct (f x); cbn [length andb].
  - rewrite <- IH. split; [intros H; now injection H|intros ->; reflexivity].
  - split; [intros H; lia|discriminate].
Qed.

Section CaseClaimsProofs.
Context {B : Builtins}.

(** What a valid case has done when [startCase] ends: it has left the
    queue and the lock alone, has submitted the jobs of a beginning of
    the list of URLs, and has started the [finalize] thread, once and
    for its report, exactly when it returned without an error. *)
Lemma valid_case_start (self : App) tr r :
  runs (startCase self) tr r ->
  ~ config_invalid self ->
  Forall leaves_queue_and_lock tr
  /\ exists sent,
       submitted tr = case_jobs self sent
       /\ ((thread_starts tr = []
            /\ forall self', r <> inr (self', None))
           \/ (thread_starts tr = [case_report self]
               /\ sent = entered_urls self
               /\ NoDup sent
               /\ exists self', r = inr (self', None))).
Proof.
  intros Hr Hv.
  destruct (runs_wp Hr (startCase_shape self))
    as [(Hi & _)|(_ & [(e & -> & Hs)|H])]; [contradiction| |].
  - split.
    { eapply Forall_impl; [exact Hs|]. exact setup_leaves_queue_and_lock. }
    exists []. split; [exact (submitted_setup Hs)|]. left.
    split; [exact (thread_starts_setup Hs)|]. discriminate.
  - destruct H as (setup & s & err & sent & Hs & -> & -> & Hfut & Htree
                   & Htot & Hd & Hf & Hnd & Herr).
    split.
    { apply Forall_app. split.
      - eapply Forall_impl; [exact Hs|]. exact setup_leaves_queue_and_lock.
      - constructor; [exact I|]. apply Forall_app. split.
        + apply Forall_forall. intros x Hx. apply list_elem_of_In in Hx.
          apply in_map_iff in Hx as (j & <- & _). exact I.
        + destruct err; repeat constructor. }
    exists sent. destruct err as [e|].
    + destruct (@dispatch_projections setup (entered_threads self)
                  (case_jobs self sent) [] Hs) as [Hsub Hts]; [now left|].
      split; [exact Hsub|]. left. split; [exact Hts|]. intros s' Hs'.
      discriminate Hs'.
    + destruct (@dispatch_projections setup (entered_threads self)
                  (case_jobs self sent)
                  [ODo (ThreadStart (case_report self))] Hs)
        as [Hsub Hts]; [right; eauto|].
      split; [exact Hsub|]. right. subst sent. eauto.
Qed.

(** The pool of a valid case keeps its invariant, from a world whose
    queue is empty. *)
Lemma valid_case_pool (o : oracle) (sched : list nat) (self : App) :
  ~ config_invalid self ->
  exists sent,
    submitted (case_start o self).1 = case_jobs self sent
    /\ pool_inv (case_report self) (case_jobs self sent) (case_world o self)
         (case_pool o sched self)
    /\ w_queue (case_world o self) = [].
Proof.
  intros Hv.
  pose proof (exec_runs o (startCase self) 0) as Hr.
  fold (case_start o self) in Hr.
  destruct (valid_case_start Hr Hv) as (Hleave & sent & Hsub & _).
  destruct (apply_trace_keeps main_tid empty_world Hleave) as [Hq0 Hl0].
  fold (case_world o self) in Hq0, Hl0. simpl in Hq0, Hl0.
  exists sent. split; [exact Hsub|]. split; [|exact Hq0].
  unfold case_pool. rewrite Hsub.
  apply reached_pool_inv; [apply case_jobs_report|exact Hl0].
Qed.

Lemma pool_no_finished lf (jobs : list job_args) w0 p :
  pool_inv lf jobs w0 p ->
  w_queue w0 = [] ->
  List.filter is_finished (w_queue (shared p)) = [].
Proof.
  intros Hinv Hempty. apply filter_none. intros ev Hin.
  now destruct (pool_queue_events Hinv Hempty Hin).
Qed.

(** C4, amended.  A whole case of [main.py] with a valid configuration,
    under any schedule of the pool and with any answers of the
    collaborators.  [startCase] starts the [finalize] thread at most
    once, for the report of the case, and exactly when it has
    dispatched every URL: not when a URL was entered twice, nor when the
    set-up raised.  The thread does its work once all jobs have come to
    their end, however they ended: it appends the footer and then puts
    the FINISHED event that names the report, and that is the only
    FINISHED event on the queue.  When the footer cannot be written the
    thread ends with the exception and no FINISHED event is put; and as
    long as the thread was not started or a job has not come to its end
    there is none either. *)
Theorem finalize_at_most_once (o : oracle) (sched : list nat) (self : App) :
  ~ config_invalid self ->
  let rs := run_case o sched self in
  let asked := thread_starts (rs_start rs).1 in
  let signals := List.filter is_finished (w_queue (rs_world rs)) in
  let signal := ("__SYSTEM__", FINISHED (case_report self)) in
  ((asked = [case_report self]
    /\ submitted (rs_start rs).1 = case_jobs self (entered_urls self)
    /\ exists self', (rs_start rs).2 = inr (self', None))
   \/ (asked = [] /\ forall self', (rs_start rs).2 <> inr (self', None)))
  /\ match rs_finalize rs with
     | Some (trf, inr _) =>
         asked = [case_report self]
         /\ all_finished (rs_pool rs) = true
         /\ (exists stop,
               trf = text_written (case_report self) ModeA stop
                       (html_footer stop)
                     ++ [ODo (QueuePut signal)])
         /\ signals = [signal]
     | Some (trf, inl e) =>
         asked = [case_report self]
         /\ all_finished (rs_pool rs) = true
         /\ puts trf = []
         /\ signals = []
     | None =>
         (asked = [] \/ all_finished (rs_pool rs) = false)
         /\ signals = []
     end.
Proof.
  intros Hv rs asked signals signal. unfold signals, asked, rs.
  clear rs asked signals.
  rewrite run_case_parts. cbv zeta.
  pose proof (exec_runs o (startCase self) 0) as Hr.
  fold (case_start o self) in Hr.
  destruct (valid_case_start Hr Hv) as (Hleave & sent & Hsub & Hstart).
  destruct (valid_case_pool o sched Hv) as (sent' & Hsub' & Hinv & Hq0).
  pose proof (pool_no_finished Hinv Hq0) as Hnone.
  set (p := case_pool o sched self) in *.
  destruct Hstart as [(Hts & Hno)|(Hts & -> & Hnd & s & Hres)]; rewrite Hts.
  - cbn [rs_start rs_finalize rs_world rs_pool]. rewrite ?Hts.
    split; [right; split; [reflexivity|exact Hno]|].
    split; [now left|exact Hnone].
  - destruct (all_finished p) eqn:Hall;
      cbn [rs_start rs_finalize rs_world rs_pool]; rewrite ?Hts;
      (split; [left; split; [reflexivity|eauto]|]).
    2: { split; [right; exact Hall|exact Hnone]. }
    pose proof (exec_runs o (finalize (case_report self)) (clock p)) as Hrf.
    destruct (exec o (clock p) (finalize (case_report self))) as [trf r].
    cbn [fst snd] in *.
    destruct (runs_wp Hrf (finalize_shape (case_report self)))
      as [(stop & -> & ->)|(e & -> & Hquiet)].
    + split; [reflexivity|]. split; [exact Hall|]. split; [eauto|].
      rewrite apply_trace_app.
      destruct (apply_trace_keeps main_tid (shared p)
                  (text_written_leaves (case_report self) ModeA stop
                     (html_footer stop))) as [Hq _].
      cbn [apply_trace apply_action default from_option w_queue id].
      rewrite Hq, List.filter_app, Hnone. reflexivity.
    + split; [reflexivity|]. split; [exact Hall|].
      destruct (apply_trace_keeps main_tid (shared p) Hquiet) as [Hq _].
      rewrite Hq. split; [|exact Hnone].
      unfold puts. clear -Hquiet.
      induction Hquiet as [|x l Hx _ IH]; [reflexivity|]. cbn [flat_map].
      rewrite IH. destruct x as [[]|]; simpl in *; try contradiction;
        reflexivity.
Qed.

(** C2, amended.  A whole case of [main.py] that was finalized, under
    any schedule of the pool and with any answers of the collaborators.
    Every URL entered was submitted once.  No URL has two terminal
    events.  A job that returned has put exactly one terminal event
    (DONE or FAILED) under its URL and, when none of its writes failed,
    has appended exactly one row, the row of that event.  A job that
    ended with an exception (its FAILED row could not be appended) has
    put no terminal event and, when none of its writes failed, has
    appended no row: that URL is dropped.  When the interface has
    drained the queue, [done_items + failed_items] is the number of jobs
    that returned: it is the number of URLs exactly when every job
    returned. *)
Theorem returned_jobs_are_counted (o : oracle) (sched : list nat) (self : App)
    trf :
  ~ config_invalid self ->
  rs_finalize (run_case o sched self) = Some (trf, inr tt) ->
  let rs := run_case o sched self in
  let ths := threads (rs_pool rs) in
  let q := w_queue (rs_world rs) in
  let urls := entered_urls self in
  NoDup urls
  /\ length ths = length urls
  /\ (forall u, length (terminal_events u q) <= 1)
  /\ (forall i u th,
        urls !! i = Some u -> ths !! i = Some th ->
        match ended th with
        | Some (inr _) =>
            exists ev,
              terminal_events u q = [ev]
              /\ (write_failures (th_trace th) = [] ->
                  exists row,
                    rows_of (sections_of (case_report self) th) = [row]
                    /\ row_for u ev row)
        | Some (inl _) =>
            terminal_events u q = []
            /\ (write_failures (th_trace th) = [] ->
                rows_of (sections_of (case_report self) th) = [])
        | None => False
        end)
  /\ exists self',
       drained self rs = (self', [], None)
       /\ total_items self' = length urls
       /\ done_items self' + failed_items self'
          = length (List.filter returned ths)
       /\ (done_items self' + failed_items self' = total_items self'
           <-> forallb returned ths = true).
Proof.
  intros Hv Hfin rs ths q urls. unfold ths, q, rs, drained. clear rs ths q.
  rewrite run_case_parts in *. cbv zeta in *.
  pose proof (exec_runs o (startCase self) 0) as Hr.
  fold (case_start o self) in Hr.
  destruct (thread_starts (case_start o self).1) as [|lf rest] eqn:Hts;
    [discriminate|].
  destruct (all_finished (case_pool o sched self)) eqn:Hall; [|discriminate].
  remember (exec o (clock (case_pool o sched self)) (finalize lf)) as ex
    eqn:Hex.
  cbn [rs_finalize rs_start rs_pool rs_world] in *.
  injection Hfin as Hfin.
  destruct (started_case Hr Hv)
    as (s & Hres & Hnd & Hsub & Hts' & Htree & Htot & Hd & Hf & Hleave).
  { rewrite Hts. discriminate. }
  rewrite Hts in Hts'. injection Hts' as -> ->.
  destruct (apply_trace_keeps main_tid empty_world Hleave) as [Hq0 Hl0].
  fold (case_world o self) in Hq0, Hl0. simpl in Hq0, Hl0.
  fold urls in Hnd, Hsub, Htree, Htot.
  set (jobs := case_jobs self urls) in *.
  set (p := case_pool o sched self) in *.
  pose proof (case_jobs_report self urls) as Hsame. fold jobs in Hsame.
  assert (Hinv : pool_inv (case_report self) jobs (case_world o self) p).
  { unfold p, case_pool. rewrite Hsub.
    apply reached_pool_inv; [exact Hsame|exact Hl0]. }
  assert (Hlen : length (threads p) = length urls).
  { rewrite (inv_length Hinv). unfold jobs, case_jobs. apply length_map. }
  assert (Hevents : Forall2 job_events jobs (threads p)).
  { apply Forall2_same_length_lookup_2.
    - symmetry. exact (inv_length Hinv).
    - intros i j th Hj Hth. exact (thread_events Hinv Hth Hj). }
  assert (Hndj : NoDup (map j_url jobs)).
  { unfold jobs. now rewrite case_jobs_urls. }
  pose proof (exec_runs o (finalize (case_report self)) (clock p)) as Hrf.
  rewrite <- Hex, Hfin in Hrf. cbn [fst snd] in Hrf.
  destruct (runs_wp Hrf (finalize_shape (case_report self)))
    as [(stamp & Htrf & _)|(e & He & _)]; [|discriminate].
  rewrite Hfin. cbn [fst].
  set (fin := ("__SYSTEM__", FINISHED (case_report self))) in *.
  assert (Hworld : w_queue (apply_trace main_tid trf (shared p))
                   = w_queue (shared p) ++ [fin]).
  { rewrite Htrf, apply_trace_app.
    destruct (apply_trace_keeps main_tid (shared p)
                (text_written_leaves (case_report self) ModeA stamp
                   (html_footer stamp))) as [Hq _].
    cbn [apply_trace apply_action default from_option w_queue id].
    now rewrite Hq. }
  rewrite Hworld.
  assert (Hte : forall u,
    terminal_events u (w_queue (shared p) ++ [fin])
    ≡ₚ terminal_events u
         (concat (map (fun th => puts (th_trace th)) (threads p)))).
  { intros u. rewrite terminal_events_app.
    change (terminal_events u [fin]) with (@nil event). rewrite app_nil_r.
    apply filter_permutation. rewrite (inv_queue Hinv), Hq0. reflexivity. }
  split; [exact Hnd|]. split; [exact Hlen|]. split; [|split].
  - intros u. rewrite (Permutation_length (Hte u)).
    destruct (in_dec String.string_dec u (map j_url jobs)) as [Hin|Hout].
    + apply in_map_iff in Hin as (j & <- & Hin).
      apply list_elem_of_In, list_elem_of_lookup in Hin as (i & Hj).
      assert (Hi : i < length (threads p)).
      { rewrite (inv_length Hinv). eapply lookup_lt_Some; eauto. }
      destruct (lookup_lt_is_Some_2 (threads p) i Hi) as [th Hth].
      rewrite (terminal_events_of_job Hevents Hndj Hj Hth).
      now destruct (thread_events Hinv Hth Hj) as (_ & Hone & _).
    + rewrite (terminal_events_elsewhere (url := u) Hevents); [simpl; lia|].
      intros j Hin He. apply Hout. rewrite <- He. now apply in_map.
  - intros i u th Hu Hth.
    assert (Hj : jobs !! i
                 = Some (JobArgs u (case_videos self) (case_thumbs self)
                           (case_report self) (Py.strip (caseEntry self)))).
    { unfold jobs, case_jobs. rewrite list_lookup_fmap, Hu. reflexivity. }
    set (j := JobArgs u (case_videos self) (case_thumbs self)
                (case_report self) (Py.strip (caseEntry self))) in *.
    destruct (thread_events Hinv Hth Hj) as (_ & _ & Hend).
    destruct (thread_rows Hsame Hinv Hth Hj) as [Hrows _].
    pose proof (terminal_events_of_job Hevents Hndj Hj Hth) as Heq.
    change (j_url j) with u in Heq.
    pose proof (Hte u) as Hp. rewrite Heq in Hp.
    assert (Hfin' : finished th = true).
    { unfold all_finished in Hall. rewrite forallb_forall in Hall.
      apply Hall. apply list_elem_of_In.
      eapply list_elem_of_lookup_2; eauto. }
    unfold job_rows in Hrows. unfold ended, finished in *.
    destruct (th_prog th) as [[]|e| |]; try discriminate.
    + destruct (terminals (th_trace th)) as [|ev [|ev' l]] eqn:Hterm;
        try discriminate Hend.
      apply Permutation_singleton_r in Hp.
      exists ev. split; [exact Hp|]. intros Hnone.
      destruct (Hrows Hnone) as (row & ev' & Hone & Hrow & Hev).
      injection Hev as <-. exists row. split; [exact Hone|exact Hrow].
    + rewrite Hend in Hp. apply Permutation_nil_r in Hp.
      split; [exact Hp|exact Hrows].
  - assert (Hjobs : forall ev, In ev (w_queue (shared p)) ->
              is_finished ev = false /\ In ev.1 urls).
    { intros ev Hin.
      destruct (pool_queue_events Hinv Hq0 Hin) as (Hnf & j & Hj & Hu).
      split; [exact Hnf|]. rewrite Hu, <- (case_jobs_urls self urls).
      now apply in_map. }
    assert (Hknown : Forall (row_known (tree s)) (w_queue (shared p) ++ [fin])).
    { apply Forall_app. split.
      - apply Forall_forall. intros ev Hin. apply list_elem_of_In in Hin.
        intros _. rewrite Htree, map_map. simpl. rewrite map_id.
        now apply Hjobs.
      - constructor; [|constructor]. intros Ht. discriminate. }
    destruct (case_start o self) as [tr0 r0]. cbn [fst snd] in *. subst r0.
    destruct (updatingUI_known Hknown) as (s' & Hui & Hd' & Hf' & Ht' & _).
    exists s'. split; [exact Hui|]. split; [now rewrite Ht'|].
    assert (Hcount : done_items s' + failed_items s'
                     = length (List.filter returned (threads p))).
    { rewrite Hd', Hf', Hd, Hf. simpl.
      pose proof (count_done_failed (w_queue (shared p) ++ [fin])) as Hc.
      rewrite List.filter_app, length_app in Hc. simpl in Hc.
      rewrite Nat.add_0_r in Hc.
      assert (Hperm : List.filter is_terminal (w_queue (shared p))
                      ≡ₚ List.filter is_terminal
                           (concat (map (fun th => puts (th_trace th))
                                        (threads p)))).
      { apply filter_permutation. rewrite (inv_queue Hinv), Hq0.
        reflexivity. }
      rewrite (Permutation_length Hperm) in Hc.
      rewrite (finished_jobs_terminals Hevents Hall) in Hc. lia. }
    split; [exact Hcount|].
    rewrite Hcount, Ht', Htot, <- Hlen. apply filter_all_length.
Qed.

End CaseClaimsProofs.

(* ===================================================================== *)
(** * The legacy script: [startCase] *)
(* ===================================================================== *)

Section LegacyStart.
Context {B : Builtins}.

Lemma legacy_startCase_shape (self : App) n :
  py_int (threadPicker self) = Some n ->
  entered_urls self <> [] ->
  wp (Legacy.startCase self) (legacy_shape self n).
Proof.
  intros Hn Hurls. unfold Legacy.startCase. rewrite Hn.
  destruct (entered_urls self) as [|u urls] eqn:Hu; [contradiction|].
  rewrite <- Hu. clear Hu Hurls. cbn [negb].
  unfold Legacy.createHTMLlog. cbv zeta.
  apply (setup_then (header := Legacy.html_header) (self := self) (n := n)).
  { intros e tr Hraised. left. eauto. }
  intros a1 a2 stamp. unfold legacy_shape.
  destruct (Z.leb_spec n 0) as [Hle|Hgt]; cbn [bind act wp].
  { right. exists a1, a2, stamp. left. now rewrite app_nil_r. }
  apply wp_bind. eapply wp_mono; [|apply submit_all_shape].
  intros tr r (self' & err & sent & -> & -> & _).
  unfold submit_obs. rewrite <- (map_map (fun u => JobArgs u _ _ _ _)
                                   (fun j => ODo (ExecutorSubmit j))).
  destruct err as [e|]; cbn [wp bind act]; right; exists a1, a2, stamp;
    right; (split; [exact Hgt|]).
  - eexists _, self', (Some e). split; [|reflexivity].
    first [reflexivity|now rewrite !app_nil_r|now rewrite <- !app_assoc].
  - eexists _, self', None. split; [|reflexivity].
    first [reflexivity|now rewrite !app_nil_r|now rewrite <- !app_assoc].
Qed.

Lemma flat_map_dispatch T (f : obs -> list T) n sent tail :
  (forall j, f (ODo (ExecutorSubmit j)) = []) ->
  flat_map f (ODo (ExecutorNew n)
              :: map (fun j => ODo (ExecutorSubmit j)) sent ++ tail)
  = f (ODo (ExecutorNew n)) ++ flat_map f tail.
Proof.
  intros Hf. cbn [flat_map]. rewrite flat_map_app.
  rewrite (flat_map_submits (f := f) (g := fun _ => [])) by exact Hf.
  now rewrite flat_map_nil_fun.
Qed.

Lemma legacy_shape_projections (self : App) n tr r :
  legacy_shape self n tr r ->
  errors_shown tr = []
  /\ (exists ans rest, tr = OCall (OpenText settingFile ModeW) ans :: rest)
  /\ ((exists e, r = inl e)
      /\ executors tr = [] /\ submitted tr = [] /\ thread_starts tr = []
      \/ (0 < n)%Z /\ executors tr = [n] /\ exists res, r = inr res).
Proof.
  intros [(e & -> & Hraised)|(a1 & a2 & stamp & H)].
  - destruct (setup_raised_projections Hraised)
      as (Herr & Hex & Hsub & Hts & _ & Hopen).
    split; [exact Herr|]. split; [exact Hopen|]. left. eauto.
  - cbv zeta in H.
    destruct (case_ready_projections Legacy.html_header self n a1 a2 stamp)
      as (Herr & Hex & Hsub & Hts & _).
    assert (Hopen : forall tail, exists ans rest,
              case_ready Legacy.html_header self n a1 a2 stamp ++ tail
              = OCall (OpenText settingFile ModeW) ans :: rest).
    { intros tail. unfold case_ready, case_setup, settings_saved.
      rewrite <- !app_assoc. cbn [app]. eauto. }
    destruct H as [(Hle & -> & ->)|(Hgt & sent & self' & err & -> & ->)].
    + split; [exact Herr|]. split.
      { destruct (Hopen []) as (ans & rest & Ho). rewrite app_nil_r in Ho.
        eauto. }
      left. eauto.
    + split; [|split; [apply Hopen|]].
      * unfold errors_shown in *. rewrite flat_map_app, Herr.
        rewrite flat_map_dispatch by reflexivity. now destruct err.
      * right. split; [exact Hgt|]. split; [|eauto].
        unfold executors in *. rewrite flat_map_app, Hex.
        rewrite flat_map_dispatch by reflexivity. now destruct err.
Qed.

(** X22.  The legacy [startCase] does not guard or clamp the worker
    count.  An entry that is not a number raises at once, before
    anything is done or shown.  Otherwise a pool, when one is created,
    has exactly the number of workers entered, however large; and with a
    number below one no job is submitted and no [finalize] thread is
    started: when URLs were entered the call ends with an exception,
    which is either the failure of a step of the set-up or the refusal
    of the pool, raised only after the settings were saved, the two
    directories made, the two address services asked and the report
    created with its header. *)
Theorem legacy_workers_not_clamped (self : App) tr r :
  runs (Legacy.startCase self) tr r ->
  match py_int (threadPicker self) with
  | None => tr = [] /\ exists e, r = inl e
  | Some n =>
      (forall m, In m (executors tr) -> m = n /\ (0 < n)%Z)
      /\ (forall res, r = inr res -> entered_urls self <> [] ->
            executors tr = [n])
      /\ ((n <= 0)%Z ->
            submitted tr = [] /\ thread_starts tr = []
            /\ (entered_urls self <> [] ->
                  (exists e, r = inl e
                             /\ setup_raised Legacy.html_header self n e tr)
                  \/ (r = inl "max_workers must be greater than 0"
                      /\ exists a1 a2 stamp,
                           tr = case_ready Legacy.html_header self n a1 a2
                                  stamp)))
  end.
Proof.
  intros Hr. destruct (py_int (threadPicker self)) as [n|] eqn:Hn.
  - destruct (entered_urls self) as [|u urls] eqn:Hu.
    + unfold Legacy.startCase in Hr. rewrite Hn, Hu in Hr. cbn [negb] in Hr.
      assert (Hshow : tr = [ODo (ShowError "Error" "No URLs entered.")]).
      { exact (@runs_wp _ _ _ _
                 (fun tr _ => tr = [ODo (ShowError "Error" "No URLs entered.")])
                 Hr eq_refl). }
      subst tr. cbn. repeat split; try contradiction; try tauto.
    + assert (Hne : entered_urls self <> []) by (rewrite Hu; discriminate).
      pose proof (runs_wp Hr (legacy_startCase_shape Hn Hne)) as Hshape.
      destruct (legacy_shape_projections Hshape)
        as (_ & _ & [((e & ->) & He & Hs & Ht)|(Hpos & He & res & ->)]);
        rewrite He.
      * split; [intros m []|]. split; [discriminate|].
        intros Hle. split; [exact Hs|]. split; [exact Ht|]. intros _.
        destruct Hshape as [(e' & He' & Hraised)|(a1 & a2 & stamp & H)].
        -- left. exists e'. auto.
        -- cbv zeta in H.
           destruct H as [(_ & -> & Hmax)|(Hgt & _)]; [|lia].
           right. split; [exact Hmax|]. eauto.
      * split; [intros m [<-|[]]; auto|]. split; [auto|]. lia.
  - unfold Legacy.startCase in Hr. rewrite Hn in Hr.
    apply (@runs_wp _ _ _ _ (fun tr r => tr = [] /\ exists e, r = inl e) Hr).
    cbn. eauto.
Qed.

(** X23.  The legacy [startCase] checks the list of URLs only: once the
    worker count was read and a URL was found it shows no error box and
    goes on to save the settings, whatever the case number and the
    destination folder are, also when they are blank. *)
Theorem legacy_checks_urls_only (self : App) n tr r :
  runs (Legacy.startCase self) tr r ->
  py_int (threadPicker self) = Some n ->
  entered_urls self <> [] ->
  errors_shown tr = []
  /\ exists ans rest, tr = OCall (OpenText settingFile ModeW) ans :: rest.
Proof.
  intros Hr Hn Hne.
  pose proof (runs_wp Hr (legacy_startCase_shape Hn Hne)) as Hshape.
  destruct (legacy_shape_projections Hshape) as (Herr & Hopen & _).
  split; [exact Herr|exact Hopen].
Qed.

(** X25.  The legacy [downloadThumbnail] never raises either, but it
    reads the body of the response before it opens the file: it returns
    [True] exactly when the four steps succeeded, and then what it wrote
    is what it read; when the response cannot be opened or read it
    returns [False] and has not touched the file; only a failure of the
    opening of the file or of the write comes after the body was read. *)
Theorem legacy_downloadThumbnail_reads_first thumbnail_url save_path tr r :
  runs (Legacy.downloadThumbnail thumbnail_url save_path) tr r ->
  let fetched data := [OCall (Urlopen thumbnail_url 15) (inr tt);
                       OCall (ResponseRead thumbnail_url) (inr data)] in
  (exists data,
     tr = fetched data ++ [OCall (OpenBinary save_path) (inr tt);
                           OCall (WriteBytes save_path data) (inr tt)]
     /\ r = inr true)
  \/ (r = inr false
      /\ ((exists e, tr = [OCall (Urlopen thumbnail_url 15) (inl e)])
          \/ (exists e, tr = [OCall (Urlopen thumbnail_url 15) (inr tt);
                              OCall (ResponseRead thumbnail_url) (inl e)])
          \/ (exists data e,
                tr = fetched data ++ [OCall (OpenBinary save_path) (inl e)])
          \/ (exists data e,
                tr = fetched data ++ [OCall (OpenBinary save_path) (inr tt);
                                      OCall (WriteBytes save_path data) (inl e)]))).
Proof.
  revert tr r. apply wp_iff_runs. unfold Legacy.downloadThumbnail.
  cbn [bind io catch wp app].
  intros [e|[]]; cbn [bind catch wp]; [right; eauto|].
  intros [e|data]; cbn [bind catch wp]; [right; eauto 6|].
  intros [e|[]]; cbn [bind catch wp]; [right; eauto 8|].
  intros [e|[]]; cbn [bind catch wp]; [right; eauto 8|left; eauto].
Qed.

End LegacyStart.

(* ===================================================================== *)
(** * The pool never blocks on the lock *)
(* ===================================================================== *)

Section Progress.
Context {B : Builtins}.

(** A job asks for the bundled directory before anything else: it has
    not ended before it has been seen to do something. *)
Lemma run_job_not_silent (j : job_args) r : ~ runs (run_job j) [] r.
Proof.
  intros Hr.
  refine (@runs_wp _ _ _ _ (fun tr _ => tr <> []) Hr _ eq_refl).
  unfold run_job, processVideo. apply wp_catch.
  unfold processVideo_try. apply wp_bind.
  unfold ffmpegPath, getBasePath. cbn [bind ask wp]. intros m.
  apply wp_always. intros tr [e|st].
  - apply wp_always. intros. discriminate.
  - cbn [bind ask wp]. intros answer.
    apply wp_always. intros tr' [e|[]]; [apply wp_always; intros|];
      discriminate.
Qed.

Lemma max_workers_run_pool o sched : forall p,
  max_workers (run_pool o sched p) = max_workers p.
Proof.
  induction sched as [|i sched IH]; intros p; [reflexivity|].
  cbn [run_pool]. rewrite IH. unfold step.
  destruct (threads p !! i) as [th|]; [|reflexivity].
  destruct (started th || may_start i p); [|reflexivity].
  destruct (th_prog th) as [a|e|a k|X c k]; try reflexivity.
  now destruct (apply_action i a (shared p)).
Qed.

(** The first element that fails a test. *)
Lemma first_failing T (f : T -> bool) (l : list T) :
  forallb f l = false ->
  exists i x, l !! i = Some x /\ f x = false /\ forallb f (take i l) = true.
Proof.
  induction l as [|y l IH]; [discriminate|]. cbn [forallb]. intros H.
  destruct (f y) eqn:Hy.
  - destruct (IH H) as (i & x & Hl & Hx & Ht).
    exists (S i), x. cbn [take forallb]. rewrite Hy. auto.
  - exists 0, y. auto.
Qed.

Lemma some_passing T (f : T -> bool) (l : list T) :
  existsb f l = true -> exists i x, l !! i = Some x /\ f x = true.
Proof.
  intros H. apply existsb_exists in H as (x & Hin & Hx).
  apply list_elem_of_In, list_elem_of_lookup in Hin as (i & Hi). eauto.
Qed.

Lemma none_passing T (f : T -> bool) (l : list T) :
  existsb f l = false -> List.filter f l = [].
Proof.
  induction l as [|y l IH]; [reflexivity|]. cbn [existsb List.filter].
  destruct (f y); [discriminate|]. exact IH.
Qed.

Variables (lf : string) (jobs : list job_args) (w0 : world).
Hypothesis same_report : Forall (fun j => j_logFile j = lf) jobs.

(** A job that has not come to its end and that a worker has, or may
    take, can take its next step unless another job holds the lock. *)
Lemma can_step o (p : pool) i th :
  pool_inv lf jobs w0 p ->
  threads p !! i = Some th ->
  finished th = false ->
  started th || may_start i p = true ->
  (forall h, w_lock (shared p) = Some h -> h = i) ->
  exists p', step o i p = Some p'.
Proof.
  intros Hinv Hth Hfin Hgo Hlock. unfold step. rewrite Hth, Hgo.
  assert (Hi : i < length jobs).
  { rewrite <- (inv_length Hinv). eapply lookup_lt_Some; eauto. }
  destruct (lookup_lt_is_Some_2 jobs i Hi) as [j Hj].
  assert (Hlf : j_logFile j = lf).
  { rewrite Forall_lookup in same_report. exact (same_report _ _ Hj). }
  destruct (inv_jobs Hinv Hth Hj) as [Hres _].
  destruct (inv_lock Hinv Hth) as (m & Hm & Hhold).
  unfold finished in Hfin.
  destruct (th_prog th) as [a|e|a k|X c k]; try discriminate; [|eauto].
  apply residual_do in Hres.
  destruct (residual_watched Hres) as (m' & Hm' & _).
  rewrite Hlf, mon_run_app in Hm'. unfold watch in Hm. rewrite Hm in Hm'.
  cbn [mon_run] in Hm'.
  destruct (mon_step lf m (ODo a)) as [m1|] eqn:Hstep; [|discriminate].
  destruct a; cbn [apply_action]; eauto; cbn [mon_step] in Hstep.
  - destruct (m_hold m) eqn:Hh; [discriminate|].
    destruct (w_lock (shared p)) as [h|] eqn:Hl; [|eauto].
    rewrite (Hlock h eq_refl) in Hhold.
    destruct Hhold as [_ Hhold]. specialize (Hhold eq_refl). discriminate.
  - destruct (m_hold m) eqn:Hh; [|discriminate].
    destruct Hhold as [Hhold _]. rewrite (Hhold eq_refl). eauto.
Qed.

(** The job that holds the lock has been taken by a worker and has not
    come to its end. *)
Lemma holder_running (p : pool) h :
  pool_inv lf jobs w0 p ->
  w_lock (shared p) = Some h ->
  exists th, threads p !! h = Some th /\ running th = true.
Proof.
  intros Hinv Hl. pose proof (inv_holder Hinv Hl) as Hh.
  destruct (lookup_lt_is_Some_2 (threads p) h Hh) as [th Hth].
  assert (Hj : h < length jobs) by (now rewrite <- (inv_length Hinv)).
  destruct (lookup_lt_is_Some_2 jobs h Hj) as [j Hjob].
  destruct (thread_rows same_report Hinv Hth Hjob) as [_ Hfree].
  destruct (inv_lock Hinv Hth) as (m & Hm & Hhold).
  destruct Hhold as [_ Hhold]. specialize (Hhold Hl).
  exists th. split; [exact Hth|]. unfold running.
  apply andb_true_iff. split.
  - unfold started. unfold watch in Hm.
    destruct (th_trace th); [|reflexivity].
    injection Hm as <-. discriminate.
  - destruct (finished th); [|reflexivity].
    specialize (Hfree eq_refl). unfold holds in Hfree.
    rewrite Hm in Hfree. congruence.
Qed.

(** A job that no worker has taken has not come to its end. *)
Lemma finished_started (p : pool) i th :
  pool_inv lf jobs w0 p ->
  threads p !! i = Some th -> finished th = true -> started th = true.
Proof.
  intros Hinv Hth Hfin.
  assert (Hi : i < length jobs).
  { rewrite <- (inv_length Hinv). eapply lookup_lt_Some; eauto. }
  destruct (lookup_lt_is_Some_2 jobs i Hi) as [j Hj].
  destruct (inv_jobs Hinv Hth Hj) as [Hres _].
  unfold started. destruct (th_trace th) eqn:Htr; [exfalso|reflexivity].
  unfold finished in Hfin.
  destruct (th_prog th) as [a|e|a k|X c k]; try discriminate.
  - apply (@run_job_not_silent j (inr a)). apply (Hres [] (inr a)). constructor.
  - apply (@run_job_not_silent j (inl e)). apply (Hres [] (inl e)). constructor.
Qed.

Lemma pool_progress o (p : pool) :
  pool_inv lf jobs w0 p ->
  (1 <= max_workers p)%Z ->
  (forall h, w_lock (shared p) = Some h -> exists p', step o h p = Some p')
  /\ (all_finished p = false -> exists i p', step o i p = Some p').
Proof.
  intros Hinv Hw.
  assert (Hholder : forall h, w_lock (shared p) = Some h ->
                      exists p', step o h p = Some p').
  { intros h Hl. destruct (holder_running Hinv Hl) as (th & Hth & Hrun).
    unfold running in Hrun. apply andb_true_iff in Hrun as [Hs Hf].
    apply negb_true_iff in Hf.
    apply (can_step o Hinv Hth Hf).
    - now rewrite Hs.
    - intros h' Hl'. congruence. }
  split; [exact Hholder|]. intros Hall.
  destruct (w_lock (shared p)) as [h|] eqn:Hl.
  { destruct (Hholder h eq_refl) as [p' Hp']. eauto. }
  destruct (existsb running (threads p)) eqn:Hex.
  - apply some_passing in Hex as (i & th & Hth & Hrun).
    unfold running in Hrun. apply andb_true_iff in Hrun as [Hs Hf].
    apply negb_true_iff in Hf. exists i.
    apply (can_step o Hinv Hth Hf).
    + now rewrite Hs.
    + intros h'. rewrite Hl. discriminate.
  - unfold all_finished in Hall.
    apply first_failing in Hall as (i & th & Hth & Hf & Hbefore).
    exists i. apply (can_step o Hinv Hth Hf).
    + apply orb_true_iff. right. unfold may_start.
      rewrite (none_passing Hex). apply andb_true_iff. split.
      * apply Z.ltb_lt. simpl. lia.
      * apply forallb_forall. intros th' Hin.
        apply list_elem_of_In, list_elem_of_lookup in Hin as (i' & Hi').
        rewrite forallb_forall in Hbefore.
        assert (Hfin' : finished th' = true).
        { apply Hbefore. apply list_elem_of_In.
          eapply list_elem_of_lookup_2; eauto. }
        apply lookup_take_Some in Hi' as [Hi' _].
        exact (finished_started Hinv Hi' Hfin').
    + intros h'. rewrite Hl. discriminate.
Qed.

End Progress.

(** X24.  The pool never blocks on [logLock], under any schedule and
    with any answers of the collaborators: with at least one worker, the
    job that holds the lock can always take its next step, and as long
    as some job has not come to its end, some job can take a step. *)
Theorem pool_never_blocks `{B : Builtins} o sched jobs lf w0 t workers :
  Forall (fun j => j_logFile j = lf) jobs ->
  w_lock w0 = None ->
  (1 <= workers)%Z ->
  let p := run_pool o sched (new_pool jobs w0 t workers) in
  (forall h, w_lock (shared p) = Some h -> exists p', step o h p = Some p')
  /\ (all_finished p = false -> exists i p', step o i p = Some p').
Proof.
  intros Hsame Hfree Hw p.
  apply (pool_progress Hsame o (w0 := w0)).
  - now apply reached_pool_inv.
  - unfold p. now rewrite max_workers_run_pool.
Qed.

(* ===================================================================== *)
(** * The theorems at concrete runs *)
(* ===================================================================== *)

Section Witnesses.
#[local] Existing Instance Sample.builtins.

(** [sha256Hash] with blocks of three bytes. *)
Lemma sha256Hash_whole_file_witness :
  let run := exec Scenario.healthy 0 (sha256Hash_chunk "/cases/v.mp4" 3) in
  exists ans,
    run.1 = [OCall (ReadBytes "/cases/v.mp4") ans]
    /\ run.2 = match ans with
               | inl e => inl e
               | inr data => inr (sha256_hex data)
               end.
Proof.
  apply (@sha256Hash_whole_file Sample.builtins "/cases/v.mp4" 3);
    [lia|apply exec_runs].
Defined.

Lemma downloadThumbnail_never_raises_witness :
  let run := exec Scenario.thumb_cut_short 0
               (downloadThumbnail "https://img.example/a.jpg" "/t/a.jpg") in
  let opened := [OCall (Urlopen "https://img.example/a.jpg" 15) (inr tt);
                 OCall (OpenBinary "/t/a.jpg") (inr tt)] in
  (exists data,
     run.1 = opened ++ [OCall (ResponseRead "https://img.example/a.jpg") (inr data);
                        OCall (WriteBytes "/t/a.jpg" data) (inr tt)]
     /\ run.2 = inr true)
  \/ (run.2 = inr false
      /\ ((exists e, run.1 = [OCall (Urlopen "https://img.example/a.jpg" 15) (inl e)])
          \/ (exists e, run.1 = [OCall (Urlopen "https://img.example/a.jpg" 15) (inr tt);
                                 OCall (OpenBinary "/t/a.jpg") (inl e)])
          \/ (exists e,
                run.1 = opened
                        ++ [OCall (ResponseRead "https://img.example/a.jpg") (inl e)])
          \/ (exists data e,
                run.1 = opened
                        ++ [OCall (ResponseRead "https://img.example/a.jpg") (inr data);
                            OCall (WriteBytes "/t/a.jpg" data) (inl e)]))).
Proof.
  apply (@downloadThumbnail_never_raises "https://img.example/a.jpg" "/t/a.jpg").
  apply exec_runs.
Defined.

Lemma checkIPaddress_entries_witness :
  let run := exec Scenario.healthy 0 checkIPaddress in
  exists a1 a2,
    run.1 = [OCall (UrlopenRead "https://api.ipify.org" 5) a1;
             OCall (UrlopenRead "https://checkip.amazonaws.com" 5) a2]
    /\ run.2 = inr [ip_entry a1; ip_entry a2].
Proof.
  apply (@checkIPaddress_entries Sample.builtins). apply exec_runs.
Defined.

Lemma createHTMLlog_overwrites_witness :
  let run := exec Scenario.healthy 0
               (createHTMLlog Scenario.report "CASE007" "192.0.2.7" "192.0.2.7"
                              "VERIFIED") in
  let w' := apply_trace main_tid run.1 Scenario.world_with_report in
  match run.2 with
  | inr _ =>
      exists stamp,
        file_text Scenario.report w'
        = html_header "CASE007" stamp "192.0.2.7" "192.0.2.7" "VERIFIED"
  | inl e =>
      (opens run.1 = [(Scenario.report, ModeW, inl e)]
       /\ w' = Scenario.world_with_report)
      \/ (exists stamp n,
            write_failures run.1 = [(Scenario.report, n, e)]
            /\ file_text Scenario.report w'
               = cut n (html_header "CASE007" stamp "192.0.2.7" "192.0.2.7"
                          "VERIFIED"))
  end
  /\ forall p, p <> Scenario.report ->
       file_text p w' = file_text p Scenario.world_with_report.
Proof.
  apply createHTMLlog_overwrites. apply exec_runs.
Defined.

Lemma closeHTMLlog_appends_witness :
  let run := exec (Scenario.disk_full 0 8) 0 (closeHTMLlog Scenario.report) in
  let w' := apply_trace main_tid run.1 Scenario.world_with_report in
  match run.2 with
  | inr _ =>
      exists stamp,
        file_text Scenario.report w'
        = file_text Scenario.report Scenario.world_with_report
          +:+ html_footer stamp
  | inl e =>
      (opens run.1 = [(Scenario.report, ModeA, inl e)]
       /\ w' = Scenario.world_with_report)
      \/ (exists stamp n,
            write_failures run.1 = [(Scenario.report, n, e)]
            /\ file_text Scenario.report w'
               = file_text Scenario.report Scenario.world_with_report
                 +:+ cut n (html_footer stamp))
  end
  /\ forall p, p <> Scenario.report ->
       file_text p w' = file_text p Scenario.world_with_report.
Proof.
  apply closeHTMLlog_appends. apply exec_runs.
Defined.

Lemma finalize_signals_after_footer_witness :
  let run := exec Scenario.healthy 0 (finalize Scenario.report) in
  (exists stamp,
     run.1 = text_written Scenario.report ModeA stamp (html_footer stamp)
             ++ [ODo (QueuePut ("__SYSTEM__", FINISHED Scenario.report))]
     /\ run.2 = inr tt)
  \/ (exists e,
        run.1 = [OCall (OpenText Scenario.report ModeA) (inl e)]
        /\ run.2 = inl e)
  \/ (exists stamp n e,
        run.1 = text_cut Scenario.report ModeA stamp (html_footer stamp) n e
        /\ run.2 = inl e).
Proof.
  apply finalize_signals_after_footer. apply exec_runs.
Defined.

Lemma toRelHref_forward_slashes_witness :
  let run := exec Scenario.healthy 0
               (toRelHref "/cases/CASE007/Videos/a.mp4" "/cases/CASE007") in
  exists ans,
    run.1 = [OCall (Relpath "/cases/CASE007/Videos/a.mp4" "/cases/CASE007") ans]
    /\ match ans with
       | inl e => run.2 = inl e
       | inr rel =>
           exists href,
             run.2 = inr href
             /\ ~ In backslash_char (Py.chars href)
             /\ length (Py.chars href) = length (Py.chars rel)
             /\ (~ In backslash_char (Py.chars rel) -> href = rel)
       end.
Proof.
  apply (@toRelHref_forward_slashes "/cases/CASE007/Videos/a.mp4" "/cases/CASE007").
  apply exec_runs.
Defined.


Lemma updatingUI_counts_witness :
  exists self',
    updatingUI Scenario.app_running Scenario.queue_AB = (self', [], None)
    /\ done_items self'
       = done_items Scenario.app_running + count_done Scenario.queue_AB
    /\ failed_items self'
       = failed_items Scenario.app_running + count_failed Scenario.queue_AB
    /\ total_items self' = total_items Scenario.app_running
    /\ map fst (tree self') = map fst (tree Scenario.app_running)
    /\ (existsb system_finished Scenario.queue_AB = true ->
        statusBadge self' = "DONE").
Proof.
  apply updatingUI_counts. unfold Scenario.queue_AB.
  repeat (apply List.Forall_cons;
          [intros H; first [discriminate H|vm_compute; auto 6]|]).
  apply List.Forall_nil.
Defined.

Lemma updatingUI_stops_at_unknown_row_witness :
  let ev := ("https://example/old", DONE "sha:old") in
  exists self',
    updatingUI Scenario.app_running
      ([(Scenario.url_A, DONE "sha:video-bytes")] ++ ev
         :: [(Scenario.url_B, DONE "sha:video-bytes")])
    = (self', [(Scenario.url_B, DONE "sha:video-bytes")],
       Some ("Item " +:+ ev.1 +:+ " not found"))
    /\ done_items self'
       = done_items Scenario.app_running
         + count_done ([(Scenario.url_A, DONE "sha:video-bytes")] ++ [ev])
    /\ failed_items self'
       = failed_items Scenario.app_running
         + count_failed ([(Scenario.url_A, DONE "sha:video-bytes")] ++ [ev]).
Proof.
  apply updatingUI_stops_at_unknown_row.
  - repeat (apply List.Forall_cons;
            [intros H; first [discriminate H|vm_compute; auto 6]|]).
    apply List.Forall_nil.
  - reflexivity.
  - vm_compute. intros [H|[H|[]]]; discriminate.
Defined.

Lemma entered_urls_clean_witness :
  Scenario.url_A <> EmptyString
  /\ Py.strip Scenario.url_A = Scenario.url_A
  /\ Py.head_space Scenario.url_A = false
  /\ (forall a b, Scenario.url_A = a +:+ b -> b <> EmptyString ->
        Py.all_space b = false)
  /\ ~ In newline_char (Py.chars Scenario.url_A).
Proof.
  apply (@entered_urls_clean Scenario.app_two). vm_compute. auto.
Defined.

Lemma app_two_valid : ~ config_invalid Scenario.app_two.
Proof. intros [H|[H|H]]; vm_compute in H; discriminate. Qed.

Lemma app_twice_valid : ~ config_invalid Scenario.app_twice.
Proof. intros [H|[H|H]]; vm_compute in H; discriminate. Qed.

Lemma app_repeat_valid : ~ config_invalid Scenario.app_repeat.
Proof. intros [H|[H|H]]; vm_compute in H; discriminate. Qed.

Lemma app_one_valid : ~ config_invalid Scenario.app_one.
Proof. intros [H|[H|H]]; vm_compute in H; discriminate. Qed.

Lemma startCase_dispatches_each_url_witness :
  let run := exec Scenario.healthy 0 (startCase Scenario.app_two) in
  exists self',
    run.2 = inr (self', None)
    /\ let urls := entered_urls Scenario.app_two in
       NoDup urls
       /\ submitted run.1 = case_jobs Scenario.app_two urls
       /\ futures self' = case_jobs Scenario.app_two urls
       /\ thread_starts run.1 = [case_report Scenario.app_two]
       /\ tree self' = map queued_row urls
       /\ total_items self' = length urls
       /\ done_items self' = 0
       /\ failed_items self' = 0.
Proof.
  intros run.
  pose proof (exec_runs Scenario.healthy (startCase Scenario.app_two) 0) as Hr.
  fold run in Hr.
  destruct (run.2) as [e|[self' [e|]]] eqn:H2;
    try (exfalso; vm_compute in H2; discriminate).
  exists self'. split; [reflexivity|].
  exact (@startCase_dispatches_each_url Sample.builtins Scenario.app_two
           run.1 self' Hr app_two_valid).
Defined.

Lemma repeated_url_stops_dispatch_witness :
  let run := exec Scenario.healthy 0 (startCase Scenario.app_repeat) in
  thread_starts run.1 = []
  /\ ((exists e, run.2 = inl e /\ submitted run.1 = [])
      \/ exists self' sent u rest,
           run.2 = inr (self', Some ("Item " +:+ u +:+ " already exists"))
           /\ entered_urls Scenario.app_repeat = sent ++ u :: rest
           /\ NoDup sent
           /\ In u sent
           /\ submitted run.1 = case_jobs Scenario.app_repeat sent).
Proof.
  apply (@repeated_url_stops_dispatch Sample.builtins Scenario.app_repeat).
  - apply exec_runs.
  - exact app_repeat_valid.
  - intros H. vm_compute in H. apply NoDup_cons in H as [H _].
    apply H. right. left.
Defined.

Lemma jobs_AB_share_report :
  Forall (fun j => j_logFile j = Scenario.report) Scenario.jobs_AB.
Proof. repeat apply List.Forall_cons; try reflexivity. apply List.Forall_nil. Qed.


Lemma one_terminal_event_per_url_witness :
  let p := run_pool Scenario.healthy (Scenario.round_robin 2 40)
             (new_pool Scenario.jobs_AB empty_world 0 2) in
  let q := w_queue (shared p) in
  (forall ev, In ev q ->
     is_finished ev = false
     /\ exists j, In j Scenario.jobs_AB /\ ev.1 = j_url j)
  /\ (forall url, length (terminal_events url q) <= 1)
  /\ (forall i j th, Scenario.jobs_AB !! i = Some j -> threads p !! i = Some th ->
        match ended th with
        | Some (inr _) => length (terminal_events (j_url j) q) = 1
        | Some (inl _) => terminal_events (j_url j) q = []
        | None => True
        end).
Proof.
  apply (@one_terminal_event_per_url Sample.builtins _ _ _ Scenario.report).
  - exact jobs_AB_share_report.
  - reflexivity.
  - reflexivity.
  - apply (bool_decide_unpack _). vm_compute. exact I.
Defined.

Lemma case_counts_add_up_witness :
  let rs := run_case Scenario.healthy (Scenario.one_by_one 2 420)
              Scenario.app_two in
  exists trf,
    rs_finalize rs = Some (trf, inr tt)
    /\ exists self',
         drained Scenario.app_two rs = (self', [], None)
         /\ total_items self' = length (entered_urls Scenario.app_two)
         /\ length (threads (rs_pool rs))
            = length (entered_urls Scenario.app_two)
         /\ done_items self' + failed_items self'
            = length (List.filter returned (threads (rs_pool rs)))
         /\ statusBadge self' = "DONE"
         /\ List.filter is_finished (w_queue (rs_world rs))
            = [("__SYSTEM__", FINISHED (case_report Scenario.app_two))].
Proof.
  intros rs.
  destruct (rs_finalize rs) as [[trf [e|[]]]|] eqn:H;
    try (exfalso; vm_compute in H; discriminate).
  exists trf. split; [reflexivity|].
  exact (@case_counts_add_up Sample.builtins Scenario.healthy
           (Scenario.one_by_one 2 420) Scenario.app_two trf app_two_valid H).
Defined.

Lemma report_header_records_addresses_witness :
  let run := exec Scenario.healthy 0 (startCase Scenario.app_two) in
  exists self' err,
    run.2 = inr (self', err)
    /\ exists a1 a2 stamp status,
         urlopen_answers run.1 = [a1; a2]
         /\ file_text (case_report Scenario.app_two)
              (apply_trace main_tid run.1 empty_world)
            = html_header (Py.strip (caseEntry Scenario.app_two)) stamp
                (ip_entry a1) (ip_entry a2) status
         /\ (status = "VERIFIED"
             /\ ip_entry a1 = ip_entry a2 /\ ip_entry a1 <> "ERROR"
             \/ status = "MISMATCH"
                /\ (ip_entry a1 <> ip_entry a2 \/ ip_entry a1 = "ERROR")).
Proof.
  intros run.
  pose proof (exec_runs Scenario.healthy (startCase Scenario.app_two) 0) as Hr.
  fold run in Hr.
  destruct (run.2) as [e|[self' err]] eqn:H2;
    [exfalso; vm_compute in H2; discriminate|].
  exists self', err. split; [reflexivity|].
  exact (@report_header_records_addresses Sample.builtins Scenario.app_two
           run.1 self' err empty_world Hr app_two_valid).
Defined.


Lemma first_failure_decides_witness :
  let run := exec Scenario.relpath_fails 0 Scenario.job_A in
  let e := "ValueError: path is on mount 'D:', start on mount 'C:'" in
  exists before,
    (before = EmptyString
     \/ exists n row,
          is_row Scenario.url_A row /\ before = cut n row
          /\ head (write_failures run.1) = Some (Scenario.report, n, e))
    /\ run.2 = inr tt
    /\ terminals run.1 = [(Scenario.url_A, FAILED e)]
    /\ exists stamp,
         report_text Scenario.report run.1
         = before +:+ failed_row stamp Scenario.url_A e.
Proof.
  intros run e.
  refine (@first_failure_decides Sample.builtins Scenario.url_A Scenario.videos
            Scenario.thumbs Scenario.report "CASE007" run.1 run.2 e [] _ _).
  - apply (exec_runs Scenario.relpath_fails Scenario.job_A 0).
  - vm_compute. reflexivity.
Defined.

Lemma engine_options_follow_ffmpeg_witness :
  let run := exec Scenario.healthy 0 Scenario.job_A in
  exists pre opts answer post,
    run.1 = pre ++ OCall (YdlExtractInfo opts Scenario.url_A) answer :: post
    /\ outtmpl opts
       = Py.path_join Scenario.videos ("CASE007" +:+ "_%(title)s.%(ext)s")
    /\ quiet opts = true
    /\ no_warnings opts = true
    /\ ((exists_answers pre = [true] /\ which_answers pre = []
         /\ format opts = Some "bestvideo+bestaudio/best"
         /\ merge_output_format opts = Some "mp4"
         /\ exists dir, ffmpeg_location opts = Some dir)
        \/ (exists w,
              exists_answers pre = [false] /\ which_answers pre = [w]
              /\ ffmpeg_location opts = None
              /\ if on_path w
                 then format opts = Some "bestvideo+bestaudio/best"
                      /\ merge_output_format opts = Some "mp4"
                 else format opts = Some "best"
                      /\ merge_output_format opts = None)).
Proof.
  exact (@engine_options_follow_ffmpeg Sample.builtins Scenario.url_A
           Scenario.videos Scenario.thumbs Scenario.report "CASE007" _ _
           (exec_runs Scenario.healthy Scenario.job_A 0)).
Defined.

Lemma legacy_workers_not_clamped_witness :
  let run := exec Scenario.healthy 0 (Legacy.startCase Scenario.app_zero) in
  (forall m, In m (executors run.1) -> m = 0%Z /\ (0 < 0)%Z)
  /\ (forall res, run.2 = inr res ->
        entered_urls Scenario.app_zero <> [] -> executors run.1 = [0%Z])
  /\ ((0 <= 0)%Z ->
        submitted run.1 = [] /\ thread_starts run.1 = []
        /\ (entered_urls Scenario.app_zero <> [] ->
              (exists e, run.2 = inl e
                         /\ setup_raised Legacy.html_header Scenario.app_zero
                              0 e run.1)
              \/ (run.2 = inl "max_workers must be greater than 0"
                  /\ exists a1 a2 stamp,
                       run.1 = case_ready Legacy.html_header Scenario.app_zero
                                 0 a1 a2 stamp))).
Proof.
  exact (@legacy_workers_not_clamped Sample.builtins Scenario.app_zero _ _
           (exec_runs Scenario.healthy (Legacy.startCase Scenario.app_zero) 0)).
Defined.

Lemma legacy_checks_urls_only_witness :
  let run := exec Scenario.healthy 0 (Legacy.startCase Scenario.app_blank) in
  errors_shown run.1 = []
  /\ exists ans rest,
       run.1 = OCall (OpenText settingFile ModeW) ans :: rest.
Proof.
  apply (@legacy_checks_urls_only Sample.builtins Scenario.app_blank 4
           _ (exec Scenario.healthy 0 (Legacy.startCase Scenario.app_blank)).2).
  - apply exec_runs.
  - vm_compute. reflexivity.
  - vm_compute. discriminate.
Defined.

Lemma pool_never_blocks_witness :
  let p := run_pool Scenario.healthy (Scenario.round_robin 2 40)
             (new_pool Scenario.jobs_AB Scenario.world_with_report 0 1) in
  (forall h, w_lock (shared p) = Some h ->
     exists p', step Scenario.healthy h p = Some p')
  /\ (all_finished p = false ->
      exists i p', step Scenario.healthy i p = Some p').
Proof.
  apply (@pool_never_blocks Sample.builtins _ _ _ Scenario.report).
  - exact jobs_AB_share_report.
  - reflexivity.
  - lia.
Defined.

Lemma legacy_downloadThumbnail_reads_first_witness :
  let run := exec Scenario.thumb_cut_short 0
               (Legacy.downloadThumbnail "https://img.example/a.jpg" "/t/a.jpg") in
  let fetched data := [OCall (Urlopen "https://img.example/a.jpg" 15) (inr tt);
                       OCall (ResponseRead "https://img.example/a.jpg") (inr data)] in
  (exists data,
     run.1 = fetched data ++ [OCall (OpenBinary "/t/a.jpg") (inr tt);
                              OCall (WriteBytes "/t/a.jpg" data) (inr tt)]
     /\ run.2 = inr true)
  \/ (run.2 = inr false
      /\ ((exists e, run.1 = [OCall (Urlopen "https://img.example/a.jpg" 15) (inl e)])
          \/ (exists e, run.1 = [OCall (Urlopen "https://img.example/a.jpg" 15) (inr tt);
                                 OCall (ResponseRead "https://img.example/a.jpg") (inl e)])
          \/ (exists data e,
                run.1 = fetched data ++ [OCall (OpenBinary "/t/a.jpg") (inl e)])
          \/ (exists data e,
                run.1 = fetched data
                        ++ [OCall (OpenBinary "/t/a.jpg") (inr tt);
                            OCall (WriteBytes "/t/a.jpg" data) (inl e)]))).
Proof.
  apply (@legacy_downloadThumbnail_reads_first
           "https://img.example/a.jpg" "/t/a.jpg").
  apply exec_runs.
Defined.



(** The witness of C1: the file reads one byte short after the move. *)
Lemma hash_mismatch_reported_done_witness :
  let run := exec (Scenario.corrupting 14) 0 Scenario.job_A in
  let h2 := "sha:video-byte" in
  run.2 = inr tt
  /\ (exists info temp rel stamp,
        let finalPath := Py.path_join Scenario.videos (Py.basename temp) in
        extracted run.1 = [inr info]
        /\ prepared run.1 = [inr temp]
        /\ moves run.1 = [(temp, finalPath)]
        /\ relpaths run.1 = [inr rel]
        /\ stamps run.1 = [stamp]
        /\ report_text Scenario.report run.1
           = video_row stamp
               (default "unknownid" (info !! "id") +:+ "_thumbnail.jpg")
               (Py.replace Py.backslash "/" rel)
               (default "UNKNOWN_TITLE" (info !! "title"))
               (Py.basename finalPath) Scenario.url_A "failed" "HASH_MISMATCH"
               h2)
  /\ terminals run.1 = [(Scenario.url_A, DONE h2)]
  /\ forall self : App,
       In Scenario.url_A (map fst (tree self)) ->
       exists self',
         handle_event self (Scenario.url_A, DONE h2) = (self', None)
         /\ In (Scenario.url_A, ("VERIFIED", InfoText h2)) (tree self')
         /\ done_items self' = done_items self + 1
         /\ failed_items self' = failed_items self.
Proof.
  intros run h2.
  refine (@hash_mismatch_reported_done Sample.builtins Scenario.url_A
            Scenario.videos Scenario.thumbs Scenario.report "CASE007"
            run.1 run.2 "sha:video-bytes" h2 _ _ _ _).
  - apply (exec_runs (Scenario.corrupting 14) Scenario.job_A 0).
  - vm_compute. reflexivity.
  - vm_compute. reflexivity.
  - discriminate.
Defined.

(** The witness of C7: the thumbnail cannot be fetched. *)
Lemma thumbnail_never_changes_outcome_witness :
  let run := exec Scenario.thumb_unreachable 0 Scenario.job_A in
  exists info temp rel stamp data1 data2,
    let finalPath := Py.path_join Scenario.videos (Py.basename temp) in
    let status := verified_status (sha256_hex data1) (sha256_hex data2) in
    run.2 = inr tt
    /\ extracted run.1 = [inr info]
    /\ prepared run.1 = [inr temp]
    /\ reads run.1 = [(temp, inr data1); (finalPath, inr data2)]
    /\ relpaths run.1 = [inr rel]
    /\ stamps run.1 = [stamp]
    /\ report_text Scenario.report run.1
       = video_row stamp
           (default "unknownid" (info !! "id") +:+ "_thumbnail.jpg")
           (Py.replace Py.backslash "/" rel)
           (default "UNKNOWN_TITLE" (info !! "title"))
           (Py.basename finalPath) Scenario.url_A (css_of status) status
           (sha256_hex data2)
    /\ terminals run.1 = [(Scenario.url_A, DONE (sha256_hex data2))].
Proof.
  refine (@thumbnail_never_changes_outcome Sample.builtins Scenario.url_A
            Scenario.videos Scenario.thumbs Scenario.report "CASE007" _ _
            (exec_runs Scenario.thumb_unreachable Scenario.job_A 0) _).
  vm_compute. reflexivity.
Defined.

(** The witness of C6: job 0 has written its row, job 1 is writing. *)
Lemma row_writes_hold_logLock_witness :
  let p := run_pool Scenario.healthy (replicate 405 0 ++ replicate 200 1)
             (new_pool Scenario.jobs_AB Scenario.world_with_report 0 2) in
  forall i j th,
    Scenario.jobs_AB !! i = Some j -> threads p !! i = Some th ->
    (lock_held (th_trace th) = true <-> w_lock (shared p) = Some i)
    /\ (forall pre path c post,
          th_trace th = pre ++ ODo (FileWrite path c) :: post ->
          path = Scenario.report /\ lock_held pre = true)
    /\ (finished th = true -> lock_held (th_trace th) = false)
    /\ Forall (row_start (j_url j)) (sections_of Scenario.report th)
    /\ (write_failures (th_trace th) = [] ->
        Forall (fun s => s = EmptyString \/ is_row (j_url j) s)
               (sections_of Scenario.report th)).
Proof.
  apply (@row_writes_hold_logLock Sample.builtins).
  - exact jobs_AB_share_report.
  - reflexivity.
Defined.

(** The claim that each append leaves one whole row fails.  The disk is
    full: the write of the video row stops after five bytes, and so does
    the write of the FAILED row that the handler of the job attempts;
    each of the two lock sections of the job has left a line feed and
    [<tr>] in the report, which is no row. *)
Lemma cut_row_is_no_row : ~ @whole_row_claim Sample.builtins.
Proof.
  intros H.
  set (p := run_pool (Scenario.disk_full 0 5) (replicate 60 0)
              (new_pool Scenario.jobs_AB empty_world 0 1)).
  assert (Hth : exists th,
            threads p !! 0 = Some th
            /\ sections_of Scenario.report th
               = [cut 5 (failed_row EmptyString EmptyString EmptyString);
                  cut 5 (failed_row EmptyString EmptyString EmptyString)]).
  { vm_compute. eexists. split; reflexivity. }
  destruct Hth as (th & Hth & Hsec).
  pose proof (H (Scenario.disk_full 0 5) (replicate 60 0) Scenario.jobs_AB
                Scenario.report empty_world 0 1%Z jobs_AB_share_report
                eq_refl 0 _ th eq_refl Hth) as Hrows.
  rewrite Hsec in Hrows. apply Forall_cons in Hrows as [[Hno|Hrow] _].
  - vm_compute in Hno. discriminate Hno.
  - destruct Hrow as [(stamp & thumb & href & title & name & h1 & h2 & Hrow)
                     |(stamp & e & Hrow)];
      vm_compute in Hrow; discriminate Hrow.
Qed.

(** The witness of C4: two URLs, both jobs to their end, then
    [finalize]. *)
Lemma finalize_at_most_once_witness :
  let self := Scenario.app_two in
  let rs := run_case Scenario.healthy (Scenario.one_by_one 2 420) self in
  let asked := thread_starts (rs_start rs).1 in
  let signals := List.filter is_finished (w_queue (rs_world rs)) in
  let signal := ("__SYSTEM__", FINISHED (case_report self)) in
  ((asked = [case_report self]
    /\ submitted (rs_start rs).1 = case_jobs self (entered_urls self)
    /\ exists self', (rs_start rs).2 = inr (self', None))
   \/ (asked = [] /\ forall self', (rs_start rs).2 <> inr (self', None)))
  /\ match rs_finalize rs with
     | Some (trf, inr _) =>
         asked = [case_report self]
         /\ all_finished (rs_pool rs) = true
         /\ (exists stop,
               trf = text_written (case_report self) ModeA stop
                       (html_footer stop)
                     ++ [ODo (QueuePut signal)])
         /\ signals = [signal]
     | Some (trf, inl e) =>
         asked = [case_report self]
         /\ all_finished (rs_pool rs) = true
         /\ puts trf = []
         /\ signals = []
     | None =>
         (asked = [] \/ all_finished (rs_pool rs) = false)
         /\ signals = []
     end.
Proof.
  exact (@finalize_at_most_once Sample.builtins Scenario.healthy
           (Scenario.one_by_one 2 420) Scenario.app_two app_two_valid).
Defined.

(** The claim that every case is finalized once fails.  The same URL was
    entered twice: Tk refuses the second row, the loop of [startCase]
    ends there and the [finalize] thread is never started.  The one job
    that was submitted has come to its end, and no FINISHED event is on
    the queue. *)
Lemma repeated_url_never_finalized : ~ @finalize_claim Sample.builtins.
Proof.
  intros H.
  pose proof (H Scenario.healthy (replicate 420 0) Scenario.app_twice
                app_twice_valid) as Hclaim.
  cbv zeta in Hclaim.
  assert (Hsome : threads (rs_pool (run_case Scenario.healthy (replicate 420 0)
                                      Scenario.app_twice)) <> []).
  { vm_compute. discriminate. }
  assert (Hall : all_finished (rs_pool (run_case Scenario.healthy
                                          (replicate 420 0) Scenario.app_twice))
                 = true).
  { vm_compute. reflexivity. }
  specialize (Hclaim Hsome Hall). vm_compute in Hclaim. discriminate Hclaim.
Qed.

(** The witness of C2: two URLs, both jobs to their end, then
    [finalize]. *)
Lemma returned_jobs_are_counted_witness :
  let self := Scenario.app_two in
  let rs := run_case Scenario.healthy (Scenario.one_by_one 2 420) self in
  let ths := threads (rs_pool rs) in
  let q := w_queue (rs_world rs) in
  let urls := entered_urls self in
  exists trf,
    rs_finalize rs = Some (trf, inr tt)
    /\ NoDup urls
    /\ length ths = length urls
    /\ (forall u, length (terminal_events u q) <= 1)
    /\ (forall i u th,
          urls !! i = Some u -> ths !! i = Some th ->
          match ended th with
          | Some (inr _) =>
              exists ev,
                terminal_events u q = [ev]
                /\ (write_failures (th_trace th) = [] ->
                    exists row,
                      rows_of (sections_of (case_report self) th) = [row]
                      /\ row_for u ev row)
          | Some (inl _) =>
              terminal_events u q = []
              /\ (write_failures (th_trace th) = [] ->
                  rows_of (sections_of (case_report self) th) = [])
          | None => False
          end)
    /\ exists self',
         drained self rs = (self', [], None)
         /\ total_items self' = length urls
         /\ done_items self' + failed_items self'
            = length (List.filter returned ths)
         /\ (done_items self' + failed_items self' = total_items self'
             <-> forallb returned ths = true).
Proof.
  intros self rs ths q urls.
  destruct (rs_finalize rs) as [[trf [e|[]]]|] eqn:H;
    try (exfalso; vm_compute in H; discriminate).
  exists trf. split; [reflexivity|].
  exact (@returned_jobs_are_counted Sample.builtins Scenario.healthy
           (Scenario.one_by_one 2 420) Scenario.app_two trf app_two_valid H).
Defined.

(** The claim that no URL is dropped fails.  The engine finds no stream
    and, while the job runs, the report cannot be opened for appending:
    the FAILED row cannot be written, the exception leaves the job, and
    no terminal event is put for the URL.  The report can be opened again
    when [finalize] runs: the case is finalized with no event for its
    only URL. *)
Lemma failed_append_drops_url : ~ @every_url_claim Sample.builtins.
Proof.
  intros H.
  assert (Hfin : exists trf,
            rs_finalize (run_case (Scenario.outage 1281) (replicate 30 0)
                           Scenario.app_one)
            = Some (trf, inr tt)).
  { vm_compute. eexists. reflexivity. }
  destruct Hfin as [trf Hfin].
  pose proof (H (Scenario.outage 1281) (replicate 30 0) Scenario.app_one trf
                app_one_valid Hfin Scenario.url_A) as Hone.
  assert (Hin : In Scenario.url_A (entered_urls Scenario.app_one)).
  { vm_compute. auto. }
  specialize (Hone Hin). vm_compute in Hone. discriminate Hone.
Qed.

End Witnesses.
